(** * The [cdistance] sequence-distance engine

    A shallow embedding of the C extension that computes Hamming and
    Levenshtein distances, the bounded "fast" comparator, the longest common
    substrings and the two streaming comparators, together with the
    properties its specification states about them.

    The C template bodies ([hamming.c], [levenshtein.c], [fastcomp.c],
    [lcsubstrings.c]) are instantiated three times by the preprocessor, for
    code points, bytes and generic Python objects.  Here each body is written
    once, over an element type [T] and an equality oracle
    [SEQUENCE_COMP : T -> T -> Z] that answers [1] (equal), [0] (different)
    or [-1] (the comparison raised).  The code-point and byte instances,
    which compare with [==] and cannot fail, are the oracle [native].

    [Py_ssize_t] values are modelled in [Z]: every value the engine computes
    is bounded by the sum of the two lengths plus one, far below the
    wrap-around point of a 64-bit word for any sequence that fits in
    memory. *)

From Stdlib Require Import ZArith QArith Lia Ascii String.
From stdpp Require Import base tactics option list list_numbers strings.

Local Open Scope Z_scope.

(** ** The abstract machine *)

(** What the environment decides for one call: whether the [n]-th [malloc]
    of the call succeeds, what a fresh block contains before it is written,
    and what a load outside a block finds ([None]: the access traps). *)
Record machine : Type := Machine {
  malloc_ok : nat -> bool;
  junk : Z -> Z;
  stray : Z -> option Z
}.

(** Ways a call can go wrong without returning. *)
Inductive fault : Type :=
| OutOfBounds (k : Z)      (* an access at index [k] outside its block *)
| AssertFailed             (* [assert] with a false condition *)
| OutOfFuel.               (* a [while] loop outlived its iteration bound *)

(** The outcome of a statement inside a function returning [R]: control
    falls through with a value, a [return] was executed, or the machine
    stopped. *)
Inductive outcome (R A : Type) : Type :=
| Next (a : A)
| Return (r : R)
| Crash (f : fault).
Arguments Next {R A} a.
Arguments Return {R A} r.
Arguments Crash {R A} f.

(** The outcome of a whole call. *)
Inductive result (R : Type) : Type :=
| Value (r : R)
| Fault (f : fault).
Arguments Value {R} r.
Arguments Fault {R} f.

Definition bind {R A B} (c : outcome R A) (k : A -> outcome R B) : outcome R B :=
  match c with
  | Next a => k a
  | Return r => Return r
  | Crash f => Crash f
  end.

Notation "'let*' x := c 'in' k" := (bind c (fun x => k))
  (at level 10, x pattern, c at level 100, k at level 200).

(** [finish] closes a function body; [call] runs a callee inside a caller. *)
Definition finish {R} (c : outcome R R) : result R :=
  match c with
  | Next r => Value r
  | Return r => Value r
  | Crash f => Fault f
  end.

Definition call {R A} (c : result A) : outcome R A :=
  match c with
  | Value a => Next a
  | Fault f => Crash f
  end.

(** [if (c) return r;] *)
Definition return_if {R} (c : bool) (r : R) : outcome R unit :=
  if c then Return r else Next tt.

Definition assert {R} (c : bool) : outcome R unit :=
  if c then Next tt else Crash AssertFailed.

(** [for (k = k0; ...; k++)] over the indices [ks], threading the state. *)
Fixpoint for_each {R S} (ks : list Z) (body : Z -> S -> outcome R S) (s : S)
  : outcome R S :=
  match ks with
  | [] => Next s
  | k :: ks' => let* s' := body k s in for_each ks' body s'
  end.

(** *** Scratch arrays *)

Definition len {A} (l : list A) : Z := Z.of_nat (length l).

Definition in_block {A} (a : list A) (k : Z) : bool :=
  (0 <=? k) && (k <? len a).

(** [column[k]] as an rvalue. *)
Definition load {R} (m : machine) (a : list Z) (k : Z) : outcome R Z :=
  if in_block a k then
    match a !! Z.to_nat k with
    | Some v => Next v
    | None => Crash (OutOfBounds k)
    end
  else
    match stray m k with
    | Some v => Next v
    | None => Crash (OutOfBounds k)
    end.

(** [column[k] = v] *)
Definition store {R} (a : list Z) (k : Z) (v : Z) : outcome R (list Z) :=
  if in_block a k then Next (<[Z.to_nat k := v]> a)
  else Crash (OutOfBounds k).

(** [malloc(n * sizeof(Py_ssize_t))], the [i]-th allocation of the call. *)
Definition malloc (m : machine) (i : nat) (n : Z) : option (list Z) :=
  if malloc_ok m i then Some (junk m <$> seqZ 0 n) else None.

(** [seq[k]] for a sequence handle. *)
Definition item {R T} (s : list T) (k : Z) : outcome R T :=
  if in_block s k then
    match s !! Z.to_nat k with
    | Some x => Next x
    | None => Crash (OutOfBounds k)
    end
  else Crash (OutOfBounds k).

(** The machine in which every allocation succeeds, fresh memory holds [0]
    and every stray load traps: a bounds-checking execution. *)
Definition checked : machine :=
  Machine (fun _ => true) (fun _ => 0) (fun _ => None).

(** A machine in which the word in front of a block is readable and holds
    [g], as with an allocator that keeps its header there. *)
Definition lenient (g : Z) : machine :=
  Machine (fun _ => true) (fun _ => 0) (fun k => if k =? -1 then Some g else None).

(** *** Macros of [levenshtein.c] *)

Definition MIN3 (a b c : Z) : Z :=
  if a <? b then (if a <? c then a else c) else (if b <? c then b else c).

Definition MAX3 (a b c : Z) : Z :=
  if a >? b then (if a >? c then a else c) else (if b >? c then b else c).

(** ** levenshtein.c *)

(** The body of [while (len-- >= 0)]: the test reads [len], the decrement
    happens before the body runs. *)
Fixpoint minimum_loop (fuel : nat) (m : machine) (column : list Z) (len0 min : Z)
  : outcome Z Z :=
  match fuel with
  | O => Crash OutOfFuel
  | S fuel' =>
      if len0 >=? 0 then
        let len1 := len0 - 1 in
        let* v := load m column len1 in
        let min' := if v <? min then v else min in
        minimum_loop fuel' m column len1 min'
      else Next min
  end.

Definition minimum (m : machine) (column : list Z) (len0 : Z) : result Z :=
  finish (
    let* _ := assert (len0 >? 0) in
    let len1 := len0 - 1 in
    let* min := load m column len1 in
    minimum_loop (Z.to_nat len0 + 2) m column len1 min).

(** A C [double]: an exact rational, or the result of a division by zero.
    Rounding is left out; it is monotone and exact at [0] and [1], which is
    all the statements below rely on. *)
Inductive double : Type :=
| Real (q : Q)
| NotFinite.

(** [a / (double)b] for integers [a] and [b]. *)
Definition fdiv (a b : Z) : double :=
  if b =? 0 then NotFinite else Real (inject_Z a / inject_Z b)%Q.

(** A string literal with its terminating NUL. *)
Definition cstr (s : string) : list ascii := list_ascii_of_string s ++ [zero].

(** *** What the entry points of [distance.c] hand back to Python *)

(** The exceptions of the engine. [InvalidArgument] is the [ValueError] for
    a [method] other than 1 or 2. *)
Inductive error : Type :=
| LengthMismatch
| OutOfMemory
| ComparisonFailed
| InvalidArgument.

Inductive py (A : Type) : Type :=
| Ok (a : A)
| Raise (e : error)
| Halt (f : fault).
Arguments Ok {A} a.
Arguments Raise {A} e.
Arguments Halt {A} f.

Inductive number : Type :=
| PyLong (z : Z)
| PyFloat (d : double).

(** The two shapes of the result of [lcsubstrings]: the tuple
    [(length, positions)], or the substrings put into the set. *)
Inductive lcs_value (T : Type) : Type :=
| Positions (mlen : Z) (starts : list (Z * Z))
| Substrings (found : list (list T)).
Arguments Positions {T} mlen starts.
Arguments Substrings {T} found.

(** One call of [tp_iternext]. *)
Inductive step (A : Type) : Type :=
| Yield (a : A)
| StopIteration
| Raised (e : error)
| Halted (f : fault).
Arguments Yield {A} a.
Arguments StopIteration {A}.
Arguments Raised {A} e.
Arguments Halted {A} f.

(** The iterator state: the candidates still to come, the reference
    sequence and the option of the comparator in use. *)
Record ItorState (T : Type) : Type := {
  itor : list (list T);
  seq1 : list T;
  transpos : bool;
  max_dist : Z
}.
Arguments itor {T} _.
Arguments seq1 {T} _.
Arguments transpos {T} _.
Arguments max_dist {T} _.

Section Engine.
Context {T : Type}.
Variable SEQUENCE_COMP : T -> T -> Z.
Variable m : machine.

(** One cell of the row: the body of the inner [for]. The state is the
    column and [last]. *)
Definition levenshtein_cell (seq1 seq2 : list T) (i j : Z)
    (st : list Z * Z) : outcome Z (list Z * Z) :=
  let '(column, last) := st in
  let* old := load m column j in
  let* x := item seq1 (i - 1) in
  let* y := item seq2 (j - 1) in
  let comp := SEQUENCE_COMP x y in
  let* _ := return_if (comp =? -1) (-3) in
  let cost := if comp =? 0 then 1 else 0 in
  let* up := load m column j in
  let* lft := load m column (j - 1) in
  let* column' := store column j (MIN3 (up + 1) (lft + 1) (last + cost)) in
  Next (column', old).

(** One row: the body of the outer [for]. *)
Definition levenshtein_row (seq1 seq2 : list T) (len2 max_dist : Z) (i : Z)
    (column : list Z) : outcome Z (list Z) :=
  let* column := store column 0 i in
  let* st := for_each (seqZ 1 len2) (levenshtein_cell seq1 seq2 i) (column, i - 1) in
  let column := st.1 in
  let* _ :=
    if max_dist >=? 0 then
      let* least := call (minimum m column (len2 + 1)) in
      return_if (least >? max_dist) (-1)
    else Next tt in
  Next column.

(** The function from the length test on, once the operands are
    ordered. *)
Definition levenshtein_ordered (seq1 seq2 : list T) (len1 len2 max_dist : Z)
    : outcome Z Z :=
  let* _ := return_if ((max_dist >=? 0) && (len1 - len2 >? max_dist)) (-1) in
  let* _ := return_if (len1 =? 0) len2 in
  let* _ := return_if (len2 =? 0) len1 in
  match malloc m 0 (len2 + 1) with
  | None => Return (-2)
  | Some column =>
      let* column := for_each (seqZ 1 len2) (fun j c => store c j j) column in
      let* column := for_each (seqZ 1 len1)
                       (levenshtein_row seq1 seq2 len2 max_dist) column in
      let* dist := load m column len2 in
      let* _ := return_if ((max_dist >=? 0) && (dist >? max_dist)) (-1) in
      Next dist
  end.

Definition levenshtein (seq1 seq2 : list T) (max_dist : Z) : result Z :=
  finish (
    let len1 := len seq1 in
    let len2 := len seq2 in
    let '(seq1, seq2, len1, len2) :=
      if len1 <? len2 then (seq2, seq1, len2, len1) else (seq1, seq2, len1, len2) in
    levenshtein_ordered seq1 seq2 len1 len2 max_dist).

(** *** nlevenshtein *)

(** One cell of the two parallel rows of method 2. The state is
    [column], [length], [last] and [llast]. *)
Definition nlevenshtein_cell (seq1 seq2 : list T) (i j : Z)
    (st : list Z * list Z * Z * Z) : outcome double (list Z * list Z * Z * Z) :=
  let '(column, length, last, llast) := st in
  let* old := load m column j in
  let* lft := load m column (j - 1) in
  let ic := lft + 1 in
  let* up := load m column j in
  let dc := up + 1 in
  let* x := item seq1 (i - 1) in
  let* y := item seq2 (j - 1) in
  let comp := SEQUENCE_COMP x y in
  let* _ := return_if (comp =? -1) (Real (-2)) in
  let rc := last + (if comp =? 0 then 1 else 0) in
  let* column := store column j (MIN3 ic dc rc) in
  let last := old in
  let* lold := load m length j in
  let* cur := load m column j in
  let* lic := if ic =? cur then
                let* l := load m length (j - 1) in Next (l + 1)
              else Next 0 in
  let* ldc := if dc =? cur then
                let* l := load m length j in Next (l + 1)
              else Next 0 in
  let lrc := if rc =? cur then llast + 1 else 0 in
  let* length := store length j (MAX3 lic ldc lrc) in
  Next (column, length, last, lold).

Definition nlevenshtein_row (seq1 seq2 : list T) (len2 : Z) (i : Z)
    (st : list Z * list Z) : outcome double (list Z * list Z) :=
  let '(column, length) := st in
  let* length := store length 0 i in
  let* column := store column 0 i in
  let* st := for_each (seqZ 1 len2) (nlevenshtein_cell seq1 seq2 i)
               (column, length, i - 1, i - 1) in
  Next (st.1.1.1, st.1.1.2).

Definition nlevenshtein (seq1 seq2 : list T) (method : Z) : result double :=
  finish (
    let len1 := len seq1 in
    let len2 := len seq2 in
    let* _ := assert (len1 >=? len2) in
    let* _ := return_if (len1 =? 0) (Real 0) in
    let* _ := return_if (len2 =? 0) (Real 1) in
    let* _ :=
      if method =? 1 then
        let* fdist := call (levenshtein seq1 seq2 (-1)) in
        let* _ := return_if (fdist <? 0) (Real (inject_Z fdist)) in
        Return (fdiv fdist len1)
      else Next tt in
    match malloc m 0 (len2 + 1) with
    | None => Return (Real (-1))
    | Some column =>
        match malloc m 1 (len2 + 1) with
        | None => Return (Real (-1))
        | Some length =>
            let* st := for_each (seqZ 1 len2)
                         (fun j st =>
                            let* length := store st.2 j j in
                            let* column := store st.1 j j in
                            Next (column, length))
                         (column, length) in
            let* st := for_each (seqZ 1 len1) (nlevenshtein_row seq1 seq2 len2) st in
            let* fdist := load m st.1 len2 in
            let* flen := load m st.2 len2 in
            Next (fdiv fdist flen)
        end
    end).

(** ** hamming.c *)

Definition hamming (seq1 seq2 : list T) (len0 : Z) : result Z :=
  finish (
    for_each (seqZ 0 len0)
      (fun i dist =>
         let* x := item seq1 i in
         let* y := item seq2 i in
         let comp := SEQUENCE_COMP x y in
         let* _ := return_if (comp =? -1) (-1) in
         Next (if comp =? 0 then dist + 1 else dist))
      0).

(** ** fastcomp.c *)

(** The [while (i < len1 && j < len2)] walk under the model string
    [model]; it ends with the final [i], [j] and [c]. *)
Fixpoint fastcomp_walk (fuel : nat) (seq1 seq2 : list T) (len1 len2 : Z)
    (transpositions : bool) (ldiff : Z) (model : list ascii) (i j c : Z)
    : outcome Z (Z * Z * Z) :=
  match fuel with
  | O => Crash OutOfFuel
  | S fuel' =>
      let again := fastcomp_walk fuel' seq1 seq2 len1 len2 transpositions ldiff model in
      if (i <? len1) && (j <? len2) then
        let* x := item seq1 i in
        let* y := item seq2 j in
        let comp := SEQUENCE_COMP x y in
        let* _ := return_if (comp =? -1) (-2) in
        if comp =? 0 then
          let c := c + 1 in
          if c >? 2 then Next (i, j, c)
          else
            let* transposed :=
              if transpositions && negb (ldiff =? 2)
                 && (i <? len1 - 1) && (j <? len2 - 1) then
                let* x1 := item seq1 (i + 1) in
                let comp := SEQUENCE_COMP x1 y in
                let* _ := return_if (comp =? -1) (-2) in
                if negb (comp =? 0) then
                  let* y1 := item seq2 (j + 1) in
                  let comp := SEQUENCE_COMP x y1 in
                  let* _ := return_if (comp =? -1) (-2) in
                  Next (negb (comp =? 0))
                else Next false
              else Next false in
            if transposed then again (i + 2) (j + 2) c
            else
              let* op := item model (c - 1) in
              if bool_decide (op = "d"%char) then again (i + 1) j c
              else if bool_decide (op = "i"%char) then again i (j + 1) c
              else again (i + 1) (j + 1) c
        else again (i + 1) (j + 1) c
      else Next (i, j, c)
  end.

(** [(ch == 'd')] as a C integer. *)
Definition is_char (ch want : ascii) : Z := if bool_decide (ch = want) then 1 else 0.

(** What follows the [while] loop in the body of [for (; m >= 0; m--)]:
    the count [c] this model ends with, or [None] where the body says
    [continue]. *)
Definition fastcomp_tail (len1 len2 : Z) (model : list ascii) (w : Z * Z * Z)
    : outcome Z (option Z) :=
  let '(i, j, c) := w in
  if c >? 2 then Next None
  else if i <? len1 then
    let* cnt :=
      if c =? 1 then
        let* m1 := item model 1 in Next (is_char m1 "d")
      else
        let* m0 := item model 0 in
        let* m1 := item model 1 in
        Next (is_char m0 "d" + is_char m1 "d") in
    if len1 - i <=? cnt then Next (Some (c + (len1 - i))) else Next None
  else if j <? len2 then
    let* mc := item model c in
    if len2 - j <=? is_char mc "i" then Next (Some (c + (len2 - j)))
    else Next None
  else Next (Some c).

(** The body of [for (; m >= 0; m--)]: it yields the new [res]. *)
Definition fastcomp_model (seq1 seq2 : list T) (len1 len2 : Z)
    (transpositions : bool) (ldiff : Z) (models : list (list ascii))
    (mi : Z) (res : Z) : outcome Z Z :=
  let* model := item models mi in
  let* w := fastcomp_walk (Z.to_nat (len1 + len2) + 1) seq1 seq2 len1 len2
              transpositions ldiff model 0 0 0 in
  let* oc := fastcomp_tail len1 len2 model w in
  match oc with
  | None => Next res
  | Some c => Next (if c <? res then c else res)
  end.

(** The function from [ldiff] on, once the operands are ordered. *)
Definition fastcomp_ordered (seq1 seq2 : list T) (len1 len2 : Z)
    (transpositions : bool) : outcome Z Z :=
  let ldiff := len1 - len2 in
  let* sw :=
    if ldiff =? 0 then Next ([cstr "rr"; cstr "di"; cstr "id"], 2)
    else if ldiff =? 1 then Next ([cstr "rd"; cstr "dr"], 1)
    else if ldiff =? 2 then Next ([cstr "dd"], 0)
    else Return (-1) in
  let '(models, m0) := sw in
  let* res := for_each (rev (seqZ 0 (m0 + 1)))
                (fastcomp_model seq1 seq2 len1 len2 transpositions ldiff models) 3 in
  Next (if res =? 3 then -1 else res).

Definition fastcomp (seq1 seq2 : list T) (transpositions : bool) : result Z :=
  finish (
    let len1 := len seq1 in
    let len2 := len seq2 in
    let '(seq1, seq2, len1, len2) :=
      if len1 <? len2 then (seq2, seq1, len2, len1) else (seq1, seq2, len1, len2) in
    fastcomp_ordered seq1 seq2 len1 len2 transpositions).

(** ** lcsubstrings.c *)

(** The body of the inner [for]. The state is [column], [last], [mlen]
    and the stack of positions, oldest first. A [goto On_Error] returns
    [None], the [NULL] stack, and leaves the caller's [*max_len] alone. *)
Definition lcsubstrings_cell (seq1 seq2 : list T) (max_len0 : Z) (i j : Z)
    (st : list Z * Z * Z * list (Z * Z))
    : outcome (option (list (Z * Z)) * Z) (list Z * Z * Z * list (Z * Z)) :=
  let '(column, last, mlen, stack) := st in
  let* old := load m column j in
  let* x := item seq1 i in
  let* y := item seq2 j in
  let comp := SEQUENCE_COMP x y in
  let* _ := return_if (comp =? -1) (None, max_len0) in
  let* st' :=
    if negb (comp =? 0) then
      let* column := store column j (if (i =? 0) || (j =? 0) then 1 else last + 1) in
      let* cur := load m column j in
      if cur >? mlen then Next (column, cur, [(i, j)])
      else if cur =? mlen then Next (column, mlen, stack ++ [(i, j)])
      else Next (column, mlen, stack)
    else
      let* column := store column j 0 in
      Next (column, mlen, stack) in
  let '(column, mlen, stack) := st' in
  Next (column, old, mlen, stack).

Definition lcsubstrings (seq1 seq2 : list T) (max_len0 : Z)
    : result (option (list (Z * Z)) * Z) :=
  finish (
    let len1 := len seq1 in
    let len2 := len seq2 in
    let mlen := -1 in
    let* _ := assert (len1 >=? len2) in
    let stack := [] in
    let* _ := return_if (len2 =? 0) (Some stack, 0) in
    match malloc m 0 (len2 + 1) with
    | None => Return (None, max_len0)
    | Some column =>
        let last := 0 in
        let* column := for_each (seqZ 0 len2) (fun j c => store c j j) column in
        let* st := for_each (seqZ 0 len1)
                     (fun i st =>
                        for_each (seqZ 0 len2) (lcsubstrings_cell seq1 seq2 max_len0 i) st)
                     (column, last, mlen, stack) in
        let '(_, _, mlen, stack) := st in
        Next (Some stack, mlen)
    end).

(** ** distance.c: the entry points *)

Definition hamming_py (seq1 seq2 : list T) (do_normalize : bool) : py number :=
  let len1 := len seq1 in
  let len2 := len seq2 in
  if negb (len1 =? len2) then Raise LengthMismatch
  else
    match hamming seq1 seq2 len1 with
    | Fault f => Halt f
    | Value dist =>
        if dist =? -1 then Raise ComparisonFailed
        else if do_normalize then
          if len1 =? 0 then Ok (PyFloat (Real 0))
          else Ok (PyFloat (fdiv dist len1))
        else Ok (PyLong dist)
    end.

(** [PySequence_GetSlice(s, lo, hi)] for indices inside the sequence. *)
Definition slice (s : list T) (lo hi : Z) : list T :=
  take (Z.to_nat (hi - lo)) (drop (Z.to_nat lo) s).

(** The slices handed to [PySet_Add], in order. *)
Definition lcsubstrings_py_make_set (arg1 arg2 : list T) (stack : list (Z * Z))
    (mlen : Z) : list (list T) :=
  (fun pair : Z * Z => slice arg2 (pair.2 - mlen + 1) (pair.2 + 1)) <$> stack.

Definition lcsubstrings_py_make_tuple (arg1 arg2 : list T) (stack : list (Z * Z))
    (mlen : Z) : Z * list (Z * Z) :=
  (mlen, (fun pair : Z * Z => (pair.1 - mlen + 1, pair.2 - mlen + 1)) <$> stack).

Definition lcsubstrings_py (arg1 arg2 : list T) (positions : bool) : py (lcs_value T) :=
  let seq1 := arg1 in
  let seq2 := arg2 in
  let len1 := len seq1 in
  let len2 := len seq2 in
  let mlen := -1 in
  let '(arg1, arg2, seq1, seq2, len1, len2) :=
    if len1 <? len2 then (arg2, arg1, seq2, seq1, len2, len1)
    else (arg1, arg2, seq1, seq2, len1, len2) in
  match lcsubstrings seq1 seq2 mlen with
  | Fault f => Halt f
  | Value (None, _) => Raise OutOfMemory
  | Value (Some stack, mlen) =>
      if positions then
        let tp := lcsubstrings_py_make_tuple arg1 arg2 stack mlen in
        Ok (Positions tp.1 tp.2)
      else Ok (Substrings (lcsubstrings_py_make_set arg1 arg2 stack mlen))
  end.

(** [dist < 0] and [dist == -1] on a [double]; both are false on a
    value that is not finite. *)
Definition fnegative (d : double) : bool :=
  match d with Real q => negb (Qle_bool 0 q) | NotFinite => false end.
Definition fequal (d : double) (q : Q) : bool :=
  match d with Real q' => Qeq_bool q' q | NotFinite => false end.

Definition nlevenshtein_py (seq1 seq2 : list T) (method : Z) : py number :=
  if negb (method =? 1) && negb (method =? 2) then Raise InvalidArgument
  else
    let len1 := len seq1 in
    let len2 := len seq2 in
    let '(seq1, seq2, len1, len2) :=
      if len1 <? len2 then (seq2, seq1, len2, len1) else (seq1, seq2, len1, len2) in
    match nlevenshtein seq1 seq2 method with
    | Fault f => Halt f
    | Value dist =>
        if fnegative dist then
          if fequal dist (-1) then Raise OutOfMemory
          else Raise ComparisonFailed
        else Ok (PyFloat dist)
    end.

(** [normalized] sends the call to [nlevenshtein_py] with the positional
    arguments only: [method] takes its default and [max_dist] is dropped. *)
Definition levenshtein_py (seq1 seq2 : list T) (normalized : bool) (max_dist : Z)
    : py number :=
  if normalized then nlevenshtein_py seq1 seq2 1
  else
    match levenshtein seq1 seq2 max_dist with
    | Fault f => Halt f
    | Value dist =>
        if dist <? -1 then
          if dist =? -2 then Raise OutOfMemory
          else Raise ComparisonFailed
        else Ok (PyLong dist)
    end.

Definition fastcomp_py (seq1 seq2 : list T) (transpositions : bool) : py number :=
  let len1 := len seq1 in
  let len2 := len seq2 in
  let '(seq1, seq2, len1, len2) :=
    if len1 <? len2 then (seq2, seq1, len2, len1) else (seq1, seq2, len1, len2) in
  match fastcomp seq1 seq2 transpositions with
  | Fault f => Halt f
  | Value dist =>
      if dist =? -2 then Raise ComparisonFailed
      else Ok (PyLong dist)
  end.

(** *** The iterators *)

(** [ilevenshtein_next]: the [while] loop pulls candidates from the
    iterator until one is within the bound, one fails, or none is left. *)
Fixpoint ilevenshtein_pull (seq1 : list T) (max_dist : Z) (itor : list (list T))
    : step (Z * list T) * list (list T) :=
  match itor with
  | [] => (StopIteration, [])
  | arg2 :: itor' =>
      match levenshtein seq1 arg2 max_dist with
      | Fault f => (Halted f, itor')
      | Value dist =>
          if dist <? -1 then
            if dist =? -2 then (Raised OutOfMemory, itor')
            else (Raised ComparisonFailed, itor')
          else if negb (dist =? -1) then (Yield (dist, arg2), itor')
          else ilevenshtein_pull seq1 max_dist itor'
      end
  end.

Definition ilevenshtein_next (state : ItorState T)
    : step (Z * list T) * ItorState T :=
  let r := ilevenshtein_pull (seq1 state) (max_dist state) (itor state) in
  (r.1, {| itor := r.2; seq1 := seq1 state;
           transpos := transpos state; max_dist := max_dist state |}).

Fixpoint ifastcomp_pull (seq1 : list T) (transpos : bool) (itor : list (list T))
    : step (Z * list T) * list (list T) :=
  match itor with
  | [] => (StopIteration, [])
  | arg2 :: itor' =>
      match fastcomp seq1 arg2 transpos with
      | Fault f => (Halted f, itor')
      | Value dist =>
          if dist =? -2 then (Raised ComparisonFailed, itor')
          else if negb (dist =? -1) then (Yield (dist, arg2), itor')
          else ifastcomp_pull seq1 transpos itor'
      end
  end.

Definition ifastcomp_next (state : ItorState T)
    : step (Z * list T) * ItorState T :=
  let r := ifastcomp_pull (seq1 state) (transpos state) (itor state) in
  (r.1, {| itor := r.2; seq1 := seq1 state;
           transpos := transpos state; max_dist := max_dist state |}).
End Engine.

(** The oracle of the code-point and byte instances: [seq1[i] == seq2[j]]. *)
Definition native {T} `{EqDecision T} (x y : T) : Z :=
  if decide (x = y) then 1 else 0.

Definition chars (s : string) : list ascii := list_ascii_of_string s.

(** ** Reference notions *)

Section Reference.
Context {T : Type} `{EqDecision T}.

(** Edit scripts: [edits a b n] holds when [a] is turned into [b] by a
    left-to-right script that keeps equal elements for free and pays one
    unit for each substitution, deletion and insertion. *)
Inductive edits : list T -> list T -> nat -> Prop :=
| edits_nil : edits [] [] 0
| edits_keep x a b n : edits a b n -> edits (x :: a) (x :: b) n
| edits_subst x y a b n : edits a b n -> edits (x :: a) (y :: b) (S n)
| edits_delete x a b n : edits a b n -> edits (x :: a) b (S n)
| edits_insert y a b n : edits a b n -> edits a (y :: b) (S n).

(** The cost of aligning [x] with [y]. *)
Definition mismatch (x y : T) : nat := if decide (x = y) then 0%nat else 1%nat.

(** The edit distance, by the textbook recurrence. *)
Fixpoint lev (a : list T) : list T -> nat :=
  match a with
  | [] => fun b => length b
  | x :: a' =>
      fix lev_a (b : list T) : nat :=
        match b with
        | [] => length a
        | y :: b' =>
            Nat.min (Nat.min (S (lev a' b)) (S (lev_a b')))
                    (lev a' b' + mismatch x y)
        end
  end.

(** The Wagner-Fischer table of [seq1] and [seq2]: entry [(i, j)] is the
    distance between the first [i] elements of [seq1] and the first [j]
    of [seq2]. *)
Definition table (seq1 seq2 : list T) (i j : nat) : nat :=
  lev (rev (take i seq1)) (rev (take j seq2)).

(** The number of positions at which [a] and [b] differ. *)
Fixpoint differing (a b : list T) : nat :=
  match a, b with
  | x :: a', y :: b' => (mismatch x y + differing a' b')%nat
  | _, _ => 0%nat
  end.

(** [seq1] and [seq2] share a substring of length [n] that starts at [p]
    in [seq1] and at [q] in [seq2]. *)
Definition common (seq1 seq2 : list T) (p q n : nat) : Prop :=
  (p + n <= length seq1)%nat /\ (q + n <= length seq2)%nat /\
  take n (drop p seq1) = take n (drop q seq2).

(** The length of the longest common run that ends with [seq1[i]] and
    [seq2[j]]; [0] when the two elements differ. *)
Fixpoint run (seq1 seq2 : list T) (i j : nat) : nat :=
  match seq1 !! i, seq2 !! j with
  | Some x, Some y =>
      if decide (x = y) then
        match i, j with
        | S i', S j' => S (run seq1 seq2 i' j')
        | _, _ => 1%nat
        end
      else 0%nat
  | _, _ => 0%nat
  end.

(** The cells [(i', j')] the scan of [lcsubstrings] has visited when it
    stands at [(i, n)], in the order of the visit. *)
Definition scan (len2 i n : nat) : list (nat * nat) :=
  (i' ← seq 0 i; (fun j' => (i', j')) <$> seq 0 len2) ++ ((fun j' => (i, j')) <$> seq 0 n).

(** The longest run among the cells [cs]. *)
Definition best (seq1 seq2 : list T) (cs : list (nat * nat)) : nat :=
  foldr Nat.max 0%nat ((fun c => run seq1 seq2 c.1 c.2) <$> cs).

(** The cells of [cs] whose run is the longest, as positions. *)
Definition ties (seq1 seq2 : list T) (cs : list (nat * nat)) : list (Z * Z) :=
  (fun c => (Z.of_nat c.1, Z.of_nat c.2))
    <$> filter (fun c => run seq1 seq2 c.1 c.2 = best seq1 seq2 cs) cs.

(** [a] and [b] without their longest common prefix. *)
Fixpoint strip (a b : list T) : list T * list T :=
  match a, b with
  | x :: a', y :: b' => if decide (x = y) then strip a' b' else (a, b)
  | _, _ => (a, b)
  end.

(** The deletions among the scripted operations [ops]. *)
Definition deletions (ops : list ascii) : nat :=
  length (filter (fun o => o = "d"%char) ops).

(** Whether the next scripted operation is an insertion. *)
Definition insertion_next (ops : list ascii) : nat :=
  match ops with
  | o :: _ => if decide (o = "i"%char) then 1%nat else 0%nat
  | [] => 0%nat
  end.

(** The number of edits with which the script [ops] turns [a] into [b]
    when equal elements are matched greedily and each mismatch consumes
    the next operation; [None] when the script does not fit. *)
Fixpoint fit (ops : list ascii) (a b : list T) : option nat :=
  match strip a b with
  | ([], []) => Some 0%nat
  | (x :: a', []) =>
      if decide (length (x :: a') <= deletions ops)%nat
      then Some (length (x :: a')) else None
  | ([], y :: b') =>
      if decide (length (y :: b') <= insertion_next ops)%nat
      then Some (length (y :: b')) else None
  | (x :: a', y :: b') =>
      match ops with
      | [] => None
      | o :: ops' =>
          S <$> (if decide (o = "d"%char) then fit ops' a' (y :: b')
                 else if decide (o = "i"%char) then fit ops' (x :: a') b'
                 else fit ops' a' b')
      end
  end.
End Reference.

(** Iterating to exhaustion, as [list(it)] does: the items yielded, and
    the call of [next] that ended the iteration ([None]: the bound
    [fuel] on the number of calls was reached first). *)
Fixpoint drain {St A} (fuel : nat) (next : St -> step A * St) (s : St)
  : list A * option (step A) :=
  match fuel with
  | O => ([], None)
  | S fuel' =>
      match next s with
      | (Yield a, s') => let r := drain fuel' next s' in (a :: r.1, r.2)
      | (e, _) => ([], Some e)
      end
  end.

(** The least of [g] and the entries of [l]. *)
Definition least (g : Z) (l : list Z) : Z := foldr Z.min g l.

(** What the streams are expected to keep of a candidate [c]: the pair
    [(d, c)] when the capped call does not answer [-1], respectively when
    the comparator answers [0], [1] or [2]. *)
Definition levenshtein_kept {T} (COMP : T -> T -> Z) (m : machine)
    (ref : list T) (k : Z) (c : list T) : option (Z * list T) :=
  match levenshtein COMP m ref c k with
  | Value d => if d =? -1 then None else Some (d, c)
  | Fault _ => None
  end.

Definition fastcomp_kept {T} (COMP : T -> T -> Z) (ref : list T)
    (transpositions : bool) (c : list T) : option (Z * list T) :=
  match fastcomp COMP ref c transpositions with
  | Value d => if (0 <=? d) && (d <=? 2) then Some (d, c) else None
  | Fault _ => None
  end.

(** ** Loop invariants *)

(** What a loop body or a loop establishes: [P] of the state it falls
    through with, [Q] of the value it returns; it does not crash. *)
Definition loop_post {R St} (P : St -> Prop) (Q : R -> Prop) (c : outcome R St) : Prop :=
  match c with
  | Next st => P st
  | Return r => Q r
  | Crash _ => False
  end.

(** What a call answers for distance [d] under the cap [max_dist]. *)
Definition capped (max_dist : Z) (d : nat) : Z :=
  if (0 <=? max_dist) && (max_dist <? Z.of_nat d) then -1 else Z.of_nat d.

Section LevenshteinInvariants.
Context {T : Type} `{EqDecision T}.
Variables seq1 seq2 : list T.

(** The column while row [S i] is being filled: the first [n] cells hold
    the new row, the others still hold row [i]. *)
Definition filling (i n : nat) (st : list Z * Z) : Prop :=
  length st.1 = S (length seq2) /\
  (forall k, (k <= n)%nat -> st.1 !! k = Some (Z.of_nat (table seq1 seq2 (S i) k))) /\
  (forall k, (n < k <= length seq2)%nat ->
     st.1 !! k = Some (Z.of_nat (table seq1 seq2 i k))) /\
  st.2 = Z.of_nat (table seq1 seq2 i n).

(** The column between rows: cells [1 .. len2] hold row [i]. *)
Definition filled (i : nat) (column : list Z) : Prop :=
  length column = S (length seq2) /\
  (forall k, (0 < k <= length seq2)%nat ->
     column !! k = Some (Z.of_nat (table seq1 seq2 i k))).

(** A row either completes, or stops the call with [-1] because the cap
    is non-negative and below the least entry of the row, so below the
    distance. *)
Definition stops_early (max_dist : Z) (r : Z) : Prop :=
  r = -1 /\ 0 <= max_dist < Z.of_nat (lev seq1 seq2).

(** The two rows of method 2 while row [S i] is being filled. The distance
    row is as before; every entry of the length row is at least the
    larger of its two coordinates. *)
Definition paired (column length : list Z) (i k : nat) : Prop :=
  column !! k = Some (Z.of_nat (table seq1 seq2 i k)) /\
  exists l, length !! k = Some l /\ Z.max (Z.of_nat i) (Z.of_nat k) <= l.

Definition filling2 (i n : nat) (st : list Z * list Z * Z * Z) : Prop :=
  length st.1.1.1 = S (length seq2) /\
  length st.1.1.2 = S (length seq2) /\
  (forall k, (k <= n)%nat -> paired st.1.1.1 st.1.1.2 (S i) k) /\
  (forall k, (n < k <= length seq2)%nat -> paired st.1.1.1 st.1.1.2 i k) /\
  st.1.2 = Z.of_nat (table seq1 seq2 i n) /\
  Z.max (Z.of_nat i) (Z.of_nat n) <= st.2.

Definition filled2 (i : nat) (st : list Z * list Z) : Prop :=
  length st.1 = S (length seq2) /\
  length st.2 = S (length seq2) /\
  (forall k, (0 < k <= length seq2)%nat -> paired st.1 st.2 i k).
End LevenshteinInvariants.

Section LcsInvariants.
Context {T : Type} `{EqDecision T}.
Variables seq1 seq2 : list T.

(** [mlen] and the stack once the cells [cs] have been visited. *)
Definition tally (cs : list (nat * nat)) (mlen : Z) (stack : list (Z * Z)) : Prop :=
  if decide (best seq1 seq2 cs = 0%nat) then mlen = -1 /\ stack = []
  else mlen = Z.of_nat (best seq1 seq2 cs) /\ stack = ties seq1 seq2 cs.

(** The state of [lcsubstrings] at cell [(i, n)]: the first [n] cells of
    the column hold row [i], the others still hold the row before, and
    [last] holds the diagonal neighbour. *)
Definition lcs_filling (i n : nat) (st : list Z * Z * Z * list (Z * Z)) : Prop :=
  length st.1.1.1 = S (length seq2) /\
  (forall k, (k < n)%nat -> st.1.1.1 !! k = Some (Z.of_nat (run seq1 seq2 i k))) /\
  (forall i' k, i = S i' -> (n <= k < length seq2)%nat ->
     st.1.1.1 !! k = Some (Z.of_nat (run seq1 seq2 i' k))) /\
  (forall i' n', i = S i' -> n = S n' -> st.1.1.2 = Z.of_nat (run seq1 seq2 i' n')) /\
  tally (scan (length seq2) i n) st.1.2 st.2.
End LcsInvariants.

(** What a model contributes to [res], which starts at [3]: its count if
    below [3]. *)
Definition score (oc : option Z) : Z :=
  match oc with
  | Some n => Z.min n 3
  | None => 3
  end.

(** ** Oracles that can fail *)

(** The oracle raises on some pair of elements at one position of [a]
    and [b]. *)
Fixpoint fails_aligned {T} (COMP : T -> T -> Z) (a b : list T) : bool :=
  match a, b with
  | x :: a', y :: b' => (COMP x y =? -1) || fails_aligned COMP a' b'
  | _, _ => false
  end.

(** The number of positions at which the oracle answers [0]. *)
Fixpoint answered_different {T} (COMP : T -> T -> Z) (a b : list T) : nat :=
  match a, b with
  | x :: a', y :: b' =>
      ((if (COMP x y =? 0)%Z then 1 else 0) + answered_different COMP a' b')%nat
  | _, _ => 0%nat
  end.

(** The oracle raises on some element of [a] paired with some element
    of [b]. *)
Definition fails_anywhere {T} (COMP : T -> T -> Z) (a b : list T) : bool :=
  existsb (fun x => existsb (fun y => COMP x y =? -1) b) a.

(** An oracle on integers that raises whenever its first operand is
    [bad], and compares as [native] otherwise. *)
Definition refusing (bad : Z) (x y : Z) : Z :=
  if x =? bad then -1 else native x y.

(** The operands in the order in which the engine works on them: the
    longer one first. *)
Definition ordered {T} (A B : list T) : list T * list T :=
  if len A <? len B then (B, A) else (A, B).

Section AnyOracleInvariants.
Context {T : Type}.
Variable COMP : T -> T -> Z.
Variables seq1 seq2 : list T.

(** The oracle has answered every comparison of the first [i] elements
    of [seq1] with the elements of [seq2]. *)
Definition quiet_rows (i : nat) : Prop :=
  forall i' j x y, (i' < i)%nat ->
    seq1 !! i' = Some x -> seq2 !! j = Some y -> COMP x y <> -1.

(** The same, and also those of [seq1[i]] with the first [n] elements of
    [seq2]. *)
Definition quiet_cells (i n : nat) : Prop :=
  quiet_rows i /\
  forall j x y, (j < n)%nat ->
    seq1 !! i = Some x -> seq2 !! j = Some y -> COMP x y <> -1.

(** What any oracle leaves true of the entry [v] at row [i] and column
    [k]: it lies between the difference and the larger of [i] and [k]. *)
Definition within (i k : nat) (v : Z) : Prop :=
  Z.abs (Z.of_nat i - Z.of_nat k) <= v <= Z.max (Z.of_nat i) (Z.of_nat k).

(** The column of [levenshtein] while row [S i] is being filled. *)
Definition bounded_filling (i n : nat) (st : list Z * Z) : Prop :=
  length st.1 = S (length seq2) /\
  (forall k, (k <= n)%nat -> exists v, st.1 !! k = Some v /\ within (S i) k v) /\
  (forall k, (n < k <= length seq2)%nat ->
     exists v, st.1 !! k = Some v /\ within i k v) /\
  within i n st.2 /\
  quiet_cells i n.

(** The column between rows. *)
Definition bounded_filled (i : nat) (column : list Z) : Prop :=
  length column = S (length seq2) /\
  (forall k, (0 < k <= length seq2)%nat ->
     exists v, column !! k = Some v /\ within i k v) /\
  quiet_rows i.

(** The two rows of method 2 against any oracle: the distance entry is
    [within] its bounds and the length entry is at least the larger of
    the two coordinates. *)
Definition bounded_pair (column length : list Z) (i k : nat) : Prop :=
  exists v l, column !! k = Some v /\ length !! k = Some l /\
    within i k v /\ Z.max (Z.of_nat i) (Z.of_nat k) <= l.

Definition bounded_filling2 (i n : nat) (st : list Z * list Z * Z * Z) : Prop :=
  length st.1.1.1 = S (length seq2) /\
  length st.1.1.2 = S (length seq2) /\
  (forall k, (k <= n)%nat -> bounded_pair st.1.1.1 st.1.1.2 (S i) k) /\
  (forall k, (n < k <= length seq2)%nat -> bounded_pair st.1.1.1 st.1.1.2 i k) /\
  within i n st.1.2 /\
  Z.max (Z.of_nat i) (Z.of_nat n) <= st.2 /\
  quiet_cells i n.

Definition bounded_filled2 (i : nat) (st : list Z * list Z) : Prop :=
  length st.1 = S (length seq2) /\
  length st.2 = S (length seq2) /\
  (forall k, (0 < k <= length seq2)%nat -> bounded_pair st.1 st.2 i k) /\
  quiet_rows i.

(** A comparison raised, and the call stops with the code [code]. *)
Definition stopped_by_oracle {R} (code : R) (r : R) : Prop :=
  r = code /\ fails_anywhere COMP seq1 seq2 = true.
End AnyOracleInvariants.

(** ** Alignments *)

Section Alignments.
Context {T : Type} `{EqDecision T}.

(** [aligned a b n l] holds when [a] is turned into [b] by an alignment
    of [l] columns, each of them a kept element, a substitution, a
    deletion or an insertion, of which the [n] that are not kept are
    paid for. *)
Inductive aligned : list T -> list T -> nat -> nat -> Prop :=
| aligned_nil : aligned [] [] 0 0
| aligned_keep x a b n l : aligned a b n l -> aligned (x :: a) (x :: b) n (S l)
| aligned_subst x y a b n l :
    x <> y -> aligned a b n l -> aligned (x :: a) (y :: b) (S n) (S l)
| aligned_delete x a b n l : aligned a b n l -> aligned (x :: a) b (S n) (S l)
| aligned_insert y a b n l : aligned a b n l -> aligned a (y :: b) (S n) (S l).

(** [l] is the greatest number of columns of an alignment of [a] and
    [b] that costs no more than the edit distance. *)
Definition longest_alignment (a b : list T) (l : nat) : Prop :=
  aligned a b (lev a b) l /\ forall l', aligned a b (lev a b) l' -> (l' <= l)%nat.
End Alignments.

Section NormalizedInvariants.
Context {T : Type} `{EqDecision T}.
Variables seq1 seq2 : list T.

(** The two rows of method 2, exactly: the distance row holds the
    Wagner-Fischer table and the length row the longest alignment of the
    same prefixes at that cost. *)
Definition paired_exact (column length : list Z) (i k : nat) : Prop :=
  column !! k = Some (Z.of_nat (table seq1 seq2 i k)) /\
  exists l : nat, length !! k = Some (Z.of_nat l) /\
    longest_alignment (rev (take i seq1)) (rev (take k seq2)) l.

Definition filling_exact (i n : nat) (st : list Z * list Z * Z * Z) : Prop :=
  length st.1.1.1 = S (length seq2) /\
  length st.1.1.2 = S (length seq2) /\
  (forall k, (k <= n)%nat -> paired_exact st.1.1.1 st.1.1.2 (S i) k) /\
  (forall k, (n < k <= length seq2)%nat -> paired_exact st.1.1.1 st.1.1.2 i k) /\
  st.1.2 = Z.of_nat (table seq1 seq2 i n) /\
  exists l : nat, st.2 = Z.of_nat l /\
    longest_alignment (rev (take i seq1)) (rev (take n seq2)) l.

Definition filled_exact (i : nat) (st : list Z * list Z) : Prop :=
  length st.1 = S (length seq2) /\
  length st.2 = S (length seq2) /\
  (forall k, (0 < k <= length seq2)%nat -> paired_exact st.1 st.2 i k).
End NormalizedInvariants.

(** ** Scripts with transpositions *)

Section Transpositions.
Context {T : Type}.

(** Edit scripts that may also exchange two adjacent elements for one
    unit. *)
Inductive tedits : list T -> list T -> nat -> Prop :=
| tedits_nil : tedits [] [] 0
| tedits_keep x a b n : tedits a b n -> tedits (x :: a) (x :: b) n
| tedits_subst x y a b n : tedits a b n -> tedits (x :: a) (y :: b) (S n)
| tedits_delete x a b n : tedits a b n -> tedits (x :: a) b (S n)
| tedits_insert y a b n : tedits a b n -> tedits a (y :: b) (S n)
| tedits_swap x y a b n : tedits a b n -> tedits (x :: y :: a) (y :: x :: b) (S n).
End Transpositions.

(** * Properties *)

(** Turns the boolean comparisons among the hypotheses into
    propositions for [lia]. *)
Ltac zbool :=
  repeat match goal with
  | H : (_ >=? _) = _ |- _ => rewrite Z.geb_leb in H
  | H : (_ >? _) = _ |- _ => rewrite Z.gtb_ltb in H
  | H : (_ && _) = true |- _ => apply andb_true_iff in H as [? ?]
  | H : (_ || _) = false |- _ => apply orb_false_iff in H as [? ?]
  | H : negb _ = true |- _ => apply negb_true_iff in H
  | H : negb _ = false |- _ => apply negb_false_iff in H
  | H : (_ <=? _) = true |- _ => apply Z.leb_le in H
  | H : (_ <=? _) = false |- _ => apply Z.leb_gt in H
  | H : (_ <? _) = true |- _ => apply Z.ltb_lt in H
  | H : (_ <? _) = false |- _ => apply Z.ltb_ge in H
  | H : (_ =? _) = true |- _ => apply Z.eqb_eq in H
  | H : (_ =? _) = false |- _ => apply Z.eqb_neq in H
  end.

(** Decides the boolean comparison [b] of the goal by [lia]. *)
Ltac decide_test b :=
  let E := fresh "E" in
  destruct b eqn:E; zbool; try lia.

(** ** Arrays and loops *)

Lemma in_block_true {A} (a : list A) (k : Z) :
  in_block a k = true <-> 0 <= k < len a.
Proof. unfold in_block. rewrite andb_true_iff, Z.leb_le, Z.ltb_lt. tauto. Qed.

Lemma in_block_false {A} (a : list A) (k : Z) :
  in_block a k = false <-> k < 0 \/ len a <= k.
Proof.
  unfold in_block. rewrite andb_false_iff, Z.leb_gt, Z.ltb_ge. tauto.
Qed.

Lemma load_inside {R} (m : machine) (a : list Z) (n : nat) (v : Z) :
  a !! n = Some v -> load (R := R) m a (Z.of_nat n) = Next v.
Proof.
  intros Hv. unfold load.
  assert (Hin : in_block a (Z.of_nat n) = true).
  { apply in_block_true. apply lookup_lt_Some in Hv. unfold len. lia. }
  rewrite Hin, Nat2Z.id, Hv. reflexivity.
Qed.

Lemma load_before {R} (m : machine) (a : list Z) (k : Z) :
  k < 0 ->
  load (R := R) m a k =
  match stray m k with Some v => Next v | None => Crash (OutOfBounds k) end.
Proof.
  intros Hk. unfold load.
  assert (Hout : in_block a k = false) by (apply in_block_false; lia).
  rewrite Hout. reflexivity.
Qed.

Lemma store_inside {R} (a : list Z) (n : nat) (v : Z) :
  (n < length a)%nat -> store (R := R) a (Z.of_nat n) v = Next (<[n := v]> a).
Proof.
  intros Hn. unfold store.
  assert (Hin : in_block a (Z.of_nat n) = true).
  { apply in_block_true. unfold len. lia. }
  rewrite Hin, Nat2Z.id. reflexivity.
Qed.

Lemma item_inside {R T} (s : list T) (n : nat) (x : T) :
  s !! n = Some x -> item (R := R) s (Z.of_nat n) = Next x.
Proof.
  intros Hx. unfold item.
  assert (Hin : in_block s (Z.of_nat n) = true).
  { apply in_block_true. apply lookup_lt_Some in Hx. unfold len. lia. }
  rewrite Hin, Nat2Z.id, Hx. reflexivity.
Qed.

Lemma for_each_app {R St} (ks1 ks2 : list Z) (body : Z -> St -> outcome R St) (s : St) :
  for_each (ks1 ++ ks2) body s =
  let* s' := for_each ks1 body s in for_each ks2 body s'.
Proof.
  revert s. induction ks1 as [|k ks1 IH]; intros s; simpl; [reflexivity|].
  destruct (body k s); simpl; auto.
Qed.

Lemma for_each_first {R St} (k n : Z) (body : Z -> St -> outcome R St) (s : St) :
  0 < n ->
  for_each (seqZ k n) body s =
  let* s' := body k s in for_each (seqZ (Z.succ k) (Z.pred n)) body s'.
Proof. intros Hn. by rewrite seqZ_cons. Qed.

(** The loop rule: if [body] at index [k0 + n] takes a state in [P n]
    to one in [P (S n)], or returns a value in [Q], then the loop over
    [k0 .. k0 + count - 1] takes [P 0] to [P count], or returns a value in
    [Q]; it never crashes. *)
Lemma for_each_rule {R St} (P : nat -> St -> Prop) (Q : R -> Prop) (k0 : Z)
    (count : nat) (body : Z -> St -> outcome R St) (s : St) :
  P O s ->
  (forall n st, (n < count)%nat -> P n st ->
     loop_post (P (S n)) Q (body (k0 + Z.of_nat n) st)) ->
  loop_post (P count) Q (for_each (seqZ k0 (Z.of_nat count)) body s).
Proof.
  revert s. induction count as [|count IH]; intros s H0 Hstep.
  - exact H0.
  - rewrite seqZ_S, for_each_app.
    assert (H1 : loop_post (P count) Q (for_each (seqZ k0 (Z.of_nat count)) body s)).
    { apply IH; [exact H0|]. intros n st Hn. apply Hstep. lia. }
    destruct (for_each (seqZ k0 (Z.of_nat count)) body s) as [s1|r|f];
      simpl in *; [|exact H1|exact H1].
    specialize (Hstep count s1 (Nat.lt_succ_diag_r count) H1).
    destruct (body (k0 + Z.of_nat count) s1); simpl in *; auto.
Qed.

(** Instantiates the loop rule at the first loop of the goal. *)
Ltac loop_rule P Q k0 count H :=
  match goal with
  | |- context [for_each _ ?body ?s] =>
      pose proof (for_each_rule P Q k0 count body s) as H
  end.

Lemma loop_post_next {R St} (P : St -> Prop) (c : outcome R St) :
  loop_post P (fun _ => False) c -> exists st, c = Next st /\ P st.
Proof. destruct c; simpl; [eauto | tauto | tauto]. Qed.

(** ** The row-minimum helper *)

Lemma least_le_entry (g : Z) (l : list Z) (n : nat) (v : Z) :
  l !! n = Some v -> least g l <= v.
Proof.
  revert n. induction l as [|a l IH]; intros [|n] Hv; simplify_eq/=; [lia|].
  specialize (IH _ Hv). lia.
Qed.

Lemma least_snoc (g : Z) (l : list Z) (v : Z) :
  least g (l ++ [v]) = least (Z.min v g) l.
Proof. unfold least. rewrite foldr_app. reflexivity. Qed.

(** From [len = n] down, the scan folds the first [n] entries into [min]
    and then loads [column[-1]]. *)
Lemma minimum_loop_scan (m : machine) (column : list Z) (n : nat) :
  forall (fuel : nat) (min : Z),
  (n <= length column)%nat -> (n + 2 <= fuel)%nat ->
  minimum_loop fuel m column (Z.of_nat n) min =
  match stray m (-1) with
  | Some g => Next (least (Z.min g min) (take n column))
  | None => Crash (OutOfBounds (-1))
  end.
Proof.
  induction n as [|n IH]; intros fuel min Hn Hfuel.
  - destruct fuel as [|[|fuel]]; [lia | lia |]. cbn [minimum_loop take].
    change (Z.of_nat 0 >=? 0) with true. change (Z.of_nat 0 - 1) with (-1).
    change (-1 >=? 0) with false. cbv iota.
    rewrite (load_before (R := Z)) by lia.
    destruct (stray m (-1)) as [g|]; cbn [bind]; [|reflexivity].
    rewrite take_0. cbn [least foldr]. f_equal.
    destruct (g <? min) eqn:E; [apply Z.ltb_lt in E | apply Z.ltb_ge in E]; lia.
  - destruct fuel as [|fuel]; [lia|]. cbn [minimum_loop].
    replace (Z.of_nat (S n) >=? 0) with true by (symmetry; apply Z.geb_le; lia).
    replace (Z.of_nat (S n) - 1) with (Z.of_nat n) by lia.
    destruct (lookup_lt_is_Some_2 column n) as [v Hv]; [lia|].
    rewrite (load_inside (R := Z) m column n v Hv). simpl.
    rewrite IH by lia.
    destruct (stray m (-1)) as [g|]; [|reflexivity].
    f_equal. rewrite (take_S_r _ _ _ Hv), least_snoc. f_equal.
    destruct (v <? min) eqn:E; [apply Z.ltb_lt in E | apply Z.ltb_ge in E]; lia.
Qed.

(** What [minimum] computes on a whole block: where the word in front of
    the block is readable the scan folds it into the result; where it is
    not, the scan traps on it. *)
Lemma minimum_spec (m : machine) (column : list Z) :
  column <> [] ->
  minimum m column (len column) =
  match stray m (-1) with
  | Some g => Value (least g column)
  | None => Fault (OutOfBounds (-1))
  end.
Proof.
  intros Hne. unfold minimum.
  destruct (length column) as [|n] eqn:Hlen.
  { destruct column; [congruence | discriminate]. }
  unfold len. rewrite Hlen.
  replace (Z.of_nat (S n) >? 0) with true by (symmetry; apply Z.gtb_lt; lia).
  simpl assert. cbn [bind].
  replace (Z.of_nat (S n) - 1) with (Z.of_nat n) by lia.
  destruct (lookup_lt_is_Some_2 column n) as [v Hv]; [lia|].
  rewrite (load_inside (R := Z) m column n v Hv). cbn [bind].
  rewrite minimum_loop_scan by lia.
  destruct (stray m (-1)) as [g|]; [|reflexivity]. simpl. f_equal.
  rewrite Z.min_comm, <- least_snoc, <- (take_S_r _ _ _ Hv).
  rewrite take_ge by lia. reflexivity.
Qed.

(** C10 (the claim fails on the code): under bounds-checked execution the
    row-minimum scan of every non-empty block stops on a load at index
    [-1]. After [min = column[--len]] the loop [while (len-- >= 0)] still
    runs its body when [len] is [0], and the body then reads
    [column[-1]]. *)
Theorem minimum_reads_before_block (x : Z) (column : list Z) :
  minimum checked (x :: column) (len (x :: column)) = Fault (OutOfBounds (-1)).
Proof. rewrite minimum_spec by discriminate. reflexivity. Qed.

(** ** The edit distance *)

Section EditDistance.
Context {T : Type} `{EqDecision T}.
Implicit Types a b : list T.

Lemma lev_nil_l b : lev [] b = length b.
Proof. reflexivity. Qed.

Lemma lev_nil_r a : lev a [] = length a.
Proof. destruct a; reflexivity. Qed.

Lemma lev_cons x y a b :
  lev (x :: a) (y :: b) =
  Nat.min (Nat.min (S (lev a (y :: b))) (S (lev (x :: a) b)))
          (lev a b + mismatch x y).
Proof. reflexivity. Qed.

(** No script is cheaper than [lev]. *)
Lemma lev_le_edits a b n : edits a b n -> (lev a b <= n)%nat.
Proof.
  induction 1 as [|x a b n _ IH|x y a b n _ IH|x a b n _ IH|y a b n _ IH].
  - rewrite lev_nil_l. simpl. lia.
  - rewrite lev_cons. unfold mismatch. rewrite decide_True by reflexivity. lia.
  - rewrite lev_cons. unfold mismatch. destruct (decide (x = y)); lia.
  - destruct b as [|y b].
    + rewrite lev_nil_r in *. simpl. lia.
    + rewrite lev_cons. lia.
  - destruct a as [|x a].
    + rewrite lev_nil_l in *. simpl. lia.
    + rewrite lev_cons. lia.
Qed.

Lemma edits_delete_all a : edits a [] (length a).
Proof. induction a; simpl; [constructor | by apply edits_delete]. Qed.

Lemma edits_insert_all b : edits [] b (length b).
Proof. induction b; simpl; [constructor | by apply edits_insert]. Qed.

(** Some script costs [lev]. *)
Lemma edits_lev a b : edits a b (lev a b).
Proof.
  revert b. induction a as [|x a IHa]; intros b.
  - rewrite lev_nil_l. apply edits_insert_all.
  - induction b as [|y b IHb].
    + rewrite lev_nil_r. apply edits_delete_all.
    + rewrite lev_cons.
      destruct (Nat.min_spec (Nat.min (S (lev a (y :: b))) (S (lev (x :: a) b)))
                  (lev a b + mismatch x y)) as [[_ ->]|[_ ->]].
      * destruct (Nat.min_spec (S (lev a (y :: b))) (S (lev (x :: a) b)))
          as [[_ ->]|[_ ->]].
        -- apply edits_delete, IHa.
        -- apply edits_insert, IHb.
      * unfold mismatch. destruct (decide (x = y)) as [->|_].
        -- rewrite Nat.add_0_r. apply edits_keep, IHa.
        -- rewrite Nat.add_1_r. apply edits_subst, IHa.
Qed.

(** [lev a b] is the cost of the cheapest edit script from [a] to [b]. *)
Lemma lev_least_edits a b :
  edits a b (lev a b) /\ forall n, edits a b n -> (lev a b <= n)%nat.
Proof. split; [apply edits_lev | apply lev_le_edits]. Qed.

Lemma edits_sym a b n : edits a b n -> edits b a n.
Proof. induction 1; by constructor. Qed.

Lemma lev_sym a b : lev a b = lev b a.
Proof.
  apply Nat.le_antisymm; apply lev_le_edits, edits_sym, edits_lev.
Qed.

Lemma edits_app a b n c d k :
  edits a b n -> edits c d k -> edits (a ++ c) (b ++ d) (n + k).
Proof. induction 1; intros Hcd; simpl; [done | by constructor; auto ..]. Qed.

Lemma edits_rev a b n : edits a b n -> edits (rev a) (rev b) n.
Proof.
  induction 1 as [|x a b n _ IH|x y a b n _ IH|x a b n _ IH|y a b n _ IH]; simpl.
  - constructor.
  - replace n with (n + 0)%nat by lia. apply edits_app; [done|].
    apply edits_keep, edits_nil.
  - replace (S n) with (n + 1)%nat by lia. apply edits_app; [done|].
    apply edits_subst, edits_nil.
  - replace (S n) with (n + 1)%nat by lia.
    rewrite <- (app_nil_r (rev b)). apply edits_app; [done|].
    apply edits_delete, edits_nil.
  - replace (S n) with (n + 1)%nat by lia.
    rewrite <- (app_nil_r (rev a)). apply edits_app; [done|].
    apply edits_insert, edits_nil.
Qed.

Lemma lev_rev a b : lev (rev a) (rev b) = lev a b.
Proof.
  apply Nat.le_antisymm.
  - apply lev_le_edits, edits_rev, edits_lev.
  - rewrite <- (rev_involutive a), <- (rev_involutive b) at 1.
    apply lev_le_edits, edits_rev, edits_lev.
Qed.

Lemma edits_refl a : edits a a 0.
Proof. induction a; by constructor. Qed.

Lemma lev_refl a : lev a a = 0%nat.
Proof. pose proof (lev_le_edits _ _ _ (edits_refl a)). lia. Qed.

Lemma edits_length a b n :
  edits a b n -> (length a <= length b + n /\ length b <= length a + n)%nat.
Proof. induction 1; simpl; lia. Qed.

Lemma edits_zero a b : edits a b 0 -> a = b.
Proof.
  remember 0%nat as n eqn:Hn. induction 1; try discriminate; [done|].
  f_equal. auto.
Qed.

Lemma lev_zero a b : lev a b = 0%nat <-> a = b.
Proof.
  split; [|intros ->; apply lev_refl].
  intros Hz. apply edits_zero. rewrite <- Hz. apply edits_lev.
Qed.

Lemma lev_length_gap a b :
  (length a <= length b + lev a b /\ length b <= length a + lev a b)%nat.
Proof. apply edits_length, edits_lev. Qed.

Lemma lev_le_max a b : (lev a b <= Nat.max (length a) (length b))%nat.
Proof.
  revert b. induction a as [|x a IH]; intros b.
  - rewrite lev_nil_l. lia.
  - destruct b as [|y b].
    + rewrite lev_nil_r. lia.
    + rewrite lev_cons. specialize (IH b). unfold mismatch.
      destruct (decide (x = y)); cbn [length]; lia.
Qed.
End EditDistance.

Global Opaque lev.

(** ** The Wagner-Fischer table *)

Section Table.
Context {T : Type} `{EqDecision T}.
Variables seq1 seq2 : list T.
Local Abbreviation D := (table seq1 seq2).

Lemma table_0_l j : (j <= length seq2)%nat -> D 0 j = j.
Proof.
  intros Hj. unfold table. rewrite take_0. simpl rev.
  rewrite lev_nil_l, length_rev, length_take. lia.
Qed.

Lemma table_0_r i : (i <= length seq1)%nat -> D i 0 = i.
Proof.
  intros Hi. unfold table. rewrite take_0. simpl rev.
  rewrite lev_nil_r, length_rev, length_take. lia.
Qed.

Lemma table_S i j x y :
  seq1 !! i = Some x -> seq2 !! j = Some y ->
  D (S i) (S j) =
  Nat.min (Nat.min (S (D i (S j))) (S (D (S i) j))) (D i j + mismatch x y).
Proof.
  intros Hx Hy. unfold table.
  rewrite (take_S_r _ _ _ Hx), (take_S_r _ _ _ Hy), !rev_unit.
  apply lev_cons.
Qed.

Lemma table_full : D (length seq1) (length seq2) = lev seq1 seq2.
Proof. unfold table. rewrite !take_ge by lia. apply lev_rev. Qed.

(** Every entry of a row is at least some entry of the row above. *)
Lemma table_row_above i j :
  (i < length seq1)%nat -> (j <= length seq2)%nat ->
  exists j', (j' <= j)%nat /\ (D i j' <= D (S i) j)%nat.
Proof.
  intros Hi. induction j as [|j IH]; intros Hj.
  - exists O. rewrite !table_0_r by lia. lia.
  - destruct IH as (j1 & Hj1 & Hle); [lia|].
    destruct (lookup_lt_is_Some_2 seq1 i Hi) as [x Hx].
    destruct (lookup_lt_is_Some_2 seq2 j) as [y Hy]; [lia|].
    rewrite (table_S _ _ _ _ Hx Hy).
    destruct (Nat.min_spec (Nat.min (S (D i (S j))) (S (D (S i) j)))
                (D i j + mismatch x y)) as [[_ ->]|[_ ->]].
    + destruct (Nat.min_spec (S (D i (S j))) (S (D (S i) j))) as [[_ ->]|[_ ->]].
      * exists (S j). lia.
      * exists j1. lia.
    + exists j. lia.
Qed.

(** Hence the minimum of a row never exceeds the final distance. *)
Lemma table_row_min i n :
  (i + n = length seq1)%nat ->
  exists j, (j <= length seq2)%nat /\ (D i j <= lev seq1 seq2)%nat.
Proof.
  revert i. induction n as [|n IH]; intros i Hi.
  - exists (length seq2). rewrite <- table_full.
    replace i with (length seq1) by lia. lia.
  - destruct (IH (S i)) as (j & Hj & Hle); [lia|].
    destruct (table_row_above i j) as (j' & Hj' & Hle'); [lia | lia |].
    exists j'. lia.
Qed.
End Table.

(** ** The Levenshtein rows *)

Lemma MIN3_min (a b c : Z) : MIN3 a b c = Z.min (Z.min a b) c.
Proof.
  unfold MIN3.
  destruct (a <? b) eqn:E1; [apply Z.ltb_lt in E1 | apply Z.ltb_ge in E1];
    [destruct (a <? c) eqn:E2 | destruct (b <? c) eqn:E2];
    [apply Z.ltb_lt in E2 | apply Z.ltb_ge in E2
    |apply Z.ltb_lt in E2 | apply Z.ltb_ge in E2]; lia.
Qed.

Lemma native_never_fails {T} `{EqDecision T} (x y : T) : (native x y =? -1) = false.
Proof. unfold native. by destruct (decide (x = y)). Qed.

Lemma native_cost {T} `{EqDecision T} (x y : T) :
  (if native x y =? 0 then 1 else 0) = Z.of_nat (mismatch x y).
Proof. unfold native, mismatch. by destruct (decide (x = y)). Qed.

Section LevenshteinRows.
Context {T : Type} `{EqDecision T}.
Variable m : machine.
Variables seq1 seq2 : list T.
Local Abbreviation D := (table seq1 seq2).
Local Abbreviation len2 := (length seq2).
Local Abbreviation Filling := (filling seq1 seq2).
Local Abbreviation Filled := (filled seq1 seq2).

Lemma levenshtein_cell_fills i n st :
  (i < length seq1)%nat -> (n < len2)%nat -> Filling i n st ->
  loop_post (Filling i (S n)) (fun _ => False)
    (levenshtein_cell native m seq1 seq2 (1 + Z.of_nat i) (1 + Z.of_nat n) st).
Proof.
  intros Hi Hn (Hlen & Hnew & Hold & Hlast). destruct st as [column last].
  simpl in *. subst last.
  destruct (lookup_lt_is_Some_2 seq1 i Hi) as [x Hx].
  destruct (lookup_lt_is_Some_2 seq2 n Hn) as [y Hy].
  unfold levenshtein_cell.
  replace (1 + Z.of_nat n) with (Z.of_nat (S n)) by lia.
  replace (1 + Z.of_nat i - 1) with (Z.of_nat i) by lia.
  replace (Z.of_nat (S n) - 1) with (Z.of_nat n) by lia.
  rewrite (load_inside m column (S n) _ (Hold (S n) ltac:(lia))). cbn [bind].
  rewrite (item_inside seq1 i x Hx), (item_inside seq2 n y Hy). cbn [bind].
  rewrite native_never_fails. cbn [return_if bind].
  rewrite (load_inside m column n _ (Hnew n ltac:(lia))). cbn [bind].
  rewrite store_inside by lia. cbn [bind loop_post].
  repeat split; cbn [fst snd].
  - rewrite length_insert. exact Hlen.
  - intros k Hk. destruct (decide (k = S n)) as [->|Hne].
    + rewrite list_lookup_insert_eq by lia. f_equal.
      rewrite (table_S _ _ _ _ _ _ Hx Hy), MIN3_min, native_cost. lia.
    + rewrite list_lookup_insert_ne by lia. apply Hnew. lia.
  - intros k Hk. rewrite list_lookup_insert_ne by lia. apply Hold. lia.
Qed.

(** The cells of a row never leave the column. *)
Lemma levenshtein_row_cells i column :
  (i < length seq1)%nat -> Filled i column ->
  exists column' last',
    for_each (seqZ 1 (Z.of_nat len2))
      (levenshtein_cell native m seq1 seq2 (1 + Z.of_nat i))
      (<[0%nat := 1 + Z.of_nat i]> column, Z.of_nat i)
    = Next (R := Z) (column', last') /\
    Filled (S i) column' /\
    (forall k, (k <= len2)%nat -> column' !! k = Some (Z.of_nat (D (S i) k))).
Proof.
  intros Hi (Hlen & Hrow).
  pose proof (for_each_rule (Filling i) (fun _ : Z => False) 1 len2
                (levenshtein_cell native m seq1 seq2 (1 + Z.of_nat i))
                (<[0%nat := 1 + Z.of_nat i]> column, Z.of_nat i)) as Hloop.
  apply loop_post_next in Hloop as ([column' last'] & -> & Hfill); cycle 1.
  { repeat split; cbn [fst snd].
    - by rewrite length_insert.
    - intros k Hk. replace k with O by lia.
      rewrite list_lookup_insert_eq by lia. f_equal.
      rewrite table_0_r by lia. lia.
    - intros k Hk. rewrite list_lookup_insert_ne by lia. apply Hrow. lia.
    - rewrite table_0_r by lia. reflexivity. }
  { intros n st Hn Hst. by apply levenshtein_cell_fills. }
  destruct Hfill as (Hlen' & Hnew & _ & _). cbn [fst snd] in *.
  exists column', last'. split; [reflexivity|]. split; [|exact Hnew].
  split; [exact Hlen'|]. intros k Hk. apply Hnew. lia.
Qed.

Lemma levenshtein_row_fills (max_dist : Z) i column :
  (max_dist < 0 \/ exists g, stray m (-1) = Some g) ->
  (i < length seq1)%nat -> Filled i column ->
  loop_post (Filled (S i)) (stops_early seq1 seq2 max_dist)
    (levenshtein_row native m seq1 seq2 (Z.of_nat len2) max_dist
       (1 + Z.of_nat i) column).
Proof.
  intros Hmem Hi Hfilled0.
  destruct (levenshtein_row_cells i column Hi Hfilled0)
    as (column' & last' & Hcells & Hfilled & Hnew).
  destruct Hfilled0 as (Hlen & Hrow). unfold levenshtein_row.
  rewrite (store_inside column 0) by lia. cbn [bind].
  replace (1 + Z.of_nat i - 1) with (Z.of_nat i) by lia.
  rewrite Hcells. cbn [fst snd bind].
  destruct (max_dist >=? 0) eqn:Hcap; [|exact Hfilled].
  apply Z.geb_le in Hcap.
  destruct Hmem as [Hneg|[g Hg]]; [lia|].
  replace (Z.of_nat len2 + 1) with (len column')
    by (destruct Hfilled as [Hl _]; unfold len; lia).
  rewrite minimum_spec, Hg by (intros ->; by destruct Hfilled as [Hl _]). cbn [call bind].
  destruct (least g column' >? max_dist) eqn:Hmin; [|exact Hfilled].
  apply Z.gtb_lt in Hmin. cbn [return_if bind loop_post].
  split; [reflexivity|]. split; [exact Hcap|].
  destruct (table_row_min seq1 seq2 (S i) (length seq1 - S i)) as (j & Hj & Hle);
    [lia|].
  pose proof (least_le_entry g column' j _ (Hnew j Hj)). lia.
Qed.

(** Where the word in front of the column cannot be read, the first test
    of a row against a cap traps. *)
Lemma levenshtein_row_traps (max_dist : Z) i column :
  stray m (-1) = None -> 0 <= max_dist ->
  (i < length seq1)%nat -> Filled i column ->
  levenshtein_row native m seq1 seq2 (Z.of_nat len2) max_dist (1 + Z.of_nat i) column
  = Crash (OutOfBounds (-1)).
Proof.
  intros Hstray Hcap Hi Hfilled0.
  destruct (levenshtein_row_cells i column Hi Hfilled0)
    as (column' & last' & Hcells & Hfilled & Hnew).
  destruct Hfilled0 as (Hlen & Hrow). unfold levenshtein_row.
  rewrite (store_inside column 0) by lia. cbn [bind].
  replace (1 + Z.of_nat i - 1) with (Z.of_nat i) by lia.
  rewrite Hcells. cbn [fst snd bind].
  replace (max_dist >=? 0) with true by (symmetry; apply Z.geb_le; lia).
  replace (Z.of_nat len2 + 1) with (len column')
    by (destruct Hfilled as [Hl _]; unfold len; lia).
  rewrite minimum_spec, Hstray by (intros ->; by destruct Hfilled as [Hl _]).
  reflexivity.
Qed.

(** [column[j] = j] for [j] from [1] to [len2]. *)
Lemma levenshtein_first_row :
  exists column0,
    for_each (seqZ 1 (Z.of_nat len2)) (fun j c => store c j j)
      (junk m <$> seqZ 0 (Z.of_nat len2 + 1))
    = Next (R := Z) column0 /\ Filled 0 column0.
Proof.
  pose proof (for_each_rule
                (fun n c => length c = S len2 /\
                   forall k, (0 < k <= n)%nat -> c !! k = Some (Z.of_nat k))
                (fun _ : Z => False) 1 len2
                (fun j c => store c j j)
                (junk m <$> seqZ 0 (Z.of_nat len2 + 1))) as Hinit.
  apply loop_post_next in Hinit as (column0 & -> & Hlen0 & Hrow0); cycle 1.
  { split; [|intros k Hk; lia].
    rewrite length_fmap, length_seqZ. lia. }
  { intros n c Hn [Hlen Hc].
    replace (1 + Z.of_nat n) with (Z.of_nat (S n)) by lia.
    rewrite store_inside by lia. cbn [loop_post]. split.
    - by rewrite length_insert.
    - intros k Hk. destruct (decide (k = S n)) as [->|Hne].
      + by rewrite list_lookup_insert_eq by lia.
      + rewrite list_lookup_insert_ne by lia. apply Hc. lia. }
  exists column0. split; [reflexivity|]. split; [exact Hlen0|].
  intros k Hk. rewrite table_0_l by lia. by apply Hrow0.
Qed.
End LevenshteinRows.

(** ** The capped Levenshtein call *)

Section LevenshteinCall.
Context {T : Type} `{EqDecision T}.
Variable m : machine.

Lemma levenshtein_ordered_native (seq1 seq2 : list T) (max_dist : Z) :
  malloc_ok m 0 = true ->
  (max_dist < 0 \/ exists g, stray m (-1) = Some g) ->
  (length seq2 <= length seq1)%nat ->
  finish (levenshtein_ordered native m seq1 seq2 (len seq1) (len seq2) max_dist)
  = Value (capped max_dist (lev seq1 seq2)).
Proof.
  intros Hmalloc Hmem Hle. unfold levenshtein_ordered, capped, len.
  pose proof (lev_length_gap seq1 seq2) as [Hgap _].
  destruct ((max_dist >=? 0) && (Z.of_nat (length seq1) - Z.of_nat (length seq2) >? max_dist))
    eqn:Hfar; cbn [return_if bind finish].
  { apply andb_true_iff in Hfar as [H1 H2].
    apply Z.geb_le in H1. apply Z.gtb_lt in H2.
    replace (0 <=? max_dist) with true by (symmetry; apply Z.leb_le; lia).
    replace (max_dist <? Z.of_nat (lev seq1 seq2)) with true
      by (symmetry; apply Z.ltb_lt; lia).
    reflexivity. }
  assert (Hnear : max_dist < 0 \/ Z.of_nat (length seq1) - Z.of_nat (length seq2) <= max_dist).
  { apply andb_false_iff in Hfar as [H1|H2]; [left | right].
    - rewrite Z.geb_leb in H1. apply Z.leb_gt in H1. lia.
    - rewrite Z.gtb_ltb in H2. apply Z.ltb_ge in H2. lia. }
  destruct (Z.of_nat (length seq1) =? 0) eqn:H1; cbn [return_if bind finish].
  { apply Z.eqb_eq in H1.
    destruct seq1; [|discriminate]. destruct seq2; [|simpl in Hle; lia].
    rewrite lev_nil_l. change (Z.of_nat (length (@nil T))) with 0.
    decide_test (0 <=? max_dist); decide_test (max_dist <? 0); reflexivity. }
  destruct (Z.of_nat (length seq2) =? 0) eqn:H2; cbn [return_if bind finish].
  { apply Z.eqb_eq in H2. destruct seq2; [|discriminate].
    rewrite lev_nil_r. cbn [length Z.of_nat] in *.
    decide_test (0 <=? max_dist);
      decide_test (max_dist <? Z.of_nat (length seq1)); reflexivity. }
  apply Z.eqb_neq in H1, H2.
  unfold malloc. rewrite Hmalloc.
  destruct (levenshtein_first_row m seq1 seq2) as (column0 & -> & Hfilled0).
  cbn [bind].
  (* the rows *)
  pose proof (for_each_rule (filled seq1 seq2) (stops_early seq1 seq2 max_dist)
                1 (length seq1)
                (levenshtein_row native m seq1 seq2 (Z.of_nat (length seq2)) max_dist)
                column0) as Hrows.
  specialize (Hrows Hfilled0).
  lapply Hrows; [clear Hrows; intros Hrows|].
  2:{ intros n st Hn Hst. by apply levenshtein_row_fills. }
  destruct (for_each (seqZ 1 (Z.of_nat (length seq1))) _ column0) as [column|r|f];
    cbn [loop_post bind finish] in *; [| |contradiction].
  - destruct Hrows as [Hlen Hrow].
    rewrite (load_inside m column (length seq2) (Z.of_nat (lev seq1 seq2))).
    2:{ rewrite <- table_full. apply Hrow. lia. }
    cbn [bind]. rewrite Z.geb_leb, Z.gtb_ltb.
    by destruct ((0 <=? max_dist) && (max_dist <? Z.of_nat (lev seq1 seq2))).
  - destruct Hrows as (-> & H3 & H4).
    replace (0 <=? max_dist) with true by (symmetry; apply Z.leb_le; lia).
    replace (max_dist <? Z.of_nat (lev seq1 seq2)) with true
      by (symmetry; apply Z.ltb_lt; lia).
    reflexivity.
Qed.

(** The call on the code-point and byte instances, for any order of
    the operands. *)
Lemma levenshtein_native (A B : list T) (max_dist : Z) :
  malloc_ok m 0 = true ->
  (max_dist < 0 \/ exists g, stray m (-1) = Some g) ->
  levenshtein native m A B max_dist = Value (capped max_dist (lev A B)).
Proof.
  intros Hmalloc Hmem. unfold levenshtein.
  destruct (len A <? len B) eqn:Hswap;
    [apply Z.ltb_lt in Hswap | apply Z.ltb_ge in Hswap]; unfold len in Hswap.
  - rewrite (lev_sym A B). apply levenshtein_ordered_native; [done | done | lia].
  - apply levenshtein_ordered_native; [done | done | lia].
Qed.
End LevenshteinCall.

(** Under a cap that the lengths alone do not exceed, and where the word
    in front of the column cannot be read, the call on two non-empty
    sequences never returns: the scan of the first row traps. *)
Lemma levenshtein_capped_traps {T} `{EqDecision T} (m : machine)
    (A B : list T) (k : Z) :
  malloc_ok m 0 = true -> stray m (-1) = None ->
  A <> [] -> B <> [] -> Z.abs (len A - len B) <= k ->
  levenshtein native m A B k = Fault (OutOfBounds (-1)).
Proof.
  intros Hm0 Hstray HA HB Hk.
  assert (Hord : forall seq1 seq2 : list T,
            (0 < length seq2 <= length seq1)%nat -> len seq1 - len seq2 <= k ->
            finish (levenshtein_ordered native m seq1 seq2 (len seq1) (len seq2) k)
            = Fault (OutOfBounds (-1))).
  { intros seq1 seq2 Hlen Hgap. unfold levenshtein_ordered, len in *.
    replace ((k >=? 0) && (Z.of_nat (length seq1) - Z.of_nat (length seq2) >? k))
      with false
      by (symmetry; apply andb_false_iff; right; rewrite Z.gtb_ltb; apply Z.ltb_ge; lia).
    replace (Z.of_nat (length seq1) =? 0) with false by (symmetry; apply Z.eqb_neq; lia).
    replace (Z.of_nat (length seq2) =? 0) with false by (symmetry; apply Z.eqb_neq; lia).
    cbn [return_if bind]. unfold malloc. rewrite Hm0.
    destruct (levenshtein_first_row m seq1 seq2) as (column0 & -> & Hfilled0).
    cbn [bind]. rewrite (for_each_first 1 (Z.of_nat (length seq1))) by lia.
    change 1 with (1 + Z.of_nat 0) at 1.
    rewrite levenshtein_row_traps by (done || lia). reflexivity. }
  unfold levenshtein.
  destruct (len A <? len B) eqn:Hswap; zbool; unfold len in Hswap.
  - apply Hord; [|lia]. destruct A; [done|]. simpl in *. lia.
  - apply Hord; [|lia]. destruct B; [done|]. simpl in *. lia.
Qed.

(** When the lengths alone are further apart than a non-negative cap, the
    call answers [-1] before it allocates or compares anything: whatever
    the oracle and the allocator do. *)
Lemma levenshtein_length_gap {T} (COMP : T -> T -> Z) (m : machine)
    (A B : list T) (k : Z) :
  0 <= k -> k < Z.abs (len A - len B) ->
  levenshtein COMP m A B k = Value (-1).
Proof.
  intros Hk Hgap. unfold levenshtein.
  destruct (len A <? len B) eqn:Hswap;
    [apply Z.ltb_lt in Hswap | apply Z.ltb_ge in Hswap];
    unfold levenshtein_ordered.
  - replace ((k >=? 0) && (len B - len A >? k)) with true; [reflexivity|].
    symmetry. apply andb_true_iff. rewrite Z.geb_le, Z.gtb_lt. lia.
  - replace ((k >=? 0) && (len A - len B >? k)) with true; [reflexivity|].
    symmetry. apply andb_true_iff. rewrite Z.geb_le, Z.gtb_lt. lia.
Qed.

(** C1: the capping law. On a machine whose allocation succeeds and on
    which the word in front of the scratch row can be read, the uncapped
    call returns the edit distance, and for every cap [k >= 0] the capped
    call returns the same value when the distance is at most [k] and [-1]
    otherwise. When the length difference alone exceeds [k], [-1] is
    returned before any allocation or comparison, for every oracle and
    machine. *)
Theorem levenshtein_capping_law {T} `{EqDecision T} (m : machine) (g : Z)
    (A B : list T) (k : Z) :
  malloc_ok m 0 = true -> stray m (-1) = Some g -> 0 <= k ->
  levenshtein native m A B (-1) = Value (Z.of_nat (lev A B)) /\
  levenshtein native m A B k =
    (if Z.of_nat (lev A B) <=? k then levenshtein native m A B (-1) else Value (-1)) /\
  (forall (COMP : T -> T -> Z) (m' : machine),
     k < Z.abs (len A - len B) -> levenshtein COMP m' A B k = Value (-1)).
Proof.
  intros Hmalloc Hstray Hk.
  assert (Hfree : levenshtein native m A B (-1) = Value (Z.of_nat (lev A B))).
  { rewrite levenshtein_native by (done || (left; lia)). reflexivity. }
  split; [exact Hfree|]. split.
  - rewrite Hfree, levenshtein_native by eauto. unfold capped.
    replace (0 <=? k) with true by (symmetry; apply Z.leb_le; lia).
    rewrite Z.leb_antisym. by destruct (k <? Z.of_nat (lev A B)).
  - intros COMP m' Hgap. by apply levenshtein_length_gap.
Qed.

Lemma levenshtein_capping_law_witness :
  (malloc_ok (lenient 33) 0 = true /\ stray (lenient 33) (-1) = Some 33 /\ 0 <= 1) /\
  levenshtein native (lenient 33) (chars "abc") (chars "abcde") (-1)
    = Value (Z.of_nat (lev (chars "abc") (chars "abcde"))) /\
  levenshtein native (lenient 33) (chars "abc") (chars "abcde") 1 =
    (if Z.of_nat (lev (chars "abc") (chars "abcde")) <=? 1
     then levenshtein native (lenient 33) (chars "abc") (chars "abcde") (-1)
     else Value (-1)) /\
  (forall (COMP : ascii -> ascii -> Z) (m' : machine),
     1 < Z.abs (len (chars "abc") - len (chars "abcde")) ->
     levenshtein COMP m' (chars "abc") (chars "abcde") 1 = Value (-1)).
Proof.
  split; [split; [reflexivity | split; [reflexivity | lia]] |].
  apply (levenshtein_capping_law (lenient 33) 33 (chars "abc") (chars "abcde") 1);
    [reflexivity | reflexivity | lia].
Defined.


(** ** Hamming *)

Section Hamming.
Context {T : Type} `{EqDecision T}.

Lemma differing_snoc (a b : list T) (x y : T) :
  length a = length b ->
  differing (a ++ [x]) (b ++ [y]) = (differing a b + mismatch x y)%nat.
Proof.
  revert b. induction a as [|x' a IH]; intros [|y' b] Hlen; simplify_eq/=; [lia|].
  rewrite IH by done. lia.
Qed.

Lemma hamming_native (a b : list T) :
  length a = length b ->
  hamming native a b (len a) = Value (Z.of_nat (differing a b)).
Proof.
  intros Hlen. unfold hamming, len.
  loop_rule (fun n dist => dist = Z.of_nat (differing (take n a) (take n b)))
            (fun _ : Z => False) 0 (length a) Hloop.
  apply loop_post_next in Hloop as (dist & -> & ->).
  - cbn [finish]. rewrite !take_ge by lia. reflexivity.
  - reflexivity.
  - intros n dist Hn ->. cbn [Z.add].
    destruct (lookup_lt_is_Some_2 a n Hn) as [x Hx].
    destruct (lookup_lt_is_Some_2 b n) as [y Hy]; [lia|].
    rewrite (item_inside a n x Hx), (item_inside b n y Hy). cbn [bind].
    rewrite native_never_fails. cbn [return_if bind loop_post].
    rewrite (take_S_r _ _ _ Hx), (take_S_r _ _ _ Hy).
    rewrite differing_snoc by (rewrite !length_take; lia).
    unfold native, mismatch. destruct (decide (x = y)); simpl; lia.
Qed.

(** C8: [hamming] raises the length error exactly when the lengths differ,
    whatever the oracle; on sequences of equal length it returns the
    number of differing positions (so [0] on two empty sequences), and the
    normalized variant returns [0.0] for length [0] and the count divided
    by the length otherwise. *)
Theorem hamming_contract (seqA seqB : list T) :
  (forall (COMP : T -> T -> Z) (normalized : bool),
     hamming_py COMP seqA seqB normalized = Raise LengthMismatch
     <-> length seqA <> length seqB) /\
  hamming_py native seqA seqB false =
    (if decide (length seqA = length seqB)
     then Ok (PyLong (Z.of_nat (differing seqA seqB)))
     else Raise LengthMismatch) /\
  hamming_py native seqA seqB true =
    (if decide (length seqA = length seqB)
     then Ok (PyFloat
                (if decide (length seqA = 0%nat) then Real 0
                 else Real (inject_Z (Z.of_nat (differing seqA seqB))
                            / inject_Z (Z.of_nat (length seqA)))))
     else Raise LengthMismatch) /\
  hamming_py native (@nil T) (@nil T) false = Ok (PyLong 0).
Proof.
  split; [|split; [|split]].
  - intros COMP normalized. unfold hamming_py, len.
    decide_test (Z.of_nat (length seqA) =? Z.of_nat (length seqB)); cbn [negb].
    + split; [|lia]. intros Hr. exfalso.
      destruct (hamming COMP seqA seqB (Z.of_nat (length seqA))) as [dist|f];
        [|discriminate].
      destruct (dist =? -1); [discriminate|].
      destruct normalized; [|discriminate].
      destruct (Z.of_nat (length seqA) =? 0); discriminate.
    + split; [lia | reflexivity].
  - unfold hamming_py. destruct (decide (length seqA = length seqB)) as [Heq|Hne].
    + replace (len seqA =? len seqB) with true
        by (symmetry; apply Z.eqb_eq; unfold len; lia).
      cbn [negb]. rewrite hamming_native by done.
      decide_test (Z.of_nat (differing seqA seqB) =? -1). reflexivity.
    + replace (len seqA =? len seqB) with false
        by (symmetry; apply Z.eqb_neq; unfold len; lia).
      reflexivity.
  - unfold hamming_py. destruct (decide (length seqA = length seqB)) as [Heq|Hne].
    + replace (len seqA =? len seqB) with true
        by (symmetry; apply Z.eqb_eq; unfold len; lia).
      cbn [negb]. rewrite hamming_native by done.
      decide_test (Z.of_nat (differing seqA seqB) =? -1).
      unfold fdiv, len. destruct (decide (length seqA = 0%nat)) as [Hz|Hnz].
      * replace (Z.of_nat (length seqA) =? 0) with true
          by (symmetry; apply Z.eqb_eq; lia).
        reflexivity.
      * replace (Z.of_nat (length seqA) =? 0) with false
          by (symmetry; apply Z.eqb_neq; lia).
        reflexivity.
    + replace (len seqA =? len seqB) with false
        by (symmetry; apply Z.eqb_neq; unfold len; lia).
      reflexivity.
  - reflexivity.
Qed.
End Hamming.


(** ** The normalized distance *)

Lemma MAX3_max (a b c : Z) : MAX3 a b c = Z.max (Z.max a b) c.
Proof.
  unfold MAX3.
  decide_test (a >? b); [decide_test (a >? c) | decide_test (b >? c)]; lia.
Qed.

Lemma if_next {R A} (c : bool) (a b : A) :
  (if c then Next a else Next b) = Next (R := R) (if c then a else b).
Proof. by destruct c. Qed.

Section Normalized.
Context {T : Type} `{EqDecision T}.
Variable m : machine.
Variables seq1 seq2 : list T.
Local Abbreviation D := (table seq1 seq2).
Local Abbreviation len2 := (length seq2).

Lemma nlevenshtein_cell_fills i n st :
  (i < length seq1)%nat -> (n < len2)%nat -> filling2 seq1 seq2 i n st ->
  loop_post (filling2 seq1 seq2 i (S n)) (fun _ => False)
    (nlevenshtein_cell native m seq1 seq2 (1 + Z.of_nat i) (1 + Z.of_nat n) st).
Proof.
  intros Hi Hn (Hlen & Hlen' & Hnew & Hold & Hlast & Hllast).
  destruct st as [[[column lgt] last] llast]. cbn [fst snd] in *. subst last.
  destruct (lookup_lt_is_Some_2 seq1 i Hi) as [x Hx].
  destruct (lookup_lt_is_Some_2 seq2 n Hn) as [y Hy].
  destruct (Hold (S n) ltac:(lia)) as (Hup & lup & Hlup & Hbup).
  destruct (Hnew n ltac:(lia)) as (Hleft & lleft & Hlleft & Hbleft).
  unfold nlevenshtein_cell.
  replace (1 + Z.of_nat n) with (Z.of_nat (S n)) by lia.
  replace (1 + Z.of_nat i - 1) with (Z.of_nat i) by lia.
  replace (Z.of_nat (S n) - 1) with (Z.of_nat n) by lia.
  rewrite (load_inside m column (S n) _ Hup). cbn [bind].
  rewrite (load_inside m column n _ Hleft). cbn [bind].
  rewrite (item_inside seq1 i x Hx), (item_inside seq2 n y Hy). cbn [bind].
  rewrite native_never_fails, native_cost. cbn [return_if bind].
  rewrite store_inside by lia. cbn [bind].
  rewrite (load_inside m lgt (S n) _ Hlup). cbn [bind].
  rewrite (load_inside m _ (S n) _ (list_lookup_insert_eq column (S n) _ ltac:(lia))).
  cbn [bind].
  rewrite (load_inside m lgt n _ Hlleft). cbn [bind].
  set (ic := Z.of_nat (D (S i) n) + 1).
  set (dc := Z.of_nat (D i (S n)) + 1).
  set (rc := Z.of_nat (D i n) + Z.of_nat (mismatch x y)).
  rewrite !(if_next (R := double)). cbn [bind].
  rewrite store_inside by lia. cbn [bind loop_post].
  assert (Hcell : Z.of_nat (D (S i) (S n)) = MIN3 ic dc rc).
  { rewrite (table_S _ _ _ _ _ _ Hx Hy), MIN3_min. subst ic dc rc. lia. }
  repeat split; cbn [fst snd].
  - by rewrite length_insert.
  - by rewrite length_insert.
  - destruct (decide (k = S n)) as [->|Hne].
    + rewrite list_lookup_insert_eq by lia. by rewrite Hcell.
    + rewrite list_lookup_insert_ne by lia. apply Hnew. lia.
  - destruct (decide (k = S n)) as [->|Hne].
    + eexists. split; [apply list_lookup_insert_eq; lia|].
      rewrite MAX3_max. rewrite MIN3_min in *.
      decide_test (ic =? Z.min (Z.min ic dc) rc);
        decide_test (dc =? Z.min (Z.min ic dc) rc);
        decide_test (rc =? Z.min (Z.min ic dc) rc).
    + destruct (Hnew k ltac:(lia)) as (_ & l & Hl & Hb).
      exists l. split; [by rewrite list_lookup_insert_ne by lia | exact Hb].
  - rewrite list_lookup_insert_ne by lia. apply Hold. lia.
  - destruct (Hold k ltac:(lia)) as (_ & l & Hl & Hb).
    exists l. split; [by rewrite list_lookup_insert_ne by lia | exact Hb].
  - exact Hbup.
Qed.
Lemma nlevenshtein_row_fills i st :
  (i < length seq1)%nat -> filled2 seq1 seq2 i st ->
  loop_post (filled2 seq1 seq2 (S i)) (fun _ => False)
    (nlevenshtein_row native m seq1 seq2 (Z.of_nat len2) (1 + Z.of_nat i) st).
Proof.
  intros Hi (Hlen & Hlen' & Hrow). destruct st as [column lgt]. cbn [fst snd] in *.
  unfold nlevenshtein_row.
  rewrite (store_inside lgt 0) by lia. cbn [bind].
  rewrite (store_inside column 0) by lia. cbn [bind].
  replace (1 + Z.of_nat i - 1) with (Z.of_nat i) by lia.
  loop_rule (filling2 seq1 seq2 i) (fun _ : double => False) 1 (length seq2) Hloop.
  apply loop_post_next in Hloop as ([[[column' lgt'] last'] llast'] & -> & Hfill).
  - destruct Hfill as (Hl1 & Hl2 & Hnew & _). cbn [fst snd bind loop_post] in *.
    repeat split; [done | done | apply Hnew; lia | apply Hnew; lia].
  - repeat split; cbn [fst snd]; try by rewrite length_insert.
    + replace k with O by lia. rewrite list_lookup_insert_eq by lia.
      rewrite table_0_r by lia. f_equal. lia.
    + replace k with O by lia. eexists.
      split; [apply list_lookup_insert_eq; lia | lia].
    + rewrite list_lookup_insert_ne by lia. apply Hrow. lia.
    + destruct (Hrow k ltac:(lia)) as (_ & l & Hl & Hb).
      exists l. split; [by rewrite list_lookup_insert_ne by lia | exact Hb].
    + rewrite table_0_r by lia. reflexivity.
    + lia.
  - intros n st Hn Hst. by apply nlevenshtein_cell_fills.
Qed.

(** Method 2 on ordered, non-empty operands: the distance over an
    alignment length that is at least the longer length. *)
Lemma nlevenshtein_method2 :
  malloc_ok m 0 = true -> malloc_ok m 1 = true ->
  (0 < len2 <= length seq1)%nat ->
  exists flen, Z.of_nat (length seq1) <= flen /\
    nlevenshtein native m seq1 seq2 2
    = Value (Real (inject_Z (Z.of_nat (lev seq1 seq2)) / inject_Z flen)).
Proof.
  intros Hm0 Hm1 Hlen. unfold nlevenshtein, len.
  replace (Z.of_nat (length seq1) >=? Z.of_nat len2) with true
    by (symmetry; apply Z.geb_le; lia).
  replace (Z.of_nat (length seq1) =? 0) with false by (symmetry; apply Z.eqb_neq; lia).
  replace (Z.of_nat len2 =? 0) with false by (symmetry; apply Z.eqb_neq; lia).
  cbn [assert return_if bind Z.eqb]. unfold malloc. rewrite Hm0, Hm1.
  loop_rule (fun n (st : list Z * list Z) =>
               length st.1 = S len2 /\ length st.2 = S len2 /\
               forall k, (0 < k <= n)%nat ->
                 st.1 !! k = Some (Z.of_nat k) /\ st.2 !! k = Some (Z.of_nat k))
            (fun _ : double => False) 1 (length seq2) Hinit.
  apply loop_post_next in Hinit as (st0 & -> & Hl1 & Hl2 & Hrow0); cycle 1.
  { cbn [fst snd]. rewrite length_fmap, length_seqZ.
    split; [lia|]. split; [lia|]. intros k Hk. lia. }
  { intros n [c l] Hn (H1 & H2 & Hc). cbn [fst snd] in *.
    replace (1 + Z.of_nat n) with (Z.of_nat (S n)) by lia.
    rewrite !store_inside by lia. cbn [bind loop_post fst snd].
    rewrite !length_insert. split; [done|]. split; [done|].
    intros k Hk. destruct (decide (k = S n)) as [->|Hne].
    - by rewrite !list_lookup_insert_eq by lia.
    - rewrite !list_lookup_insert_ne by lia. apply Hc. lia. }
  cbn [bind].
  loop_rule (filled2 seq1 seq2) (fun _ : double => False) 1 (length seq1) Hrows.
  apply loop_post_next in Hrows as ([column lgt] & -> & Hc & Hl & Hrow); cycle 1.
  { split; [done|]. split; [done|]. intros k Hk.
    destruct (Hrow0 k Hk) as [Hck Hlk]. split.
    - rewrite table_0_l by lia. exact Hck.
    - exists (Z.of_nat k). split; [exact Hlk | lia]. }
  { intros n st Hn Hst. by apply nlevenshtein_row_fills. }
  cbn [bind fst snd] in *.
  destruct (Hrow len2 ltac:(lia)) as (Hd & flen & Hflen & Hb).
  rewrite (load_inside m column len2 _ Hd). cbn [bind].
  rewrite (load_inside m lgt len2 _ Hflen). cbn [bind finish].
  exists flen. split; [lia|]. unfold fdiv.
  replace (flen =? 0) with false by (symmetry; apply Z.eqb_neq; lia).
  by rewrite table_full.
Qed.

(** Method 1 on ordered, non-empty operands: the distance over the longer
    length. *)
Lemma nlevenshtein_method1 :
  malloc_ok m 0 = true -> (0 < len2 <= length seq1)%nat ->
  nlevenshtein native m seq1 seq2 1
  = Value (Real (inject_Z (Z.of_nat (lev seq1 seq2))
                 / inject_Z (Z.of_nat (length seq1)))).
Proof.
  intros Hm0 Hlen. unfold nlevenshtein, len.
  replace (Z.of_nat (length seq1) >=? Z.of_nat len2) with true
    by (symmetry; apply Z.geb_le; lia).
  replace (Z.of_nat (length seq1) =? 0) with false by (symmetry; apply Z.eqb_neq; lia).
  replace (Z.of_nat len2 =? 0) with false by (symmetry; apply Z.eqb_neq; lia).
  cbn [assert return_if bind Z.eqb].
  rewrite levenshtein_native by (done || (left; lia)).
  cbn [capped Z.leb andb call bind].
  replace (Z.of_nat (lev seq1 seq2) <? 0) with false by (symmetry; apply Z.ltb_ge; lia).
  cbn [return_if bind finish]. unfold fdiv.
  replace (Z.of_nat (length seq1) =? 0) with false by (symmetry; apply Z.eqb_neq; lia).
  reflexivity.
Qed.
End Normalized.

Lemma ratio_facts (d n : Z) :
  0 <= d <= n -> 0 < n ->
  (0 <= inject_Z d / inject_Z n <= 1)%Q /\
  ((inject_Z d / inject_Z n == 0)%Q <-> d = 0).
Proof.
  intros Hd Hn. destruct n as [|p|p]; try lia.
  unfold Qdiv, Qmult, Qinv, Qle, Qeq, inject_Z. cbn.
  rewrite !Z.mul_1_r. repeat split; lia.
Qed.

Section NormalizedCall.
Context {T : Type} `{EqDecision T}.
Variable m : machine.

Lemma nlevenshtein_ordered_facts (seq1 seq2 : list T) (method : Z) :
  malloc_ok m 0 = true -> malloc_ok m 1 = true -> method = 1 \/ method = 2 ->
  (length seq2 <= length seq1)%nat ->
  exists q : Q,
    nlevenshtein native m seq1 seq2 method = Value (Real q) /\
    (0 <= q <= 1)%Q /\
    ((q == 0)%Q <-> seq1 = seq2) /\
    (seq2 = [] -> seq1 <> [] -> (q == 1)%Q).
Proof.
  intros Hm0 Hm1 Hmethod Hle.
  destruct seq1 as [|x1 s1].
  { destruct seq2; [|simpl in Hle; lia]. exists 0%Q.
    repeat split; try done. }
  destruct seq2 as [|x2 s2].
  { exists 1%Q. repeat split; try done. }
  pose proof (lev_le_max (x1 :: s1) (x2 :: s2)) as Hmax.
  pose proof (lev_zero (x1 :: s1) (x2 :: s2)) as Hzero.
  destruct Hmethod as [-> | ->].
  - rewrite nlevenshtein_method1 by (done || (simpl in *; lia)).
    eexists. split; [reflexivity|].
    destruct (ratio_facts (Z.of_nat (lev (x1 :: s1) (x2 :: s2)))
                (Z.of_nat (length (x1 :: s1)))) as [Hb Hz];
      [simpl in *; lia | simpl; lia |].
    split; [exact Hb|]. split; [|done].
    rewrite Hz, <- Hzero. lia.
  - destruct (nlevenshtein_method2 m (x1 :: s1) (x2 :: s2)) as (flen & Hflen & ->);
      [done | done | simpl in *; lia |].
    eexists. split; [reflexivity|].
    destruct (ratio_facts (Z.of_nat (lev (x1 :: s1) (x2 :: s2))) flen) as [Hb Hz];
      [simpl in *; lia | simpl in *; lia |].
    split; [exact Hb|]. split; [|done].
    rewrite Hz, <- Hzero. lia.
Qed.
End NormalizedCall.

(** C7: when its allocations succeed, [nlevenshtein] on the code-point and
    byte instances returns, for both methods, a value between [0] and [1];
    the value is [0] exactly when the two sequences are equal (so also
    when both are empty), and [1] when exactly one of them is empty. *)
Theorem nlevenshtein_bounds {T} `{EqDecision T} (m : machine) (A B : list T)
    (method : Z) :
  malloc_ok m 0 = true -> malloc_ok m 1 = true -> method = 1 \/ method = 2 ->
  exists q : Q,
    nlevenshtein_py native m A B method = Ok (PyFloat (Real q)) /\
    (0 <= q <= 1)%Q /\
    ((q == 0)%Q <-> A = B) /\
    ((A = [] /\ B <> []) \/ (A <> [] /\ B = []) -> (q == 1)%Q).
Proof.
  intros Hm0 Hm1 Hmethod. unfold nlevenshtein_py.
  replace (negb (method =? 1) && negb (method =? 2)) with false
    by (destruct Hmethod as [-> | ->]; reflexivity).
  destruct (len A <? len B) eqn:Hswap; zbool; unfold len in Hswap.
  - destruct (nlevenshtein_ordered_facts m B A method) as (q & -> & Hb & Hz & Hone);
      [done | done | done | lia |].
    exists q. replace (fnegative (Real q)) with false.
    2:{ symmetry. apply negb_false_iff, Qle_bool_iff, Hb. }
    split; [reflexivity|]. split; [exact Hb|]. split.
    + rewrite Hz. split; congruence.
    + intros [[HA HB]|[HA HB]]; [by apply Hone|].
      subst B. destruct A; [done | simpl in Hswap; lia].
  - destruct (nlevenshtein_ordered_facts m A B method) as (q & -> & Hb & Hz & Hone);
      [done | done | done | lia |].
    exists q. replace (fnegative (Real q)) with false.
    2:{ symmetry. apply negb_false_iff, Qle_bool_iff, Hb. }
    split; [reflexivity|]. split; [exact Hb|]. split; [exact Hz|].
    intros [[HA HB]|[HA HB]]; [|by apply Hone].
    subst A. destruct B; [done | simpl in Hswap; lia].
Qed.

Lemma nlevenshtein_bounds_witness :
  (malloc_ok checked 0 = true /\ malloc_ok checked 1 = true /\ (2 = 1 \/ 2 = 2)) /\
  exists q : Q,
    nlevenshtein_py native checked (chars "kitten") (chars "sitting") 2
      = Ok (PyFloat (Real q)) /\
    (0 <= q <= 1)%Q /\
    ((q == 0)%Q <-> chars "kitten" = chars "sitting") /\
    ((chars "kitten" = [] /\ chars "sitting" <> [])
     \/ (chars "kitten" <> [] /\ chars "sitting" = []) -> (q == 1)%Q).
Proof.
  split; [split; [reflexivity | split; [reflexivity | right; reflexivity]] |].
  apply (nlevenshtein_bounds checked (chars "kitten") (chars "sitting") 2);
    [reflexivity | reflexivity | right; reflexivity].
Defined.

(** ** Longest common substrings *)

Lemma filter_none {A} (P : A -> Prop) `{forall x, Decision (P x)} (l : list A) :
  (forall x, x ∈ l -> ~ P x) -> filter P l = [].
Proof.
  induction l as [|a l IH]; intros Hno; [reflexivity|].
  rewrite filter_cons_False by (apply Hno; by left).
  apply IH. intros x Hx. apply Hno. by right.
Qed.

Section LcsScan.
Context {T : Type} `{EqDecision T}.
Variables seq1 seq2 : list T.
Local Abbreviation len2 := (length seq2).
Local Abbreviation Run := (run seq1 seq2).
Local Abbreviation Best := (best seq1 seq2).

Lemma run_unfold i j x y :
  seq1 !! i = Some x -> seq2 !! j = Some y ->
  Run i j =
  if decide (x = y) then
    match i, j with
    | S i', S j' => S (Run i' j')
    | _, _ => 1%nat
    end
  else 0%nat.
Proof. intros Hx Hy. destruct i; simpl; rewrite Hx, Hy; reflexivity. Qed.

Lemma scan_S i n : scan len2 i (S n) = scan len2 i n ++ [(i, n)].
Proof.
  unfold scan. rewrite seq_S, fmap_app. simpl. by rewrite app_assoc.
Qed.

Lemma scan_row i : scan len2 (S i) 0 = scan len2 i len2.
Proof.
  unfold scan. rewrite seq_S, bind_app. simpl. by rewrite !app_nil_r.
Qed.

Lemma foldr_max_seed (l : list nat) (r : nat) :
  foldr Nat.max r l = Nat.max (foldr Nat.max 0%nat l) r.
Proof. induction l as [|a l IH]; simpl; [lia|]. rewrite IH. lia. Qed.

Lemma best_snoc cs c : Best (cs ++ [c]) = Nat.max (Best cs) (Run c.1 c.2).
Proof.
  unfold best. rewrite fmap_app, foldr_app. cbn [fmap list_fmap foldr].
  rewrite foldr_max_seed. lia.
Qed.

Lemma best_ge cs c : c ∈ cs -> (Run c.1 c.2 <= Best cs)%nat.
Proof.
  unfold best. induction 1 as [c cs|c c' cs _ IH];
    rewrite fmap_cons; cbn [foldr]; lia.
Qed.

Lemma best_attained cs :
  Best cs <> 0%nat -> exists c, c ∈ cs /\ Run c.1 c.2 = Best cs.
Proof.
  unfold best. induction cs as [|c cs IH]; [done|].
  rewrite fmap_cons. cbn [foldr]. intros Hne.
  destruct (Nat.max_spec (Run c.1 c.2)
              (foldr Nat.max 0%nat ((fun c => Run c.1 c.2) <$> cs))) as [[Hlt ->]|[Hle ->]].
  - destruct IH as (c' & Hin & Hr); [lia|]. exists c'. split; [by right | done].
  - exists c. split; [by left | done].
Qed.

Lemma ties_keep cs c :
  (Run c.1 c.2 < Best cs)%nat -> ties seq1 seq2 (cs ++ [c]) = ties seq1 seq2 cs.
Proof.
  intros Hlt. unfold ties. rewrite best_snoc, Nat.max_l by lia.
  rewrite filter_app, filter_cons_False by (simpl; lia).
  by rewrite filter_nil, app_nil_r.
Qed.

Lemma ties_push cs c :
  Run c.1 c.2 = Best cs ->
  ties seq1 seq2 (cs ++ [c]) = ties seq1 seq2 cs ++ [(Z.of_nat c.1, Z.of_nat c.2)].
Proof.
  intros Heq. unfold ties. rewrite best_snoc, Nat.max_l by lia.
  rewrite filter_app, filter_cons_True by done.
  by rewrite filter_nil, fmap_app.
Qed.

Lemma ties_reset cs c :
  (Best cs < Run c.1 c.2)%nat ->
  ties seq1 seq2 (cs ++ [c]) = [(Z.of_nat c.1, Z.of_nat c.2)].
Proof.
  intros Hlt. unfold ties. rewrite best_snoc, Nat.max_r by lia.
  rewrite filter_app, filter_cons_True by done.
  rewrite filter_nil.
  rewrite filter_none; [reflexivity|]. intros c' Hin.
  pose proof (best_ge cs c' Hin). lia.
Qed.

(** The three branches of the cell on a match, and the one on a
    mismatch, keep [mlen] and the stack in step with the cells visited. *)
Lemma tally_step cs c mlen stack :
  tally seq1 seq2 cs mlen stack ->
  let r := Z.of_nat (Run c.1 c.2) in
  let p := (Z.of_nat c.1, Z.of_nat c.2) in
  tally seq1 seq2 (cs ++ [c])
    (if r =? 0 then mlen else if r >? mlen then r else mlen)
    (if r =? 0 then stack
     else if r >? mlen then [p]
     else if r =? mlen then stack ++ [p] else stack).
Proof.
  intros Ht. cbv zeta. unfold tally in *.
  pose proof (best_snoc cs c) as Hb.
  destruct (decide (Best cs = 0%nat)) as [Hz|Hnz]; destruct Ht as [-> ->].
  - decide_test (Z.of_nat (Run c.1 c.2) =? 0).
    + rewrite decide_True by lia. done.
    + decide_test (Z.of_nat (Run c.1 c.2) >? -1).
      rewrite decide_False by lia. split; [lia|].
      rewrite ties_reset by lia. done.
  - decide_test (Z.of_nat (Run c.1 c.2) =? 0).
    + rewrite decide_False by lia. split; [lia|]. apply eq_sym, ties_keep. lia.
    + rewrite decide_False by lia.
      decide_test (Z.of_nat (Run c.1 c.2) >? Z.of_nat (Best cs)).
      * split; [lia|]. rewrite ties_reset by lia. done.
      * decide_test (Z.of_nat (Run c.1 c.2) =? Z.of_nat (Best cs)).
        -- split; [lia|]. rewrite ties_push by lia. done.
        -- split; [lia|]. apply eq_sym, ties_keep. lia.
Qed.
End LcsScan.

Section LcsCall.
Context {T : Type} `{EqDecision T}.
Variable m : machine.
Variables seq1 seq2 : list T.
Local Abbreviation len2 := (length seq2).
Local Abbreviation Run := (run seq1 seq2).

Lemma lcsubstrings_cell_fills (max_len0 : Z) i n st :
  (i < length seq1)%nat -> (n < len2)%nat -> lcs_filling seq1 seq2 i n st ->
  loop_post (lcs_filling seq1 seq2 i (S n)) (fun _ => False)
    (lcsubstrings_cell native m seq1 seq2 max_len0 (Z.of_nat i) (0 + Z.of_nat n) st).
Proof.
  intros Hi Hn (Hlen & Hnew & Hold & Hlast & Htally).
  destruct st as [[[column last] mlen] stack]. cbn [fst snd] in *.
  destruct (lookup_lt_is_Some_2 seq1 i Hi) as [x Hx].
  destruct (lookup_lt_is_Some_2 seq2 n Hn) as [y Hy].
  destruct (lookup_lt_is_Some_2 column n) as [old Hcol]; [lia|].
  pose proof (tally_step seq1 seq2 (scan len2 i n) (i, n) mlen stack Htally) as Hstep.
  cbv zeta in Hstep. cbn [fst snd] in Hstep. rewrite <- scan_S in Hstep.
  pose proof (run_unfold seq1 seq2 i n x y Hx Hy) as Hrun.
  unfold lcsubstrings_cell. rewrite Z.add_0_l.
  rewrite (load_inside m column n old Hcol). cbn [bind].
  rewrite (item_inside seq1 i x Hx), (item_inside seq2 n y Hy). cbn [bind].
  rewrite native_never_fails. cbn [return_if bind].
  assert (Hrest : forall v, length (<[n := v]> column) = S len2 /\
            (forall i' k, i = S i' -> (S n <= k < len2)%nat ->
               <[n := v]> column !! k = Some (Z.of_nat (Run i' k))) /\
            (forall i' n', i = S i' -> S n = S n' -> old = Z.of_nat (Run i' n'))).
  { intros v. rewrite length_insert. split; [done|]. split.
    - intros i' k Ei Hk. rewrite list_lookup_insert_ne by lia. by apply Hold; [|lia].
    - intros i' n' Ei En. simplify_eq.
      specialize (Hold i' n' eq_refl ltac:(lia)). congruence. }
  unfold native. destruct (decide (x = y)) as [Exy|Exy]; cbn [Z.eqb negb].
  - rewrite store_inside by lia. cbn [bind].
    rewrite (load_inside m _ n _ (list_lookup_insert_eq column n _ ltac:(lia))).
    cbn [bind].
    assert (Hv : (if (Z.of_nat i =? 0) || (Z.of_nat n =? 0) then 1 else last + 1)
                 = Z.of_nat (Run i n)).
    { rewrite Hrun. destruct i as [|i'], n as [|n']; try reflexivity.
      rewrite (Hlast i' n' eq_refl eq_refl).
      replace ((Z.of_nat (S i') =? 0) || (Z.of_nat (S n') =? 0)) with false; [lia|].
      symmetry. apply orb_false_iff. rewrite !Z.eqb_neq. lia. }
    rewrite Hv in *.
    replace (Z.of_nat (Run i n) =? 0) with false in Hstep
      by (symmetry; apply Z.eqb_neq; rewrite Hrun; destruct i, n; lia).
    destruct (Hrest (Z.of_nat (Run i n))) as (H1 & H2 & H3).
    destruct (Z.of_nat (Run i n) >? mlen);
      [|destruct (Z.of_nat (Run i n) =? mlen)];
      cbn [bind loop_post]; (split; [exact H1|]); cbn [fst snd];
      (split; [|split; [exact H2|split; [exact H3|exact Hstep]]]);
      intros k Hk; (destruct (decide (k = n)) as [->|Hne];
        [by rewrite list_lookup_insert_eq by lia
        |rewrite list_lookup_insert_ne by lia; apply Hnew; lia]).
  - rewrite store_inside by lia. cbn [bind loop_post].
    replace (Z.of_nat (Run i n)) with 0 in Hstep by (rewrite Hrun; reflexivity).
    cbn [Z.eqb] in Hstep.
    destruct (Hrest 0) as (H1 & H2 & H3).
    split; [exact H1|]. cbn [fst snd].
    split; [|split; [exact H2|split; [exact H3|exact Hstep]]].
    intros k Hk. destruct (decide (k = n)) as [->|Hne].
    + rewrite list_lookup_insert_eq by lia. by rewrite Hrun.
    + rewrite list_lookup_insert_ne by lia. apply Hnew. lia.
Qed.

(** The call on ordered operands with a non-empty second one: the stack
    holds the cells of the longest run, in scan order. *)
Lemma lcsubstrings_native (max_len0 : Z) :
  malloc_ok m 0 = true -> (0 < len2 <= length seq1)%nat ->
  exists mlen stack,
    lcsubstrings native m seq1 seq2 max_len0 = Value (Some stack, mlen) /\
    tally seq1 seq2 (scan len2 (length seq1) 0) mlen stack.
Proof.
  intros Hm0 Hlen. unfold lcsubstrings, len.
  replace (Z.of_nat (length seq1) >=? Z.of_nat len2) with true
    by (symmetry; apply Z.geb_le; lia).
  replace (Z.of_nat len2 =? 0) with false by (symmetry; apply Z.eqb_neq; lia).
  cbn [assert return_if bind]. unfold malloc. rewrite Hm0.
  loop_rule (fun (n : nat) (c : list Z) => length c = S len2)
            (fun _ : option (list (Z * Z)) * Z => False) 0 (length seq2) Hinit.
  apply loop_post_next in Hinit as (column0 & -> & Hlen0); cycle 1.
  { rewrite length_fmap, length_seqZ. lia. }
  { intros n c Hn Hc. rewrite Z.add_0_l, store_inside by lia.
    cbn [loop_post]. by rewrite length_insert. }
  cbn [bind].
  loop_rule (fun i st => lcs_filling seq1 seq2 i 0 st)
            (fun _ : option (list (Z * Z)) * Z => False) 0 (length seq1) Hrows.
  apply loop_post_next in Hrows as ([[[column last] mlen] stack] & -> & Hfill);
    cycle 1.
  { repeat split; cbn [fst snd]; try done; try lia. }
  { intros i st Hi Hst. rewrite Z.add_0_l.
    loop_rule (lcs_filling seq1 seq2 i) (fun _ : option (list (Z * Z)) * Z => False)
              0 (length seq2) Hrow.
    apply loop_post_next in Hrow as (st' & -> & Hst'); cycle 1.
    { exact Hst. }
    { intros n st1 Hn Hst1. by apply lcsubstrings_cell_fills. }
    cbn [loop_post]. destruct Hst' as (H1 & H2 & _ & _ & H5).
    split; [exact H1|]. split; [intros k Hk; lia|].
    split; [intros i' k Ei Hk; simplify_eq; apply H2; lia|].
    split; [intros i' n' _ En; lia|].
    by rewrite scan_row. }
  cbn [bind finish]. exists mlen, stack. split; [reflexivity|].
  by destruct Hfill as (_ & _ & _ & _ & Ht).
Qed.
End LcsCall.

(** *** Runs and common substrings *)

Section Runs.
Context {T : Type} `{EqDecision T}.
Variables seq1 seq2 : list T.
Local Abbreviation Run := (run seq1 seq2).
Local Abbreviation Common := (common seq1 seq2).

Lemma run_zero_outside i j :
  (length seq1 <= i)%nat \/ (length seq2 <= j)%nat -> Run i j = 0%nat.
Proof.
  intros Hout. destruct i; simpl.
  - destruct Hout as [H1|H2].
    + by rewrite (lookup_ge_None_2 seq1 0).
    + rewrite (lookup_ge_None_2 seq2 j) by done. by destruct (seq1 !! 0%nat).
  - destruct Hout as [H1|H2].
    + by rewrite (lookup_ge_None_2 seq1 (S i)).
    + rewrite (lookup_ge_None_2 seq2 j) by done. by destruct (seq1 !! S i).
Qed.

Lemma run_bound i j : (Run i j <= S i /\ Run i j <= S j)%nat.
Proof.
  revert j. induction i as [|i IH]; intros j.
  - simpl. destruct (seq1 !! 0%nat), (seq2 !! j); try lia.
    destruct (decide (t = t0)); lia.
  - simpl. destruct (seq1 !! S i), (seq2 !! j); try lia.
    destruct (decide (t = t0)); [|lia].
    destruct j as [|j]; [lia|]. specialize (IH j). lia.
Qed.

Lemma take_drop_snoc (s : list T) p n x :
  s !! (p + n)%nat = Some x ->
  take (S n) (drop p s) = take n (drop p s) ++ [x].
Proof. intros Hx. apply take_S_r. by rewrite lookup_drop. Qed.

(** A run of length [r] ending at [(i, j)] contains a common substring of
    every length up to [r] ending there. *)
Lemma run_common i j n :
  (i < length seq1)%nat -> (j < length seq2)%nat -> (n <= Run i j)%nat ->
  Common (S i - n) (S j - n) n.
Proof.
  revert j n. induction i as [|i IH]; intros j n Hi Hj Hn.
  - destruct n as [|n]; [repeat split; simpl; lia|].
    pose proof (run_bound 0 j). assert (n = 0%nat) as -> by lia.
    destruct (lookup_lt_is_Some_2 seq1 0 Hi) as [x Hx].
    destruct (lookup_lt_is_Some_2 seq2 j Hj) as [y Hy].
    rewrite (run_unfold _ _ _ _ _ _ Hx Hy) in Hn.
    destruct (decide (x = y)) as [->|]; [|lia].
    repeat split; [simpl; lia | lia |].
    replace (1 - 1)%nat with 0%nat by lia. replace (S j - 1)%nat with j by lia.
    rewrite (take_drop_snoc seq1 0 0 y), (take_drop_snoc seq2 j 0 y);
      [by rewrite !take_0 | by rewrite Nat.add_0_r | done].
  - destruct n as [|n]; [repeat split; simpl; lia|].
    destruct (lookup_lt_is_Some_2 seq1 (S i) Hi) as [x Hx].
    destruct (lookup_lt_is_Some_2 seq2 j Hj) as [y Hy].
    rewrite (run_unfold _ _ _ _ _ _ Hx Hy) in Hn.
    destruct (decide (x = y)) as [->|]; [|lia].
    destruct j as [|j].
    + assert (n = 0%nat) as -> by lia.
      repeat split; [lia | simpl; lia |].
      replace (S (S i) - 1)%nat with (S i) by lia. replace (1 - 1)%nat with 0%nat by lia.
      rewrite (take_drop_snoc seq1 (S i) 0 y), (take_drop_snoc seq2 0 0 y);
        [by rewrite !take_0 | done | by rewrite Nat.add_0_r].
    + pose proof (run_bound i j) as [Hb1 Hb2].
      destruct (IH j n) as (Hc1 & Hc2 & Hc3); [lia | lia | lia |].
      replace (S (S i) - S n)%nat with (S i - n)%nat by lia.
      replace (S (S j) - S n)%nat with (S j - n)%nat by lia.
      repeat split; [lia | lia |].
      rewrite (take_drop_snoc seq1 (S i - n) n y), (take_drop_snoc seq2 (S j - n) n y).
      * by rewrite Hc3.
      * by replace (S j - n + n)%nat with (S j) by lia.
      * by replace (S i - n + n)%nat with (S i) by lia.
Qed.

(** A common substring is inside the run that ends at its last pair. *)
Lemma common_run p q n :
  Common p q (S n) -> (S n <= Run (p + n) (q + n))%nat.
Proof.
  induction n as [|n IH]; intros (H1 & H2 & H3).
  - destruct (lookup_lt_is_Some_2 seq1 p) as [x Hx]; [lia|].
    destruct (lookup_lt_is_Some_2 seq2 q) as [y Hy]; [lia|].
    rewrite (take_drop_snoc seq1 p 0 x), (take_drop_snoc seq2 q 0 y) in H3
      by (by rewrite Nat.add_0_r).
    rewrite !take_0 in H3. simplify_eq/=.
    rewrite !Nat.add_0_r, (run_unfold _ _ _ _ _ _ Hx Hy), decide_True by done.
    destruct p, q; lia.
  - destruct (lookup_lt_is_Some_2 seq1 (p + S n)) as [x Hx]; [lia|].
    destruct (lookup_lt_is_Some_2 seq2 (q + S n)) as [y Hy]; [lia|].
    rewrite (take_drop_snoc seq1 p (S n) x), (take_drop_snoc seq2 q (S n) y) in H3
      by done.
    apply app_inj_tail in H3 as [H3 ->].
    rewrite (run_unfold _ _ _ _ _ _ Hx Hy), decide_True by done.
    replace (p + S n)%nat with (S (p + n)) by lia.
    replace (q + S n)%nat with (S (q + n)) by lia.
    assert (S n <= Run (p + n) (q + n))%nat; [|lia].
    apply IH. repeat split; [lia | lia | done].
Qed.

Lemma elem_of_scan len2 i j i' :
  (i, j) ∈ scan len2 i' 0 <-> (i < i')%nat /\ (j < len2)%nat.
Proof.
  unfold scan. rewrite app_nil_r, list_elem_of_bind. split.
  - intros (k & Hin & Hk). apply list_elem_of_fmap in Hin as (j' & ? & Hj').
    simplify_eq. apply elem_of_seq in Hk, Hj'. lia.
  - intros [Hi Hj]. exists i. split.
    + apply list_elem_of_fmap. exists j. split; [done|]. apply elem_of_seq. lia.
    + apply elem_of_seq. lia.
Qed.
End Runs.

Section LcsResults.
Context {T : Type} `{EqDecision T}.
Variable m : machine.
Variables seq1 seq2 : list T.
Local Abbreviation Run := (run seq1 seq2).
Local Abbreviation Cells := (scan (length seq2) (length seq1) 0).

Lemma run_positive_iff i j :
  (0 < Run i j)%nat <-> exists x, seq1 !! i = Some x /\ seq2 !! j = Some x.
Proof.
  split.
  - intros Hpos.
    destruct (seq1 !! i) as [x|] eqn:Hx; cycle 1.
    { rewrite run_zero_outside in Hpos; [lia|]. left. by apply lookup_ge_None. }
    destruct (seq2 !! j) as [y|] eqn:Hy; cycle 1.
    { rewrite run_zero_outside in Hpos; [lia|]. right. by apply lookup_ge_None. }
    rewrite (run_unfold _ _ _ _ _ _ Hx Hy) in Hpos.
    destruct (decide (x = y)) as [->|]; [eauto | lia].
  - intros (x & Hx & Hy). rewrite (run_unfold _ _ _ _ _ _ Hx Hy), decide_True by done.
    destruct i, j; lia.
Qed.

Lemma best_positive :
  (exists x, x ∈ seq1 /\ x ∈ seq2) -> best seq1 seq2 Cells <> 0%nat.
Proof.
  intros (x & H1 & H2).
  apply list_elem_of_lookup in H1 as [i Hi], H2 as [j Hj].
  assert (Hin : (i, j) ∈ Cells).
  { apply elem_of_scan. split; by eapply lookup_lt_Some. }
  pose proof (best_ge seq1 seq2 _ _ Hin) as Hge. cbn [fst snd] in Hge.
  assert (0 < Run i j)%nat by (apply run_positive_iff; eauto). lia.
Qed.

Lemma best_zero :
  (forall x, x ∈ seq1 -> x ∉ seq2) -> best seq1 seq2 Cells = 0%nat.
Proof.
  intros Hno. destruct (decide (best seq1 seq2 Cells = 0%nat)) as [|Hne]; [done|].
  destruct (best_attained seq1 seq2 _ Hne) as ([i j] & _ & Hr). cbn [fst snd] in Hr.
  assert (Hpos : (0 < Run i j)%nat) by lia.
  apply run_positive_iff in Hpos as (x & Hx & Hy).
  destruct (Hno x); by eapply list_elem_of_lookup_2.
Qed.

Lemma elem_of_ties i j :
  best seq1 seq2 Cells <> 0%nat ->
  (Z.of_nat i, Z.of_nat j) ∈ ties seq1 seq2 Cells <->
  (i < length seq1)%nat /\ (j < length seq2)%nat /\ Run i j = best seq1 seq2 Cells.
Proof.
  intros Hne. unfold ties. rewrite list_elem_of_fmap. split.
  - intros ([i' j'] & Heq & Hin). cbn [fst snd] in Heq.
    injection Heq as E1 E2. apply Nat2Z.inj in E1, E2. subst i' j'.
    apply list_elem_of_filter in Hin as [Hr Hin]. apply elem_of_scan in Hin.
    cbn [fst snd] in Hr. tauto.
  - intros (Hi & Hj & Hr). exists (i, j). split; [done|].
    apply list_elem_of_filter. split; [done|]. by apply elem_of_scan.
Qed.

(** With a common element the call returns the length of the longest run
    and the cells where a run of that length ends. *)
Lemma lcsubstrings_longest (max_len0 : Z) :
  malloc_ok m 0 = true -> (length seq2 <= length seq1)%nat ->
  (exists x, x ∈ seq1 /\ x ∈ seq2) ->
  lcsubstrings native m seq1 seq2 max_len0
  = Value (Some (ties seq1 seq2 Cells), Z.of_nat (best seq1 seq2 Cells)).
Proof.
  intros Hm0 Hle Hcommon.
  assert (Hpos : (0 < length seq2)%nat).
  { destruct Hcommon as (x & _ & Hx). destruct seq2; [inv Hx | simpl; lia]. }
  destruct (lcsubstrings_native m seq1 seq2 max_len0 Hm0) as (mlen & stack & -> & Ht);
    [lia|].
  unfold tally in Ht. rewrite decide_False in Ht by by apply best_positive.
  by destruct Ht as [-> ->].
Qed.

(** Without one, and with both operands non-empty, it returns [-1] as the
    length. *)
Lemma lcsubstrings_nothing_shared (max_len0 : Z) :
  malloc_ok m 0 = true -> (0 < length seq2 <= length seq1)%nat ->
  (forall x, x ∈ seq1 -> x ∉ seq2) ->
  lcsubstrings native m seq1 seq2 max_len0 = Value (Some [], -1).
Proof.
  intros Hm0 Hlen Hno.
  destruct (lcsubstrings_native m seq1 seq2 max_len0 Hm0 Hlen) as (mlen & stack & -> & Ht).
  unfold tally in Ht. rewrite decide_True in Ht by by apply best_zero.
  by destruct Ht as [-> ->].
Qed.

(** The longest run is the length of the longest common substring. *)
Lemma best_longest_common :
  best seq1 seq2 Cells <> 0%nat ->
  (exists p q, common seq1 seq2 p q (best seq1 seq2 Cells)) /\
  (forall p q n, common seq1 seq2 p q n -> (n <= best seq1 seq2 Cells)%nat).
Proof.
  intros Hne. split.
  - destruct (best_attained seq1 seq2 _ Hne) as ([i j] & Hin & Hr).
    apply elem_of_scan in Hin as [Hi Hj]. cbn [fst snd] in Hr.
    exists (S i - best seq1 seq2 Cells)%nat, (S j - best seq1 seq2 Cells)%nat.
    apply run_common; [done | done | lia].
  - intros p q [|n] Hc; [lia|].
    pose proof (common_run seq1 seq2 p q n Hc) as Hrun.
    destruct Hc as (H1 & H2 & _).
    assert (Hin : ((p + n)%nat, (q + n)%nat) ∈ Cells) by (apply elem_of_scan; lia).
    pose proof (best_ge seq1 seq2 _ _ Hin) as Hge. cbn [fst snd] in Hge. lia.
Qed.
End LcsResults.

(** A cell ends a run of the maximal length exactly when a common
    substring of that length ends there. *)
Lemma run_best_common {T} `{EqDecision T} (seq1 seq2 : list T) (i j : nat) :
  let mlen := best seq1 seq2 (scan (length seq2) (length seq1) 0) in
  mlen <> 0%nat ->
  ((i < length seq1)%nat /\ (j < length seq2)%nat /\ run seq1 seq2 i j = mlen) <->
  ((mlen <= S i)%nat /\ (mlen <= S j)%nat /\
   common seq1 seq2 (S i - mlen) (S j - mlen) mlen).
Proof.
  intros mlen Hne. split.
  - intros (Hi & Hj & Hr). pose proof (run_bound seq1 seq2 i j) as [Hb1 Hb2].
    split; [lia|]. split; [lia|]. rewrite <- Hr. by apply run_common.
  - intros (Hb1 & Hb2 & Hc).
    destruct mlen as [|n] eqn:Hm; [done|].
    pose proof (common_run seq1 seq2 _ _ n Hc) as Hrun.
    destruct Hc as (H1 & H2 & _).
    replace (S i - S n + n)%nat with i in Hrun by lia.
    replace (S j - S n + n)%nat with j in Hrun by lia.
    assert (Hin : (i, j) ∈ scan (length seq2) (length seq1) 0)
      by (apply elem_of_scan; lia).
    pose proof (best_ge seq1 seq2 _ _ Hin) as Hge. cbn [fst snd] in Hge.
    fold mlen in Hge. lia.
Qed.

(** C4: on ordered operands that share an element, the stack returned by
    [lcsubstrings] holds the position pair (end in [seq1], end in [seq2])
    of every cell whose run attains the maximum [mlen] over all cells,
    that is, of every cell at which a common substring of the greatest
    length ends, and nothing else; it lists them in the order of the
    scan, as resetting on a longer run and appending on a tie produce
    it. *)
Theorem lcsubstrings_tie_enumeration {T} `{EqDecision T} (m : machine)
    (seq1 seq2 : list T) (max_len0 : Z) :
  malloc_ok m 0 = true -> (length seq2 <= length seq1)%nat ->
  (exists x, x ∈ seq1 /\ x ∈ seq2) ->
  exists (mlen : nat) (stack : list (Z * Z)),
    lcsubstrings native m seq1 seq2 max_len0 = Value (Some stack, Z.of_nat mlen) /\
    (0 < mlen)%nat /\
    (forall i j, (run seq1 seq2 i j <= mlen)%nat) /\
    (forall p q n, common seq1 seq2 p q n -> (n <= mlen)%nat) /\
    (forall i j, (Z.of_nat i, Z.of_nat j) ∈ stack <->
       (i < length seq1)%nat /\ (j < length seq2)%nat /\ run seq1 seq2 i j = mlen) /\
    (forall i j, (Z.of_nat i, Z.of_nat j) ∈ stack <->
       (mlen <= S i)%nat /\ (mlen <= S j)%nat /\
       common seq1 seq2 (S i - mlen) (S j - mlen) mlen) /\
    (forall p, p ∈ stack -> exists i j, p = (Z.of_nat i, Z.of_nat j)) /\
    stack = ties seq1 seq2 (scan (length seq2) (length seq1) 0).
Proof.
  intros Hm0 Hle Hcommon.
  pose proof (best_positive seq1 seq2 Hcommon) as Hne.
  exists (best seq1 seq2 (scan (length seq2) (length seq1) 0)),
         (ties seq1 seq2 (scan (length seq2) (length seq1) 0)).
  split; [by apply lcsubstrings_longest|]. split; [lia|].
  split; [|split; [|split; [|split; [|split]]]].
  - intros i j.
    destruct (decide (i < length seq1 /\ j < length seq2)%nat) as [[Hi Hj]|Hout].
    + assert (Hin : (i, j) ∈ scan (length seq2) (length seq1) 0)
        by (by apply elem_of_scan).
      apply (best_ge seq1 seq2 _ _ Hin).
    + rewrite run_zero_outside by lia. lia.
  - by apply best_longest_common.
  - intros i j. by apply elem_of_ties.
  - intros i j. rewrite elem_of_ties by done. by apply run_best_common.
  - intros p Hp. unfold ties in Hp. apply list_elem_of_fmap in Hp as ([i j] & -> & _).
    by exists i, j.
  - reflexivity.
Qed.

Lemma lcsubstrings_tie_enumeration_witness :
  (malloc_ok checked 0 = true /\
   (length (chars "ab") <= length (chars "abab"))%nat /\
   (exists x, x ∈ chars "abab" /\ x ∈ chars "ab")) /\
  exists (mlen : nat) (stack : list (Z * Z)),
    lcsubstrings native checked (chars "abab") (chars "ab") (-1)
      = Value (Some stack, Z.of_nat mlen) /\
    (0 < mlen)%nat /\
    (forall i j, (run (chars "abab") (chars "ab") i j <= mlen)%nat) /\
    (forall p q n, common (chars "abab") (chars "ab") p q n -> (n <= mlen)%nat) /\
    (forall i j, (Z.of_nat i, Z.of_nat j) ∈ stack <->
       (i < length (chars "abab"))%nat /\ (j < length (chars "ab"))%nat
       /\ run (chars "abab") (chars "ab") i j = mlen) /\
    (forall i j, (Z.of_nat i, Z.of_nat j) ∈ stack <->
       (mlen <= S i)%nat /\ (mlen <= S j)%nat /\
       common (chars "abab") (chars "ab") (S i - mlen) (S j - mlen) mlen) /\
    (forall p, p ∈ stack -> exists i j, p = (Z.of_nat i, Z.of_nat j)) /\
    stack = ties (chars "abab") (chars "ab")
              (scan (length (chars "ab")) (length (chars "abab")) 0).
Proof.
  assert (Hc : exists x, x ∈ chars "abab" /\ x ∈ chars "ab").
  { exists "a"%char. split; apply list_elem_of_here. }
  split; [split; [reflexivity | split; [simpl; lia | exact Hc]] |].
  apply (lcsubstrings_tie_enumeration checked (chars "abab") (chars "ab") (-1));
    [reflexivity | simpl; lia | exact Hc].
Defined.

(** C3 (the claim fails on the code): on two non-empty sequences without
    a common element the length handed back is [-1], not [0]: [mlen]
    starts at [-1] and only a match raises it, while the sibling exit for
    an empty operand sets [*max_len = 0]. This is so on all such inputs
    ([lcsubstrings_nothing_shared]); where an element is shared the
    length is that of the longest common substring
    ([lcsubstrings_longest], [best_longest_common]). *)
Theorem lcsubstrings_length_without_match :
  lcsubstrings native checked (chars "abc") (chars "xyz") (-1) = Value (Some [], -1) /\
  lcsubstrings_py native checked (chars "abc") (chars "xyz") true
    = Ok (Positions (-1) []) /\
  lcsubstrings_py native checked (chars "abc") (chars "") true = Ok (Positions 0 []).
Proof. repeat split; vm_compute; reflexivity. Qed.

(** Where the entry point does not swap its operands, every start pair it
    returns slices both sequences to the same substring of the returned
    length. *)
Lemma lcsubstrings_py_starts {T} `{EqDecision T} (m : machine) (A B : list T) :
  malloc_ok m 0 = true -> (length B <= length A)%nat ->
  (exists x, x ∈ A /\ x ∈ B) ->
  exists (mlen : nat) (starts : list (Z * Z)),
    lcsubstrings_py native m A B true = Ok (Positions (Z.of_nat mlen) starts) /\
    forall s, s ∈ starts ->
      exists p q, s = (Z.of_nat p, Z.of_nat q) /\ common A B p q mlen.
Proof.
  intros Hm0 Hle Hcommon. unfold lcsubstrings_py.
  replace (len A <? len B) with false by (symmetry; apply Z.ltb_ge; unfold len; lia).
  rewrite lcsubstrings_longest by done. cbn [lcsubstrings_py_make_tuple fst snd].
  eexists _, _. split; [reflexivity|].
  intros s Hs. apply list_elem_of_fmap in Hs as ([i j] & -> & Hin). cbn [fst snd].
  unfold ties in Hin. apply list_elem_of_fmap in Hin as ([i' j'] & Heq & Hin).
  cbn [fst snd] in Heq. simplify_eq.
  apply list_elem_of_filter in Hin as [Hr Hin]. cbn [fst snd] in Hr.
  apply elem_of_scan in Hin as [Hi Hj].
  pose proof (run_bound A B i' j') as [Hb1 Hb2].
  exists (S i' - run A B i' j')%nat, (S j' - run A B i' j')%nat.
  rewrite <- Hr. split; [f_equal; lia|].
  by apply run_common.
Qed.

(** A call whose first operand is the shorter one is answered as the call
    with the operands exchanged: the positions stay in the engine's
    order. *)
Lemma lcsubstrings_py_exchanged {T} (COMP : T -> T -> Z) (m : machine)
    (A B : list T) (positions : bool) :
  (length A < length B)%nat ->
  lcsubstrings_py COMP m A B positions = lcsubstrings_py COMP m B A positions.
Proof.
  intros Hlt. unfold lcsubstrings_py.
  replace (len A <? len B) with true by (symmetry; apply Z.ltb_lt; unfold len; lia).
  replace (len B <? len A) with false by (symmetry; apply Z.ltb_ge; unfold len; lia).
  reflexivity.
Qed.

(** C5 (the claim fails on the code): with the shorter sequence first, the
    pair returned is (start in the caller's [seq2], start in the caller's
    [seq1]); read in caller order it does not slice the inputs to equal
    substrings. [lcsubstrings_py] swaps its operands and
    [lcsubstrings_py_make_tuple] emits [pair->i] and [pair->j] without
    swapping back, against the documented
    [(start pos in seq1, start pos in seq2)]. *)
Theorem lcsubstrings_py_positions_not_translated :
  lcsubstrings_py native checked (chars "dentist") (chars "sedentar") true
    = Ok (Positions 4 [(2, 0)]) /\
  lcsubstrings_py native checked (chars "sedentar") (chars "dentist") true
    = Ok (Positions 4 [(2, 0)]) /\
  slice (chars "dentist") 2 6 <> slice (chars "sedentar") 0 4 /\
  slice (chars "dentist") 0 4 = slice (chars "sedentar") 2 6.
Proof.
  split; [vm_compute; reflexivity|]. split; [vm_compute; reflexivity|].
  split; [vm_compute; discriminate | vm_compute; reflexivity].
Qed.

(** ** Failure reports *)

Section Failures.
Context {T : Type}.
Variable SEQUENCE_COMP : T -> T -> Z.
Variable m : machine.
Variables seq1 seq2 : list T.
Hypothesis Hlen : (0 < length seq2 <= length seq1)%nat.

Lemma levenshtein_ordered_starved (max_dist : Z) :
  malloc_ok m 0 = false -> max_dist < 0 ->
  levenshtein_ordered SEQUENCE_COMP m seq1 seq2 (len seq1) (len seq2) max_dist
  = Return (-2).
Proof using Hlen.
  intros Hm0 Hmd. unfold levenshtein_ordered, len, malloc.
  replace (max_dist >=? 0) with false by (symmetry; rewrite Z.geb_leb; apply Z.leb_gt; lia).
  replace (Z.of_nat (length seq1) =? 0) with false by (symmetry; apply Z.eqb_neq; lia).
  replace (Z.of_nat (length seq2) =? 0) with false by (symmetry; apply Z.eqb_neq; lia).
  by rewrite Hm0.
Qed.

Lemma levenshtein_starved (max_dist : Z) :
  malloc_ok m 0 = false -> max_dist < 0 ->
  levenshtein SEQUENCE_COMP m seq1 seq2 max_dist = Value (-2).
Proof using Hlen.
  intros Hm0 Hmd. unfold levenshtein.
  replace (len seq1 <? len seq2) with false
    by (symmetry; apply Z.ltb_ge; unfold len; lia).
  by rewrite levenshtein_ordered_starved.
Qed.

Lemma nlevenshtein_starved_method1 :
  malloc_ok m 0 = false ->
  nlevenshtein SEQUENCE_COMP m seq1 seq2 1 = Value (Real (-2)).
Proof using Hlen.
  intros Hm0. unfold nlevenshtein, len.
  replace (Z.of_nat (length seq1) >=? Z.of_nat (length seq2)) with true
    by (symmetry; apply Z.geb_le; lia).
  replace (Z.of_nat (length seq1) =? 0) with false by (symmetry; apply Z.eqb_neq; lia).
  replace (Z.of_nat (length seq2) =? 0) with false by (symmetry; apply Z.eqb_neq; lia).
  cbn [assert return_if bind Z.eqb].
  by rewrite levenshtein_starved by (done || lia).
Qed.

Lemma nlevenshtein_starved_method2 :
  malloc_ok m 0 = false ->
  nlevenshtein SEQUENCE_COMP m seq1 seq2 2 = Value (Real (-1)).
Proof using Hlen.
  intros Hm0. unfold nlevenshtein, len, malloc.
  replace (Z.of_nat (length seq1) >=? Z.of_nat (length seq2)) with true
    by (symmetry; apply Z.geb_le; lia).
  replace (Z.of_nat (length seq1) =? 0) with false by (symmetry; apply Z.eqb_neq; lia).
  replace (Z.of_nat (length seq2) =? 0) with false by (symmetry; apply Z.eqb_neq; lia).
  cbn [assert return_if bind Z.eqb]. by rewrite Hm0.
Qed.
End Failures.

Section OracleFailures.
Context {T : Type}.
Variable m : machine.
Variables seq1 seq2 : list T.
Hypothesis Hlen : (0 < length seq2 <= length seq1)%nat.
Hypothesis Hm0 : malloc_ok m 0 = true.

(** An oracle that raises on every comparison. *)
Local Abbreviation raising := (fun _ _ : T => -1).

Lemma lcsubstrings_raising (max_len0 : Z) :
  lcsubstrings raising m seq1 seq2 max_len0 = Value (None, max_len0).
Proof using Hlen Hm0.
  unfold lcsubstrings, len.
  replace (Z.of_nat (length seq1) >=? Z.of_nat (length seq2)) with true
    by (symmetry; apply Z.geb_le; lia).
  replace (Z.of_nat (length seq2) =? 0) with false by (symmetry; apply Z.eqb_neq; lia).
  cbn [assert return_if bind]. unfold malloc. rewrite Hm0.
  loop_rule (fun (n : nat) (c : list Z) => length c = S (length seq2))
            (fun _ : option (list (Z * Z)) * Z => False) 0 (length seq2) Hinit.
  apply loop_post_next in Hinit as (column0 & -> & Hlen0); cycle 1.
  { rewrite length_fmap, length_seqZ. lia. }
  { intros n c Hn Hc. rewrite Z.add_0_l, store_inside by lia.
    cbn [loop_post]. by rewrite length_insert. }
  cbn [bind].
  rewrite (for_each_first 0 (Z.of_nat (length seq1))) by lia.
  rewrite (for_each_first 0 (Z.of_nat (length seq2))) by lia.
  unfold lcsubstrings_cell at 1.
  destruct (lookup_lt_is_Some_2 column0 0) as [old Hold]; [lia|].
  destruct (lookup_lt_is_Some_2 seq1 0) as [x Hx]; [lia|].
  destruct (lookup_lt_is_Some_2 seq2 0) as [y Hy]; [lia|].
  rewrite (load_inside m column0 0 old Hold). cbn [bind].
  rewrite (item_inside seq1 0 x Hx), (item_inside seq2 0 y Hy). reflexivity.
Qed.

Lemma levenshtein_raising (max_dist : Z) :
  max_dist < 0 ->
  levenshtein raising m seq1 seq2 max_dist = Value (-3).
Proof using Hlen Hm0.
  intros Hmd. unfold levenshtein.
  replace (len seq1 <? len seq2) with false
    by (symmetry; apply Z.ltb_ge; unfold len; lia).
  unfold levenshtein_ordered, len, malloc.
  replace (max_dist >=? 0) with false by (symmetry; rewrite Z.geb_leb; apply Z.leb_gt; lia).
  replace (Z.of_nat (length seq1) =? 0) with false by (symmetry; apply Z.eqb_neq; lia).
  replace (Z.of_nat (length seq2) =? 0) with false by (symmetry; apply Z.eqb_neq; lia).
  cbn [andb return_if bind]. rewrite Hm0.
  loop_rule (fun (n : nat) (c : list Z) => length c = S (length seq2))
            (fun _ : Z => False) 1 (length seq2) Hinit.
  apply loop_post_next in Hinit as (column0 & -> & Hlen0); cycle 1.
  { rewrite length_fmap, length_seqZ. lia. }
  { intros n c Hn Hc.
    replace (1 + Z.of_nat n) with (Z.of_nat (S n)) by lia.
    rewrite store_inside by lia. cbn [loop_post]. by rewrite length_insert. }
  cbn [bind].
  rewrite (for_each_first 1 (Z.of_nat (length seq1))) by lia.
  unfold levenshtein_row at 1.
  rewrite (store_inside column0 0) by lia. cbn [bind].
  rewrite (for_each_first 1 (Z.of_nat (length seq2))) by lia.
  unfold levenshtein_cell at 1.
  destruct (lookup_lt_is_Some_2 (<[0%nat := 1]> column0) 1) as [old Hold];
    [rewrite length_insert; lia|].
  destruct (lookup_lt_is_Some_2 seq1 0) as [x Hx]; [lia|].
  destruct (lookup_lt_is_Some_2 seq2 0) as [y Hy]; [lia|].
  rewrite (load_inside m _ 1 old Hold). cbn [bind].
  change (1 - 1) with (Z.of_nat 0).
  rewrite (item_inside seq1 0 x Hx), (item_inside seq2 0 y Hy). reflexivity.
Qed.
End OracleFailures.

Lemma levenshtein_exchanged {T} (COMP : T -> T -> Z) (m : machine)
    (A B : list T) (max_dist : Z) :
  (length A < length B)%nat ->
  levenshtein COMP m A B max_dist = levenshtein COMP m B A max_dist.
Proof.
  intros Hlt. unfold levenshtein.
  replace (len A <? len B) with true by (symmetry; apply Z.ltb_lt; unfold len; lia).
  replace (len B <? len A) with false by (symmetry; apply Z.ltb_ge; unfold len; lia).
  reflexivity.
Qed.

Lemma nlevenshtein_py_exchanged {T} (COMP : T -> T -> Z) (m : machine)
    (A B : list T) (method : Z) :
  (length A < length B)%nat ->
  nlevenshtein_py COMP m A B method = nlevenshtein_py COMP m B A method.
Proof.
  intros Hlt. unfold nlevenshtein_py.
  replace (len A <? len B) with true by (symmetry; apply Z.ltb_lt; unfold len; lia).
  replace (len B <? len A) with false by (symmetry; apply Z.ltb_ge; unfold len; lia).
  reflexivity.
Qed.

Section Reports.
Context {T : Type}.
Variable COMP : T -> T -> Z.
Variables (jk : Z -> Z) (st : Z -> option Z).
Local Abbreviation starving := (Machine (fun _ => false) jk st).
Local Abbreviation working := (Machine (fun _ => true) jk st).
Local Abbreviation raising := (fun _ _ : T => -1).

Lemma nlevenshtein_py_starved_method1 (A B : list T) :
  (0 < length B <= length A)%nat ->
  nlevenshtein_py COMP starving A B 1 = Raise ComparisonFailed.
Proof.
  intros Hlen. unfold nlevenshtein_py. cbn [Z.eqb negb andb].
  replace (len A <? len B) with false by (symmetry; apply Z.ltb_ge; unfold len; lia).
  by rewrite nlevenshtein_starved_method1.
Qed.

Lemma nlevenshtein_py_starved_method2 (A B : list T) :
  (0 < length B <= length A)%nat ->
  nlevenshtein_py COMP starving A B 2 = Raise OutOfMemory.
Proof.
  intros Hlen. unfold nlevenshtein_py. cbn [Z.eqb negb andb].
  replace (len A <? len B) with false by (symmetry; apply Z.ltb_ge; unfold len; lia).
  by rewrite nlevenshtein_starved_method2.
Qed.

Lemma lcsubstrings_py_raising (A B : list T) (positions : bool) :
  (0 < length B <= length A)%nat ->
  lcsubstrings_py raising working A B positions = Raise OutOfMemory.
Proof.
  intros Hlen. unfold lcsubstrings_py.
  replace (len A <? len B) with false by (symmetry; apply Z.ltb_ge; unfold len; lia).
  by rewrite lcsubstrings_raising.
Qed.

(** C6 (the claim fails on the code): the two failure kinds are conflated
    in two places. With method 1 an allocation failure comes back from
    [levenshtein] as [-2], which [nlevenshtein] passes on and
    [nlevenshtein_py] reads as a comparison failure, its own code for an
    allocation failure being [-1]; and [lcsubstrings] returns [NULL] on a
    comparison failure as on an allocation failure, which
    [lcsubstrings_py] reports as out of memory. Method 2 and
    [levenshtein] keep the two apart. This holds for all non-empty
    operands. *)
Theorem failure_kinds_conflated (x y : T) (A B : list T) :
  nlevenshtein_py COMP starving (x :: A) (y :: B) 1 = Raise ComparisonFailed /\
  (forall positions,
     lcsubstrings_py raising working (x :: A) (y :: B) positions = Raise OutOfMemory) /\
  nlevenshtein_py COMP starving (x :: A) (y :: B) 2 = Raise OutOfMemory /\
  levenshtein_py COMP starving (x :: A) (y :: B) false (-1) = Raise OutOfMemory /\
  levenshtein_py raising working (x :: A) (y :: B) false (-1) = Raise ComparisonFailed.
Proof.
  destruct (decide (length (x :: A) < length (y :: B))%nat) as [Hlt|Hge].
  - rewrite !(nlevenshtein_py_exchanged _ _ (x :: A)) by done.
    unfold levenshtein_py. rewrite !(levenshtein_exchanged _ _ (x :: A)) by done.
    rewrite nlevenshtein_py_starved_method1, nlevenshtein_py_starved_method2
      by (simpl in *; lia).
    rewrite levenshtein_starved, levenshtein_raising by (simpl in *; (done || lia)).
    repeat split. intros positions.
    rewrite lcsubstrings_py_exchanged by done.
    apply lcsubstrings_py_raising. simpl in *; lia.
  - unfold levenshtein_py.
    rewrite nlevenshtein_py_starved_method1, nlevenshtein_py_starved_method2
      by (simpl in *; lia).
    rewrite levenshtein_starved, levenshtein_raising by (simpl in *; (done || lia)).
    repeat split. intros positions.
    apply lcsubstrings_py_raising. simpl in *; lia.
Qed.
End Reports.

(** ** The bounded comparator *)

(** *** More on the edit distance *)

Section Greedy.
Context {T : Type} `{EqDecision T}.
Implicit Types a b : list T.

(** Dropping the head of the target costs at most one more edit. *)
Lemma edits_uncons_r a y b n :
  edits a (y :: b) n -> exists n', edits a b n' /\ (n' <= S n)%nat.
Proof.
  remember (y :: b) as bb eqn:Hbb. intros He. revert y b Hbb.
  induction He as [|x a0 b0 n He _|x y0 a0 b0 n He _|x a0 b0 n He IH|y0 a0 b0 n He _];
    intros y b Hbb; simplify_eq.
  - exists (S n). split; [by apply edits_delete | lia].
  - exists (S n). split; [by apply edits_delete | lia].
  - destruct (IH y b eq_refl) as (n' & He' & Hle).
    exists (S n'). split; [by apply edits_delete | lia].
  - exists n. split; [done | lia].
Qed.

Lemma lev_uncons_r a y b : (lev a b <= S (lev a (y :: b)))%nat.
Proof.
  destruct (edits_uncons_r a y b _ (edits_lev a (y :: b))) as (n' & He & Hle).
  pose proof (lev_le_edits _ _ _ He). lia.
Qed.

Lemma lev_uncons_l x a b : (lev a b <= S (lev (x :: a) b))%nat.
Proof. rewrite (lev_sym a b), (lev_sym (x :: a) b). apply lev_uncons_r. Qed.

(** Equal heads can always be matched. *)
Lemma lev_cons_same x a b : lev (x :: a) (x :: b) = lev a b.
Proof.
  rewrite lev_cons. unfold mismatch. rewrite decide_True by done.
  pose proof (lev_uncons_r a x b). pose proof (lev_uncons_l x a b). lia.
Qed.

Lemma lev_cons_diff x y a b :
  x <> y ->
  lev (x :: a) (y :: b) =
  S (Nat.min (Nat.min (lev a (y :: b)) (lev (x :: a) b)) (lev a b)).
Proof.
  intros Hne. rewrite lev_cons. unfold mismatch. rewrite decide_False by done. lia.
Qed.

(** *** Scripts *)

Lemma fit_same ops x a b : fit ops (x :: a) (x :: b) = fit ops a b.
Proof. destruct ops; simpl; by rewrite decide_True. Qed.

Lemma fit_diff o ops x y a b :
  x <> y ->
  fit (o :: ops) (x :: a) (y :: b) =
  S <$> (if decide (o = "d"%char) then fit ops a (y :: b)
         else if decide (o = "i"%char) then fit ops (x :: a) b
         else fit ops a b).
Proof. intros Hne. simpl. by rewrite decide_False. Qed.

Lemma fit_diff_nil x y a b : x <> y -> fit [] (x :: a) (y :: b) = None.
Proof. intros Hne. simpl. by rewrite decide_False. Qed.

Lemma fit_nil_r ops x a :
  fit ops (x :: a) [] =
  if decide (length (x :: a) <= deletions ops)%nat then Some (length (x :: a)) else None.
Proof. by destruct ops. Qed.

Lemma fit_nil_l ops y b :
  fit ops [] (y :: b) =
  if decide (length (y :: b) <= insertion_next ops)%nat then Some (length (y :: b)) else None.
Proof. by destruct ops. Qed.

Lemma fit_nil_nil ops : fit ops (@nil T) [] = Some 0%nat.
Proof. by destruct ops. Qed.

(** A script that fits is an edit script: its count bounds the distance. *)
Lemma fit_sound ops a b n : fit ops a b = Some n -> (lev a b <= n)%nat.
Proof.
  revert a b n. induction ops as [|o ops IHops]; intros a.
  - induction a as [|x a IHa]; intros [|y b] n Hfit.
    + rewrite fit_nil_nil in Hfit. simplify_eq. by rewrite lev_nil_l.
    + rewrite fit_nil_l in Hfit. case_decide; simplify_eq. by rewrite lev_nil_l.
    + rewrite fit_nil_r in Hfit. case_decide; simplify_eq. by rewrite lev_nil_r.
    + destruct (decide (x = y)) as [->|Hne].
      * rewrite fit_same in Hfit. rewrite lev_cons_same. by apply IHa.
      * by rewrite fit_diff_nil in Hfit.
  - induction a as [|x a IHa]; intros [|y b] n Hfit.
    + rewrite fit_nil_nil in Hfit. simplify_eq. by rewrite lev_nil_l.
    + rewrite fit_nil_l in Hfit. case_decide; simplify_eq. by rewrite lev_nil_l.
    + rewrite fit_nil_r in Hfit. case_decide; simplify_eq. by rewrite lev_nil_r.
    + destruct (decide (x = y)) as [->|Hne].
      * rewrite fit_same in Hfit. rewrite lev_cons_same. by apply IHa.
      * rewrite fit_diff in Hfit by done. rewrite lev_cons_diff by done.
        apply fmap_Some in Hfit as (n' & Hfit & ->).
        repeat case_decide; apply IHops in Hfit; lia.
Qed.

(** Equal sequences fit every script at no cost. *)
Lemma fit_refl ops a : fit ops a a = Some 0%nat.
Proof.
  induction a as [|x a IH]; [apply fit_nil_nil | by rewrite fit_same].
Qed.
End Greedy.

(** *** The catalogue of scripts is complete up to distance 2 *)

Lemma min3_cases (p q r : nat) :
  Nat.min (Nat.min p q) r = p \/ Nat.min (Nat.min p q) r = q
  \/ Nat.min (Nat.min p q) r = r.
Proof. lia. Qed.

Section Catalogue.
Context {T : Type} `{EqDecision T}.
Implicit Types a b : list T.
Local Open Scope char_scope.

(** One operation left. *)
Lemma fit_one_replace ops a b :
  length a = length b -> (lev a b <= 1)%nat ->
  fit ("r" :: ops) a b = Some (lev a b).
Proof.
  revert b. induction a as [|x a IH]; intros [|y b] Hlen Hlev; simpl in Hlen; try lia.
  - by rewrite fit_nil_nil.
  - destruct (decide (x = y)) as [->|Hne].
    + rewrite fit_same, lev_cons_same in *. apply IH; [lia | done].
    + rewrite lev_cons_diff in * by done.
      pose proof (lev_length_gap a (y :: b)). pose proof (lev_length_gap (x :: a) b).
      assert (Hz : lev a b = 0%nat) by (simpl in *; lia).
      rewrite fit_diff by done. cbn [decide].
      rewrite !decide_False by done.
      apply lev_zero in Hz as ->. rewrite fit_refl. cbn [fmap option_fmap option_map].
      f_equal. rewrite lev_refl. lia.
Qed.

Lemma deletions_cons_d ops : deletions ("d" :: ops) = S (deletions ops).
Proof. unfold deletions. by rewrite filter_cons_True. Qed.

Lemma fit_one_delete ops a b :
  length a = S (length b) -> (lev a b <= 1)%nat ->
  fit ("d" :: ops) a b = Some (lev a b).
Proof.
  revert b. induction a as [|x a IH]; intros [|y b] Hlen Hlev; simpl in Hlen; try lia.
  - destruct a; [|discriminate]. rewrite fit_nil_r, deletions_cons_d.
    rewrite decide_True by (simpl; lia). by rewrite lev_nil_r.
  - destruct (decide (x = y)) as [->|Hne].
    + rewrite fit_same, lev_cons_same in *. apply IH; [lia | done].
    + rewrite lev_cons_diff in * by done.
      pose proof (lev_length_gap a b). pose proof (lev_length_gap (x :: a) b).
      assert (Hz : lev a (y :: b) = 0%nat) by (simpl in *; lia).
      rewrite fit_diff by done. rewrite decide_True by done.
      apply lev_zero in Hz as ->. rewrite fit_refl. cbn [fmap option_fmap option_map].
      f_equal. rewrite lev_refl. lia.
Qed.

Lemma fit_one_insert ops a b :
  S (length a) = length b -> (lev a b <= 1)%nat ->
  fit ("i" :: ops) a b = Some (lev a b).
Proof.
  revert b. induction a as [|x a IH]; intros [|y b] Hlen Hlev; simpl in Hlen; try lia.
  - destruct b; [|discriminate]. rewrite fit_nil_l. cbn [insertion_next].
    rewrite !decide_True by (done || (simpl; lia)). by rewrite lev_nil_l.
  - destruct (decide (x = y)) as [->|Hne].
    + rewrite fit_same, lev_cons_same in *. apply IH; [lia | done].
    + rewrite lev_cons_diff in * by done.
      pose proof (lev_length_gap a b). pose proof (lev_length_gap a (y :: b)).
      assert (Hz : lev (x :: a) b = 0%nat) by (simpl in *; lia).
      rewrite fit_diff by done. rewrite decide_False, decide_True by done.
      apply lev_zero in Hz as <-. rewrite fit_refl. cbn [fmap option_fmap option_map].
      f_equal. rewrite lev_refl. lia.
Qed.

(** Two operations left, by the difference of the lengths. *)
Lemma fit_two_level a b :
  length a = length b -> (lev a b <= 2)%nat ->
  fit ["r"; "r"] a b = Some (lev a b) \/
  fit ["d"; "i"] a b = Some (lev a b) \/
  fit ["i"; "d"] a b = Some (lev a b).
Proof.
  revert b. induction a as [|x a IH]; intros [|y b] Hlen Hlev; simpl in Hlen; try lia.
  - left. by rewrite fit_nil_nil.
  - destruct (decide (x = y)) as [->|Hne].
    + rewrite !fit_same, lev_cons_same in *. apply IH; [lia | done].
    + rewrite lev_cons_diff in * by done. rewrite !fit_diff by done.
      rewrite !(decide_True (P := "d" = "d")), !(decide_True (P := "i" = "i")) by done.
      rewrite !(decide_False (P := "r" = "d")), !(decide_False (P := "r" = "i")),
        !(decide_False (P := "i" = "d")) by done.
      destruct (min3_cases (lev a (y :: b)) (lev (x :: a) b) (lev a b))
        as [Hm|[Hm|Hm]]; rewrite Hm in *.
      * right; left. by rewrite fit_one_insert by (simpl; lia).
      * right; right. by rewrite fit_one_delete by (simpl; lia).
      * left. by rewrite fit_one_replace by lia.
Qed.

Lemma fit_two_longer a b :
  length a = S (length b) -> (lev a b <= 2)%nat ->
  fit ["r"; "d"] a b = Some (lev a b) \/
  fit ["d"; "r"] a b = Some (lev a b).
Proof.
  revert b. induction a as [|x a IH]; intros [|y b] Hlen Hlev; simpl in Hlen; try lia.
  - destruct a; [|discriminate]. left. rewrite fit_nil_r.
    rewrite decide_True by (vm_compute; lia). by rewrite lev_nil_r.
  - destruct (decide (x = y)) as [->|Hne].
    + rewrite !fit_same, lev_cons_same in *. apply IH; [lia | done].
    + rewrite lev_cons_diff in * by done. rewrite !fit_diff by done.
      rewrite !(decide_True (P := "d" = "d")) by done.
      rewrite !(decide_False (P := "r" = "d")), !(decide_False (P := "r" = "i")) by done.
      pose proof (lev_length_gap (x :: a) b) as Hgap.
      destruct (min3_cases (lev a (y :: b)) (lev (x :: a) b) (lev a b))
        as [Hm|[Hm|Hm]]; rewrite Hm in *.
      * right. by rewrite fit_one_replace by (simpl; lia).
      * simpl in *. lia.
      * left. by rewrite fit_one_delete by lia.
Qed.

Lemma fit_two_longest a b :
  length a = S (S (length b)) -> (lev a b <= 2)%nat ->
  fit ["d"; "d"] a b = Some (lev a b).
Proof.
  revert b. induction a as [|x a IH]; intros [|y b] Hlen Hlev; simpl in Hlen; try lia.
  - destruct a as [|x' [|]]; try discriminate. rewrite fit_nil_r.
    rewrite decide_True by (vm_compute; lia). by rewrite lev_nil_r.
  - destruct (decide (x = y)) as [->|Hne].
    + rewrite !fit_same, lev_cons_same in *. apply IH; [lia | done].
    + rewrite lev_cons_diff in * by done. rewrite !fit_diff by done.
      rewrite !(decide_True (P := "d" = "d")) by done.
      pose proof (lev_length_gap (x :: a) b) as Hgap.
      pose proof (lev_length_gap a b) as Hgap'.
      destruct (min3_cases (lev a (y :: b)) (lev (x :: a) b) (lev a b))
        as [Hm|[Hm|Hm]]; rewrite Hm in *.
      * by rewrite fit_one_delete by (simpl; lia).
      * simpl in *. lia.
      * simpl in *. lia.
Qed.
End Catalogue.


(** *** The walk follows the script *)

Section Walk.
Context {T : Type} `{EqDecision T}.
Variables seq1 seq2 : list T.
Variable ldiff : Z.
Variables m0 m1 : ascii.
Local Abbreviation ops := [m0; m1].
Local Abbreviation model := [m0; m1; zero].

Lemma walk_fit (fuel : nat) :
  forall i j c : nat,
  (i <= length seq1)%nat -> (j <= length seq2)%nat -> (c <= 2)%nat ->
  (length seq1 - i + (length seq2 - j) < fuel)%nat ->
  exists oc,
    (let* w := fastcomp_walk native fuel seq1 seq2 (len seq1) (len seq2) false ldiff
                 model (Z.of_nat i) (Z.of_nat j) (Z.of_nat c) in
     fastcomp_tail (len seq1) (len seq2) model w) = Next oc /\
    score oc = score ((fun n => Z.of_nat (c + n))
                        <$> fit (drop c ops) (drop i seq1) (drop j seq2)).
Proof.
  induction fuel as [|fuel IH]; intros i j c Hi Hj Hc Hfuel; [lia|].
  cbn [fastcomp_walk]. unfold len in *.
  destruct (decide (i < length seq1 /\ j < length seq2)%nat) as [[Hi' Hj']|Hend].
  - replace ((Z.of_nat i <? Z.of_nat (length seq1)) && (Z.of_nat j <? Z.of_nat (length seq2)))
      with true by (symmetry; apply andb_true_iff; rewrite !Z.ltb_lt; lia).
    destruct (lookup_lt_is_Some_2 seq1 i Hi') as [x Hx].
    destruct (lookup_lt_is_Some_2 seq2 j Hj') as [y Hy].
    rewrite (item_inside seq1 i x Hx), (item_inside seq2 j y Hy). cbn [bind].
    rewrite native_never_fails. cbn [return_if bind andb].
    rewrite (drop_S _ _ _ Hx), (drop_S _ _ _ Hy).
    replace (Z.of_nat i + 1) with (Z.of_nat (S i)) by lia.
    replace (Z.of_nat j + 1) with (Z.of_nat (S j)) by lia.
    unfold native at 1. destruct (decide (x = y)) as [->|Hne]; cbn [Z.eqb].
    + rewrite fit_same. apply IH; lia.
    + replace (Z.of_nat c + 1) with (Z.of_nat (S c)) by lia.
      destruct (decide (c = 2%nat)) as [->|Hc2].
      * cbn [Z.of_nat Pos.of_succ_nat Pos.succ Z.gtb Z.compare Pos.compare Pos.compare_cont bind fastcomp_tail].
        exists None. split; [reflexivity|]. cbn [drop]. by rewrite fit_diff_nil.
      * replace (Z.of_nat (S c) >? 2) with false by (symmetry; rewrite Z.gtb_ltb; apply Z.ltb_ge; lia).
        cbn [bind]. replace (Z.of_nat (S c) - 1) with (Z.of_nat c) by lia.
        assert (Hop : exists o, model !! c = Some o /\ drop c ops = o :: drop (S c) ops).
        { destruct c as [|[|c]]; [by exists m0 | by exists m1 | lia]. }
        destruct Hop as (o & Ho & ->).
        rewrite (item_inside model c o Ho). cbn [bind].
        rewrite fit_diff by done.
        destruct (decide (o = "d"%char)) as [Hd|Hd];
          [rewrite bool_decide_eq_true_2 by done
          |rewrite bool_decide_eq_false_2 by done;
           destruct (decide (o = "i"%char)) as [Hins|Hins];
           [rewrite bool_decide_eq_true_2 by done
           |rewrite bool_decide_eq_false_2 by done]].
        -- destruct (IH (S i) j (S c)) as (oc & -> & Hoc); [lia..|].
           exists oc. split; [done|]. rewrite Hoc, <- (drop_S _ _ _ Hy).
           rewrite <- option_fmap_compose. f_equal.
           apply option_fmap_ext. intros n. simpl. f_equal. lia.
        -- destruct (IH i (S j) (S c)) as (oc & -> & Hoc); [lia..|].
           exists oc. split; [done|]. rewrite Hoc, <- (drop_S _ _ _ Hx).
           rewrite <- option_fmap_compose. f_equal.
           apply option_fmap_ext. intros n. simpl. f_equal. lia.
        -- destruct (IH (S i) (S j) (S c)) as (oc & -> & Hoc); [lia..|].
           exists oc. split; [done|]. rewrite Hoc.
           rewrite <- option_fmap_compose. f_equal.
           apply option_fmap_ext. intros n. simpl. f_equal. lia.
  - replace ((Z.of_nat i <? Z.of_nat (length seq1)) && (Z.of_nat j <? Z.of_nat (length seq2)))
      with false by (symmetry; apply andb_false_iff; rewrite !Z.ltb_ge; lia).
    cbn [bind fastcomp_tail].
    replace (Z.of_nat c >? 2) with false by (symmetry; rewrite Z.gtb_ltb; apply Z.ltb_ge; lia).
    destruct (decide (i < length seq1)%nat) as [Hi'|Hi'].
    + (* [seq2] is exhausted, [seq1] is not *)
      replace (Z.of_nat i <? Z.of_nat (length seq1)) with true
        by (symmetry; apply Z.ltb_lt; lia).
      assert (j = length seq2) as -> by lia.
      rewrite (drop_all seq2).
      destruct (lookup_lt_is_Some_2 seq1 i Hi') as [x Hx].
      rewrite (drop_S _ _ _ Hx), fit_nil_r. cbn [length].
      rewrite length_drop.
      assert (Hcnt : exists cnt,
                (if Z.of_nat c =? 1
                 then let* m1' := item model 1 in Next (is_char m1' "d")
                 else let* m0' := item model 0 in
                      let* m1' := item model 1 in
                      Next (is_char m0' "d" + is_char m1' "d"))
                = Next (R := Z) cnt /\
                (c < 2 -> cnt = Z.of_nat (deletions (drop c ops)))%nat /\ cnt <= 2).
      { unfold deletions, is_char. destruct c as [|[|c]].
        - eexists. split; [reflexivity|]. split; [|repeat case_bool_decide; lia].
          intros _. cbn [drop]. rewrite !filter_cons, filter_nil.
          repeat case_bool_decide; repeat case_decide; try done; simpl; lia.
        - eexists. split; [reflexivity|]. split; [|repeat case_bool_decide; lia].
          intros _. cbn [drop]. rewrite !filter_cons, filter_nil.
          repeat case_bool_decide; repeat case_decide; try done; simpl; lia.
        - assert (c = 0%nat) as -> by lia.
          eexists. split; [reflexivity|]. split; [lia|repeat case_bool_decide; lia]. }
      destruct Hcnt as (cnt & -> & Hcnt & Hcnt2). cbn [bind].
      destruct (decide (c = 2%nat)) as [->|Hc2].
      * rewrite decide_False by (vm_compute; lia).
        destruct (Z.of_nat (length seq1) - Z.of_nat i <=? cnt) eqn:E.
        -- eexists. split; [reflexivity|]. zbool. simpl. lia.
        -- eexists. split; [reflexivity|]. reflexivity.
      * rewrite Hcnt by lia.
        destruct (decide (S (length seq1 - S i) <= deletions (drop c ops))%nat) as [Hd|Hd].
        -- replace (Z.of_nat (length seq1) - Z.of_nat i <=? Z.of_nat (deletions (drop c ops)))
             with true by (symmetry; apply Z.leb_le; lia).
           eexists. split; [reflexivity|]. simpl. f_equal. lia.
        -- replace (Z.of_nat (length seq1) - Z.of_nat i <=? Z.of_nat (deletions (drop c ops)))
             with false by (symmetry; apply Z.leb_gt; lia).
           eexists. split; reflexivity.
    + replace (Z.of_nat i <? Z.of_nat (length seq1)) with false
        by (symmetry; apply Z.ltb_ge; lia).
      assert (i = length seq1) as -> by lia. rewrite (drop_all seq1).
      destruct (decide (j < length seq2)%nat) as [Hj'|Hj'].
      * replace (Z.of_nat j <? Z.of_nat (length seq2)) with true
          by (symmetry; apply Z.ltb_lt; lia).
        destruct (lookup_lt_is_Some_2 seq2 j Hj') as [y Hy].
        rewrite (drop_S _ _ _ Hy), fit_nil_l. cbn [length]. rewrite length_drop.
        assert (Hmc : exists o, model !! c = Some o /\
                  is_char o "i" = Z.of_nat (insertion_next (drop c ops))).
        { unfold is_char. destruct c as [|[|[|c]]]; [| | |lia].
          - exists m0. split; [done|]. cbn [drop insertion_next].
            case_bool_decide; case_decide; done.
          - exists m1. split; [done|]. cbn [drop insertion_next].
            case_bool_decide; case_decide; done.
          - exists zero. split; [done|]. reflexivity. }
        destruct Hmc as (o & Ho & Hins).
        rewrite (item_inside model c o Ho). cbn [bind]. rewrite Hins.
        destruct (decide (S (length seq2 - S j) <= insertion_next (drop c ops))%nat) as [Hd|Hd].
        -- replace (Z.of_nat (length seq2) - Z.of_nat j <=? Z.of_nat (insertion_next (drop c ops)))
             with true by (symmetry; apply Z.leb_le; lia).
           eexists. split; [reflexivity|]. simpl. f_equal. lia.
        -- replace (Z.of_nat (length seq2) - Z.of_nat j <=? Z.of_nat (insertion_next (drop c ops)))
             with false by (symmetry; apply Z.leb_gt; lia).
           eexists. split; reflexivity.
      * replace (Z.of_nat j <? Z.of_nat (length seq2)) with false
          by (symmetry; apply Z.ltb_ge; lia).
        assert (j = length seq2) as -> by lia. rewrite (drop_all seq2), fit_nil_nil.
        eexists. split; [reflexivity|]. simpl. f_equal. lia.
Qed.
End Walk.

Section Comparator.
Context {T : Type} `{EqDecision T}.
Variables seq1 seq2 : list T.
Local Open Scope char_scope.

(** What the script [ops] contributes to [res]. *)
Local Abbreviation contribution ops := (score (Z.of_nat <$> fit ops seq1 seq2)).

Lemma fastcomp_model_native (ldiff : Z) (models : list (list ascii)) (mi : nat)
    (m0 m1 : ascii) (res : Z) :
  models !! mi = Some [m0; m1; zero] -> 0 <= res <= 3 ->
  fastcomp_model native seq1 seq2 (len seq1) (len seq2) false ldiff models
    (Z.of_nat mi) res
  = Next (Z.min res (contribution [m0; m1])).
Proof.
  intros Hmodel Hres. unfold fastcomp_model.
  rewrite (item_inside models mi _ Hmodel). cbn [bind].
  destruct (walk_fit seq1 seq2 ldiff m0 m1 (Z.to_nat (len seq1 + len seq2) + 1) 0 0 0)
    as (oc & Hwalk & Hscore); [lia | lia | lia | unfold len; lia |].
  cbn [Z.of_nat drop] in Hwalk, Hscore.
  destruct (fastcomp_walk _ _ _ _ _ _ _ _ _ _ _ _) as [w|r|f]; cbn [bind] in *;
    [|discriminate|discriminate].
  rewrite Hwalk. replace (contribution [m0; m1]) with (score oc).
  destruct oc as [c|]; cbn [bind score].
  - f_equal. decide_test (c <? res)%Z.
  - f_equal. lia.
Qed.

Lemma contribution_sound ops :
  Z.min (Z.of_nat (lev seq1 seq2)) 3 <= contribution ops.
Proof.
  destruct (fit ops seq1 seq2) as [n|] eqn:Hfit; cbn [fmap option_fmap option_map score].
  - apply fit_sound in Hfit. lia.
  - lia.
Qed.

Lemma contribution_le ops : contribution ops <= 3.
Proof.
  destruct (fit ops seq1 seq2); cbn [fmap option_fmap option_map score]; lia.
Qed.

Lemma contribution_exact ops :
  fit ops seq1 seq2 = Some (lev seq1 seq2) ->
  contribution ops = Z.min (Z.of_nat (lev seq1 seq2)) 3.
Proof. by intros ->. Qed.

(** The answer for a distance [d]. *)
Local Abbreviation answer d := (if decide (d <= 2)%nat then Z.of_nat d else -1).

Lemma fastcomp_ordered_native :
  (length seq2 <= length seq1)%nat ->
  fastcomp_ordered native seq1 seq2 (len seq1) (len seq2) false
  = Next (answer (lev seq1 seq2)) \/
  fastcomp_ordered native seq1 seq2 (len seq1) (len seq2) false
  = Return (answer (lev seq1 seq2)).
Proof.
  intros Hle. unfold fastcomp_ordered.
  pose proof (lev_length_gap seq1 seq2) as [Hgap _].
  assert (Hcases : (length seq1 = length seq2 \/ length seq1 = S (length seq2)
                    \/ length seq1 = S (S (length seq2))
                    \/ S (S (length seq2)) < length seq1)%nat) by lia.
  destruct Hcases as [Hd|[Hd|[Hd|Hd]]].
  - left. replace (len seq1 - len seq2) with 0 by (unfold len; lia).
    cbn [Z.eqb bind]. change (rev (seqZ 0 (2 + 1))) with [Z.of_nat 2; Z.of_nat 1; Z.of_nat 0].
    cbn [for_each].
    pose proof (contribution_sound ["i"; "d"]). pose proof (contribution_sound ["d"; "i"]).
    pose proof (contribution_sound ["r"; "r"]).
    pose proof (contribution_le ["i"; "d"]). pose proof (contribution_le ["d"; "i"]).
    pose proof (contribution_le ["r"; "r"]).
    rewrite (fastcomp_model_native _ _ 2 "i" "d") by (done || lia). cbn [bind].
    rewrite (fastcomp_model_native _ _ 1 "d" "i") by (done || lia). cbn [bind].
    rewrite (fastcomp_model_native _ _ 0 "r" "r") by (done || lia). cbn [bind].
    f_equal.
    destruct (decide (lev seq1 seq2 <= 2)%nat) as [Hsmall|Hbig].
    + destruct (fit_two_level seq1 seq2 Hd Hsmall) as [Hf|[Hf|Hf]];
        apply contribution_exact in Hf;
        match goal with |- (if (?r =? 3)%Z then _ else _) = _ => decide_test (r =? 3)%Z end.
    + match goal with |- (if (?r =? 3)%Z then _ else _) = _ => decide_test (r =? 3)%Z end.
  - left. replace (len seq1 - len seq2) with 1 by (unfold len; lia).
    change (1 =? 0)%Z with false. change (1 =? 1)%Z with true. cbv iota. cbn [bind].
    change (rev (seqZ 0 (1 + 1))) with [Z.of_nat 1; Z.of_nat 0].
    cbn [for_each].
    pose proof (contribution_sound ["d"; "r"]). pose proof (contribution_sound ["r"; "d"]).
    pose proof (contribution_le ["d"; "r"]). pose proof (contribution_le ["r"; "d"]).
    rewrite (fastcomp_model_native _ _ 1 "d" "r") by (done || lia). cbn [bind].
    rewrite (fastcomp_model_native _ _ 0 "r" "d") by (done || lia). cbn [bind].
    f_equal.
    destruct (decide (lev seq1 seq2 <= 2)%nat) as [Hsmall|Hbig].
    + destruct (fit_two_longer seq1 seq2 Hd Hsmall) as [Hf|Hf];
        apply contribution_exact in Hf;
        match goal with |- (if (?r =? 3)%Z then _ else _) = _ => decide_test (r =? 3)%Z end.
    + match goal with |- (if (?r =? 3)%Z then _ else _) = _ => decide_test (r =? 3)%Z end.
  - left. replace (len seq1 - len seq2) with 2 by (unfold len; lia).
    change (2 =? 0)%Z with false. change (2 =? 1)%Z with false.
    change (2 =? 2)%Z with true. cbv iota. cbn [bind].
    change (rev (seqZ 0 (0 + 1))) with [Z.of_nat 0].
    cbn [for_each].
    pose proof (contribution_sound ["d"; "d"]). pose proof (contribution_le ["d"; "d"]).
    rewrite (fastcomp_model_native _ _ 0 "d" "d") by (done || lia). cbn [bind].
    f_equal.
    destruct (decide (lev seq1 seq2 <= 2)%nat) as [Hsmall|Hbig].
    + pose proof (fit_two_longest seq1 seq2 Hd Hsmall) as Hf.
      apply contribution_exact in Hf.
      match goal with |- (if (?r =? 3)%Z then _ else _) = _ => decide_test (r =? 3)%Z end.
    + match goal with |- (if (?r =? 3)%Z then _ else _) = _ => decide_test (r =? 3)%Z end.
  - right.
    decide_test (len seq1 - len seq2 =? 0)%Z; [unfold len in *; lia|].
    decide_test (len seq1 - len seq2 =? 1)%Z; [unfold len in *; lia|].
    decide_test (len seq1 - len seq2 =? 2)%Z; [unfold len in *; lia|].
    cbn [bind]. rewrite decide_False by lia. reflexivity.
Qed.
End Comparator.

(** When the lengths differ by more than 2 the comparator answers [-1]
    without a single comparison, whatever the oracle. *)
Lemma fastcomp_length_gap {T} (COMP : T -> T -> Z) (A B : list T)
    (transpositions : bool) :
  2 < Z.abs (len A - len B) -> fastcomp COMP A B transpositions = Value (-1).
Proof.
  intros Hgap. unfold fastcomp.
  destruct (len A <? len B) eqn:Hswap; zbool; unfold fastcomp_ordered.
  - decide_test (len B - len A =? 0). decide_test (len B - len A =? 1).
    decide_test (len B - len A =? 2). reflexivity.
  - decide_test (len A - len B =? 0). decide_test (len A - len B =? 1).
    decide_test (len A - len B =? 2). reflexivity.
Qed.

(** C2: without transpositions, on the code-point and byte instances,
    [fastcomp] returns what [levenshtein] returns, the edit distance, when
    that is 0, 1 or 2, and [-1] when it is larger; when the lengths differ
    by more than 2 it returns [-1] at once, for every oracle. *)
Theorem fastcomp_agreement {T} `{EqDecision T} (A B : list T) :
  levenshtein native checked A B (-1) = Value (Z.of_nat (lev A B)) /\
  fastcomp native A B false
  = Value (if decide (lev A B <= 2)%nat then Z.of_nat (lev A B) else -1) /\
  (forall (COMP : T -> T -> Z) (transpositions : bool),
     2 < Z.abs (len A - len B) -> fastcomp COMP A B transpositions = Value (-1)).
Proof.
  split; [by rewrite levenshtein_native by (done || (left; lia))|].
  split; [|intros COMP tr; apply fastcomp_length_gap].
  unfold fastcomp.
  destruct (len A <? len B) eqn:Hswap; zbool; unfold len in Hswap.
  - rewrite (lev_sym A B).
    by destruct (fastcomp_ordered_native B A ltac:(lia)) as [-> | ->].
  - by destruct (fastcomp_ordered_native A B ltac:(lia)) as [-> | ->].
Qed.

(** *** The comparator always answers *)

Section WalkSafe.
Context {T : Type} `{EqDecision T}.
Variables seq1 seq2 : list T.
Variable transpositions : bool.
Variable ldiff : Z.
Variables m0 m1 : ascii.
Local Abbreviation model := [m0; m1; zero].

(** With either setting of [transpositions] the walk stays inside both
    sequences and inside the model string, and ends within its bound. *)
Lemma walk_safe (fuel : nat) :
  forall i j c : nat,
  (i <= length seq1)%nat -> (j <= length seq2)%nat -> (c <= 2)%nat ->
  (length seq1 - i + (length seq2 - j) < fuel)%nat ->
  exists i' j' c' : nat,
    fastcomp_walk native fuel seq1 seq2 (len seq1) (len seq2) transpositions ldiff
      model (Z.of_nat i) (Z.of_nat j) (Z.of_nat c)
    = Next (Z.of_nat i', Z.of_nat j', Z.of_nat c') /\
    (i' <= length seq1)%nat /\ (j' <= length seq2)%nat /\ (c' <= 3)%nat.
Proof.
  induction fuel as [|fuel IH]; intros i j c Hi Hj Hc Hfuel; [lia|].
  cbn [fastcomp_walk]. unfold len in *.
  destruct (decide (i < length seq1 /\ j < length seq2)%nat) as [[Hi' Hj']|Hend].
  - replace ((Z.of_nat i <? Z.of_nat (length seq1)) && (Z.of_nat j <? Z.of_nat (length seq2)))
      with true by (symmetry; apply andb_true_iff; rewrite !Z.ltb_lt; lia).
    destruct (lookup_lt_is_Some_2 seq1 i Hi') as [x Hx].
    destruct (lookup_lt_is_Some_2 seq2 j Hj') as [y Hy].
    rewrite (item_inside seq1 i x Hx), (item_inside seq2 j y Hy). cbn [bind].
    rewrite native_never_fails. cbn [return_if bind].
    replace (Z.of_nat i + 1) with (Z.of_nat (S i)) by lia.
    replace (Z.of_nat j + 1) with (Z.of_nat (S j)) by lia.
    replace (Z.of_nat i + 2) with (Z.of_nat (S (S i))) by lia.
    replace (Z.of_nat j + 2) with (Z.of_nat (S (S j))) by lia.
    destruct (native x y =? 0) eqn:Hcomp; [|apply IH; lia].
    replace (Z.of_nat c + 1) with (Z.of_nat (S c)) by lia.
    destruct (decide (c = 2%nat)) as [->|Hc2].
    { exists i, j, 3%nat. split; [reflexivity | lia]. }
    replace (Z.of_nat (S c) >? 2) with false
      by (symmetry; rewrite Z.gtb_ltb; apply Z.ltb_ge; lia).
    replace (Z.of_nat (S c) - 1) with (Z.of_nat c) by lia.
    assert (Hop : exists o, model !! c = Some o).
    { destruct c as [|[|c]]; [by exists m0 | by exists m1 | lia]. }
    destruct Hop as (o & Ho).
    assert (Hrest : exists i' j' c' : nat,
              (let* op := item model (Z.of_nat c) in
               if bool_decide (op = "d"%char)
               then fastcomp_walk native fuel seq1 seq2 (Z.of_nat (length seq1))
                      (Z.of_nat (length seq2)) transpositions ldiff model
                      (Z.of_nat (S i)) (Z.of_nat j) (Z.of_nat (S c))
               else if bool_decide (op = "i"%char)
               then fastcomp_walk native fuel seq1 seq2 (Z.of_nat (length seq1))
                      (Z.of_nat (length seq2)) transpositions ldiff model
                      (Z.of_nat i) (Z.of_nat (S j)) (Z.of_nat (S c))
               else fastcomp_walk native fuel seq1 seq2 (Z.of_nat (length seq1))
                      (Z.of_nat (length seq2)) transpositions ldiff model
                      (Z.of_nat (S i)) (Z.of_nat (S j)) (Z.of_nat (S c)))
              = Next (Z.of_nat i', Z.of_nat j', Z.of_nat c') /\
              (i' <= length seq1)%nat /\ (j' <= length seq2)%nat /\ (c' <= 3)%nat).
    { rewrite (item_inside model c o Ho). cbn [bind].
      repeat case_bool_decide; apply IH; lia. }
    destruct (transpositions && negb (ldiff =? 2)
              && (Z.of_nat i <? Z.of_nat (length seq1) - 1)
              && (Z.of_nat j <? Z.of_nat (length seq2) - 1)) eqn:Hlook;
      [|exact Hrest].
    zbool.
    destruct (lookup_lt_is_Some_2 seq1 (S i)) as [x1 Hx1]; [lia|].
    destruct (lookup_lt_is_Some_2 seq2 (S j)) as [y1 Hy1]; [lia|].
    rewrite (item_inside seq1 (S i) x1 Hx1). cbn [bind].
    rewrite native_never_fails. cbn [return_if bind].
    destruct (native x1 y =? 0); cbn [negb bind]; [exact Hrest|].
    rewrite (item_inside seq2 (S j) y1 Hy1). cbn [bind].
    rewrite native_never_fails. cbn [return_if bind].
    destruct (native x y1 =? 0); cbn [negb bind]; [exact Hrest|].
    apply IH; lia.
  - replace ((Z.of_nat i <? Z.of_nat (length seq1)) && (Z.of_nat j <? Z.of_nat (length seq2)))
      with false by (symmetry; apply andb_false_iff; rewrite !Z.ltb_ge; lia).
    exists i, j, c. split; [reflexivity | lia].
Qed.

Lemma fastcomp_tail_safe (i j c : nat) :
  (i <= length seq1)%nat -> (j <= length seq2)%nat -> (c <= 3)%nat ->
  exists oc, fastcomp_tail (len seq1) (len seq2) model
               (Z.of_nat i, Z.of_nat j, Z.of_nat c) = Next oc /\
             match oc with Some n => 0 <= n | None => True end.
Proof.
  intros Hi Hj Hc. unfold fastcomp_tail, len, is_char.
  destruct (Z.of_nat c >? 2) eqn:Hbig; [by exists None|]. zbool.
  assert (E0 : item (R := Z) model 0 = Next m0) by reflexivity.
  assert (E1 : item (R := Z) model 1 = Next m1) by reflexivity.
  assert (Ec : exists o, item (R := Z) model (Z.of_nat c) = Next o).
  { destruct c as [|[|[|c]]]; [by eexists.. | lia]. }
  destruct Ec as [o Ec]. rewrite E0, E1, Ec. cbn [bind].
  repeat (match goal with
          | |- context [if ?b then _ else _] => destruct b eqn:?
          end; cbn [bind]);
    eexists; (split; [reflexivity|]); try done; zbool.
  all: cbv beta iota; lia.
Qed.

Lemma fastcomp_model_safe (models : list (list ascii)) (mi : nat) (res : Z) :
  models !! mi = Some model -> 0 <= res <= 3 ->
  exists res',
    fastcomp_model native seq1 seq2 (len seq1) (len seq2) transpositions ldiff
      models (Z.of_nat mi) res = Next res' /\ 0 <= res' <= 3.
Proof.
  intros Hmodel Hres. unfold fastcomp_model.
  rewrite (item_inside models mi _ Hmodel). cbn [bind].
  destruct (walk_safe (Z.to_nat (len seq1 + len seq2) + 1) 0 0 0)
    as (i' & j' & c' & Hwalk & Hi & Hj & Hc); [lia | lia | lia | unfold len; lia |].
  change (Z.of_nat 0) with 0 in Hwalk. rewrite Hwalk. cbn [bind].
  destruct (fastcomp_tail_safe i' j' c' Hi Hj Hc) as (oc & -> & Hoc). cbn [bind].
  destruct oc as [n|]; [|by exists res].
  eexists. split; [reflexivity|]. decide_test (n <? res).
Qed.
End WalkSafe.

(** On the code-point and byte instances [fastcomp] returns [-1], [0],
    [1] or [2], with either setting of [transpositions]. *)
Lemma fastcomp_native_range {T} `{EqDecision T} (A B : list T) (transpositions : bool) :
  exists d, fastcomp native A B transpositions = Value d /\ -1 <= d <= 2.
Proof.
  assert (Hord : forall seq1 seq2 : list T,
            exists d, finish (fastcomp_ordered native seq1 seq2 (len seq1) (len seq2)
                                transpositions) = Value d /\ -1 <= d <= 2).
  { intros seq1 seq2. unfold fastcomp_ordered.
    destruct (len seq1 - len seq2 =? 0); [|destruct (len seq1 - len seq2 =? 1);
      [|destruct (len seq1 - len seq2 =? 2); [|by exists (-1)]]]; cbn [bind].
    - change (rev (seqZ 0 (2 + 1))) with [Z.of_nat 2; Z.of_nat 1; Z.of_nat 0].
      cbn [for_each].
      destruct (fastcomp_model_safe seq1 seq2 transpositions (len seq1 - len seq2)
        "i" "d" [cstr "rr"; cstr "di"; cstr "id"] 2 3) as (r1 & -> & H1); [done | lia |].
      cbn [bind].
      destruct (fastcomp_model_safe seq1 seq2 transpositions (len seq1 - len seq2)
        "d" "i" [cstr "rr"; cstr "di"; cstr "id"] 1 r1) as (r2 & -> & H2); [done | lia |].
      cbn [bind].
      destruct (fastcomp_model_safe seq1 seq2 transpositions (len seq1 - len seq2)
        "r" "r" [cstr "rr"; cstr "di"; cstr "id"] 0 r2) as (r3 & -> & H3); [done | lia |].
      cbn [bind finish]. eexists. split; [reflexivity|]. decide_test (r3 =? 3).
    - change (rev (seqZ 0 (1 + 1))) with [Z.of_nat 1; Z.of_nat 0].
      cbn [for_each].
      destruct (fastcomp_model_safe seq1 seq2 transpositions (len seq1 - len seq2)
        "d" "r" [cstr "rd"; cstr "dr"] 1 3) as (r1 & -> & H1); [done | lia |].
      cbn [bind].
      destruct (fastcomp_model_safe seq1 seq2 transpositions (len seq1 - len seq2)
        "r" "d" [cstr "rd"; cstr "dr"] 0 r1) as (r2 & -> & H2); [done | lia |].
      cbn [bind finish]. eexists. split; [reflexivity|]. decide_test (r2 =? 3).
    - change (rev (seqZ 0 (0 + 1))) with [Z.of_nat 0].
      cbn [for_each].
      destruct (fastcomp_model_safe seq1 seq2 transpositions (len seq1 - len seq2)
        "d" "d" [cstr "dd"] 0 3) as (r1 & -> & H1); [done | lia |].
      cbn [bind finish]. eexists. split; [reflexivity|]. decide_test (r1 =? 3). }
  unfold fastcomp. destruct (len A <? len B); apply Hord.
Qed.


(** ** The streaming comparators *)

Lemma capped_range (k : Z) (d : nat) : -1 <= capped k d.
Proof. unfold capped. destruct (_ && _); lia. Qed.

Lemma capped_kept (k : Z) (d : nat) : capped k d <> -1 -> 0 <= capped k d.
Proof. unfold capped. destruct (_ && _); lia. Qed.

Section Streaming.
Context {T : Type} `{EqDecision T}.
Variable m : machine.
Variable ref : list T.
Variable tr : bool.
Variable k : Z.
Local Abbreviation state cands :=
  {| itor := cands; seq1 := ref; transpos := tr; max_dist := k |}.

Lemma ilevenshtein_drain (g : Z) (cands : list (list T)) :
  malloc_ok m 0 = true -> stray m (-1) = Some g ->
  forall fuel, (length cands < fuel)%nat ->
  drain fuel (ilevenshtein_next native m) (state cands)
  = (omap (levenshtein_kept native m ref k) cands, Some StopIteration).
Proof.
  intros Hm0 Hg. induction cands as [|c cands IH]; intros [|fuel] Hfuel;
    try (simpl in Hfuel; lia).
  - reflexivity.
  - pose proof (IH (S fuel) ltac:(simpl in Hfuel; lia)) as IHskip.
    pose proof (IH fuel) as IHyield.
    cbn [drain] in *. unfold ilevenshtein_next at 1. unfold ilevenshtein_next at 1 in IHskip.
    cbn [itor seq1 max_dist transpos ilevenshtein_pull omap list_omap] in *.
    unfold levenshtein_kept at 1.
    rewrite levenshtein_native by eauto.
    set (d := capped k (lev ref c)).
    assert (Hd : -1 <= d) by apply capped_range.
    replace (d <? -1) with false by (symmetry; apply Z.ltb_ge; lia).
    destruct (d =? -1) eqn:Hskip; cbn [negb fst snd].
    + exact IHskip.
    + rewrite IHyield by (simpl in Hfuel; lia). reflexivity.
Qed.
Lemma ifastcomp_drain (cands : list (list T)) :
  forall fuel, (length cands < fuel)%nat ->
  drain fuel (ifastcomp_next native) (state cands)
  = (omap (fastcomp_kept native ref tr) cands, Some StopIteration).
Proof.
  induction cands as [|c cands IH]; intros [|fuel] Hfuel;
    try (simpl in Hfuel; lia).
  - reflexivity.
  - pose proof (IH (S fuel) ltac:(simpl in Hfuel; lia)) as IHskip.
    pose proof (IH fuel) as IHyield.
    cbn [drain] in *. unfold ifastcomp_next at 1. unfold ifastcomp_next at 1 in IHskip.
    cbn [itor seq1 max_dist transpos ifastcomp_pull omap list_omap] in *.
    unfold fastcomp_kept at 1.
    destruct (fastcomp_native_range ref c tr) as (d & -> & Hd).
    replace (d =? -2) with false by (symmetry; apply Z.eqb_neq; lia).
    destruct (d =? -1) eqn:Hskip; zbool; cbn [negb fst snd].
    + replace ((0 <=? d) && (d <=? 2)) with false
        by (symmetry; apply andb_false_iff; left; apply Z.leb_gt; lia).
      exact IHskip.
    + replace ((0 <=? d) && (d <=? 2)) with true
        by (symmetry; apply andb_true_iff; rewrite !Z.leb_le; lia).
      rewrite IHyield by (simpl in Hfuel; lia). reflexivity.
Qed.

Lemma levenshtein_kept_distance (g : Z) (c : list T) (p : Z * list T) :
  malloc_ok m 0 = true -> stray m (-1) = Some g ->
  levenshtein_kept native m ref k c = Some p ->
  p = (capped k (lev ref c), c) /\ 0 <= p.1.
Proof.
  intros Hm0 Hg. unfold levenshtein_kept. rewrite levenshtein_native by eauto.
  destruct (capped k (lev ref c) =? -1) eqn:E; [done|]. intros [= <-].
  split; [done|]. cbn [fst]. apply capped_kept. by apply Z.eqb_neq.
Qed.

Lemma fastcomp_kept_distance (c : list T) (p : Z * list T) :
  fastcomp_kept native ref tr c = Some p -> p.2 = c /\ 0 <= p.1 <= 2.
Proof.
  unfold fastcomp_kept. destruct (fastcomp native ref c tr) as [d|]; [|done].
  destruct ((0 <=? d) && (d <=? 2)) eqn:E; [|done]. intros [= <-]. zbool. done.
Qed.
End Streaming.

(** C9: on the code-point and byte instances, iterating [ilevenshtein]
    over a finite stream of candidates yields, in the order of the
    stream, the pair (distance, candidate) of exactly the candidates for
    which the capped call does not answer [-1], and [ifast_comp] that of
    exactly the candidates for which the comparator answers [0], [1] or
    [2]; both end with [StopIteration], and no distance they yield is a
    sentinel. *)
Theorem streaming_filter {T} `{EqDecision T} (m : machine) (g : Z) (ref : list T)
    (cands : list (list T)) (k : Z) (tr : bool) :
  malloc_ok m 0 = true -> stray m (-1) = Some g ->
  let state := {| itor := cands; seq1 := ref; transpos := tr; max_dist := k |} in
  drain (S (length cands)) (ilevenshtein_next native m) state
    = (omap (levenshtein_kept native m ref k) cands, Some StopIteration) /\
  drain (S (length cands)) (ifastcomp_next native) state
    = (omap (fastcomp_kept native ref tr) cands, Some StopIteration) /\
  (forall p, p ∈ omap (levenshtein_kept native m ref k) cands -> 0 <= p.1) /\
  (forall p, p ∈ omap (fastcomp_kept native ref tr) cands -> 0 <= p.1 <= 2).
Proof.
  intros Hm0 Hg state.
  split; [apply (ilevenshtein_drain m ref tr k g); [done | done | lia]|].
  split; [apply ifastcomp_drain; lia|]. split.
  - intros p Hp. apply list_elem_of_omap in Hp as (c & _ & Hc).
    by apply (levenshtein_kept_distance m ref k g) in Hc as [_ Hc].
  - intros p Hp. apply list_elem_of_omap in Hp as (c & _ & Hc).
    by apply fastcomp_kept_distance in Hc as [_ Hc].
Qed.

Lemma streaming_filter_witness :
  (malloc_ok (lenient 33) 0 = true /\ stray (lenient 33) (-1) = Some 33) /\
  let cands := [chars "fo"; chars "bar"; chars "foob"; chars "foo"; chars "foobaz"] in
  let state := {| itor := cands; seq1 := chars "foo"; transpos := false; max_dist := 1 |} in
  drain (S (length cands)) (ilevenshtein_next native (lenient 33)) state
    = (omap (levenshtein_kept native (lenient 33) (chars "foo") 1) cands,
       Some StopIteration) /\
  drain (S (length cands)) (ifastcomp_next native) state
    = (omap (fastcomp_kept native (chars "foo") false) cands, Some StopIteration) /\
  (forall p, p ∈ omap (levenshtein_kept native (lenient 33) (chars "foo") 1) cands
     -> 0 <= p.1) /\
  (forall p, p ∈ omap (fastcomp_kept native (chars "foo") false) cands
     -> 0 <= p.1 <= 2).
Proof.
  split; [split; reflexivity|].
  apply (streaming_filter (lenient 33) 33 (chars "foo")
           [chars "fo"; chars "bar"; chars "foob"; chars "foo"; chars "foobaz"]
           1 false); reflexivity.
Defined.

(** The documented run of [ifast_comp]. *)
Example ifast_comp_documented :
  (drain 6 (ifastcomp_next native)
     {| itor := [chars "fo"; chars "bar"; chars "foob"; chars "foo"; chars "foobaz"];
        seq1 := chars "foo"; transpos := false; max_dist := -1 |}).1
  = [(1, chars "fo"); (1, chars "foob"); (0, chars "foo")].
Proof. vm_compute. reflexivity. Qed.


(** ** The documented cases *)

Example hamming_toned_roses :
  hamming_py native (chars "toned") (chars "roses") false = Ok (PyLong 3).
Proof. vm_compute. reflexivity. Qed.

Example levenshtein_abc_abcd :
  levenshtein_py native (lenient 33) (chars "abc") (chars "abcd") false 1
  = Ok (PyLong 1).
Proof. vm_compute. reflexivity. Qed.

Example levenshtein_abc_abcde_capped :
  levenshtein_py native (lenient 33) (chars "abc") (chars "abcde") false 1
  = Ok (PyLong (-1)).
Proof. vm_compute. reflexivity. Qed.

Example lcsubstrings_sedentar_dentist :
  lcsubstrings_py native checked (chars "sedentar") (chars "dentist") true
  = Ok (Positions 4 [(2, 0)]) /\
  lcsubstrings_py native checked (chars "sedentar") (chars "dentist") false
  = Ok (Substrings [chars "dent"]).
Proof. split; vm_compute; reflexivity. Qed.

Example fastcomp_abc_bac :
  fastcomp_py native (chars "abc") (chars "bac") false = Ok (PyLong 2) /\
  fastcomp_py native (chars "abc") (chars "bac") true = Ok (PyLong 1).
Proof. split; vm_compute; reflexivity. Qed.

Example nlevenshtein_kitten_sitting :
  nlevenshtein_py native checked (chars "kitten") (chars "sitting") 1
  = Ok (PyFloat (Real (3 # 7))) /\
  nlevenshtein_py native checked (chars "abc") (chars "acd") 2
  = Ok (PyFloat (Real (2 # 4))).
Proof. split; vm_compute; reflexivity. Qed.


(** * Further properties of the engine *)

(** ** Edit scripts compose *)

Section Composition.
Context {T : Type} `{EqDecision T}.
Implicit Types a b c : list T.

(** A script from [a] to [b] followed by one from [b] to [c] gives a
    script from [a] to [c] that costs no more than the two together. *)
Lemma edits_trans a b n :
  edits a b n ->
  forall c k, edits b c k -> exists l, (l <= n + k)%nat /\ edits a c l.
Proof.
  induction 1 as [|x a b n H1 IH|x y a b n H1 IH|x a b n H1 IH|y a b n H1 IH].
  - intros c k H2. exists k. split; [lia | done].
  - intros c k H2. remember (x :: b) as b' eqn:Eb. revert Eb.
    induction H2 as [|x' b0 c k H2 _|x' y' b0 c k H2 _|x' b0 c k H2 _|y' b0 c k H2 IH2];
      intros Eb; simplify_eq.
    + destruct (IH _ _ H2) as (l & Hl & He). exists l. split; [lia|].
      by apply edits_keep.
    + destruct (IH _ _ H2) as (l & Hl & He). exists (S l). split; [lia|].
      by apply edits_subst.
    + destruct (IH _ _ H2) as (l & Hl & He). exists (S l). split; [lia|].
      by apply edits_delete.
    + destruct (IH2 eq_refl) as (l & Hl & He). exists (S l). split; [lia|].
      by apply edits_insert.
  - intros c k H2. remember (y :: b) as b' eqn:Eb. revert Eb.
    induction H2 as [|x' b0 c k H2 _|x' y' b0 c k H2 _|x' b0 c k H2 _|y' b0 c k H2 IH2];
      intros Eb; simplify_eq.
    + destruct (IH _ _ H2) as (l & Hl & He). exists (S l). split; [lia|].
      by apply edits_subst.
    + destruct (IH _ _ H2) as (l & Hl & He). exists (S l). split; [lia|].
      by apply edits_subst.
    + destruct (IH _ _ H2) as (l & Hl & He). exists (S l). split; [lia|].
      by apply edits_delete.
    + destruct (IH2 eq_refl) as (l & Hl & He). exists (S l). split; [lia|].
      by apply edits_insert.
  - intros c k H2. destruct (IH _ _ H2) as (l & Hl & He).
    exists (S l). split; [lia|]. by apply edits_delete.
  - intros c k H2. remember (y :: b) as b' eqn:Eb. revert Eb.
    induction H2 as [|x' b0 c k H2 _|x' y' b0 c k H2 _|x' b0 c k H2 _|y' b0 c k H2 IH2];
      intros Eb; simplify_eq.
    + destruct (IH _ _ H2) as (l & Hl & He). exists (S l). split; [lia|].
      by apply edits_insert.
    + destruct (IH _ _ H2) as (l & Hl & He). exists (S l). split; [lia|].
      by apply edits_insert.
    + destruct (IH _ _ H2) as (l & Hl & He). exists l. split; [lia | done].
    + destruct (IH2 eq_refl) as (l & Hl & He). exists (S l). split; [lia|].
      by apply edits_insert.
Qed.

Lemma lev_triangle a b c : (lev a c <= lev a b + lev b c)%nat.
Proof.
  destruct (edits_trans a b _ (edits_lev a b) c _ (edits_lev b c)) as (l & Hl & He).
  apply lev_le_edits in He. lia.
Qed.

(** Substituting at every differing position is a script. *)
Lemma edits_differing a b : length a = length b -> edits a b (differing a b).
Proof.
  revert b. induction a as [|x a IH]; intros [|y b] Hlen; simplify_eq/=.
  - constructor.
  - unfold mismatch. destruct (decide (x = y)) as [->|Hne]; simpl.
    + by apply edits_keep, IH.
    + by apply edits_subst, IH.
Qed.

Lemma lev_le_differing a b : length a = length b -> (lev a b <= differing a b)%nat.
Proof. intros Hlen. by apply lev_le_edits, edits_differing. Qed.

Lemma differing_sym a b : differing a b = differing b a.
Proof.
  revert b. induction a as [|x a IH]; intros [|y b]; simpl; try done.
  rewrite IH. unfold mismatch. destruct (decide (x = y)), (decide (y = x)); congruence.
Qed.

Lemma differing_le_length a b : (differing a b <= length a)%nat.
Proof.
  revert b. induction a as [|x a IH]; intros [|y b]; simpl; try lia.
  specialize (IH b). unfold mismatch. destruct (decide (x = y)); lia.
Qed.

Lemma differing_zero a b : length a = length b -> differing a b = 0%nat <-> a = b.
Proof.
  revert b. induction a as [|x a IH]; intros [|y b] Hlen; simplify_eq/=; [done|].
  unfold mismatch. destruct (decide (x = y)) as [->|Hne]; simpl.
  - rewrite IH by done. split; congruence.
  - split; [lia | congruence].
Qed.

Lemma differing_triangle a b c :
  length a = length b -> length b = length c ->
  (differing a c <= differing a b + differing b c)%nat.
Proof.
  revert b c. induction a as [|x a IH]; intros [|y b] [|z c] H1 H2; simplify_eq/=;
    [lia|].
  specialize (IH b c H1 H2). unfold mismatch.
  destruct (decide (x = z)), (decide (x = y)), (decide (y = z)); try lia; congruence.
Qed.

(** All positions differ. *)
Lemma differing_all a b :
  length a = length b ->
  differing a b = length a <->
  forall i x y, a !! i = Some x -> b !! i = Some y -> x <> y.
Proof.
  revert b. induction a as [|x a IH]; intros [|y b] Hlen; simplify_eq/=.
  - split; [|done]. intros _ i x y Hx. by rewrite lookup_nil in Hx.
  - pose proof (differing_le_length a b) as Hle. unfold mismatch.
    destruct (decide (x = y)) as [->|Hne]; simpl.
    + split; [lia|]. intros Hall. by destruct (Hall 0%nat y y).
    + split.
      * intros Hd [|i] x' y' Hx Hy; simplify_eq/=; [done|].
        assert (Hd' : differing a b = length a) by lia.
        apply (proj1 (IH b Hlen) Hd' i x' y' Hx Hy).
      * intros Hall. f_equal. apply IH; [done|].
        intros i x' y' Hx Hy. by apply (Hall (S i)).
Qed.
End Composition.

(** ** The distances as metrics *)

Lemma capped_free (k : Z) (d : nat) : k < 0 -> capped k d = Z.of_nat d.
Proof. intros Hk. unfold capped. by decide_test (0 <=? k). Qed.

Lemma levenshtein_free {T} `{EqDecision T} (m : machine) (A B : list T) :
  malloc_ok m 0 = true ->
  levenshtein native m A B (-1) = Value (Z.of_nat (lev A B)).
Proof.
  intros Hm0. rewrite levenshtein_native by (done || (left; lia)).
  by rewrite capped_free by lia.
Qed.

Lemma ratio_one (d n : Z) :
  0 < n -> (inject_Z d / inject_Z n == 1)%Q <-> d = n.
Proof.
  intros Hn. destruct n as [|p|p]; try lia.
  unfold Qdiv, Qmult, Qinv, Qeq, inject_Z. cbn. lia.
Qed.

Lemma hamming_py_native {T} `{EqDecision T} (A B : list T) (normalized : bool) :
  length A = length B ->
  hamming_py native A B normalized =
  Ok (if normalized
      then PyFloat (if len A =? 0 then Real 0
                    else fdiv (Z.of_nat (differing A B)) (len A))
      else PyLong (Z.of_nat (differing A B))).
Proof.
  intros Hlen. unfold hamming_py.
  replace (len A =? len B) with true by (symmetry; apply Z.eqb_eq; unfold len; lia).
  cbn [negb]. rewrite hamming_native by done.
  decide_test (Z.of_nat (differing A B) =? -1).
  destruct normalized; [|reflexivity]. by destruct (len A =? 0).
Qed.

(** X1: on the code-point and byte instances, and whenever the
    allocation succeeds, the uncapped [levenshtein] is a metric on
    sequences: it is never negative, it is [0] exactly on equal
    sequences, it does not depend on the order of its operands, and the
    distance from [A] to [C] is at most the distance from [A] to [B] plus
    that from [B] to [C]. *)
Theorem levenshtein_is_metric {T} `{EqDecision T} (m : machine) (A B C : list T) :
  malloc_ok m 0 = true ->
  exists dAB dBA dBC dAC : Z,
    levenshtein native m A B (-1) = Value dAB /\
    levenshtein native m B A (-1) = Value dBA /\
    levenshtein native m B C (-1) = Value dBC /\
    levenshtein native m A C (-1) = Value dAC /\
    0 <= dAB /\ (dAB = 0 <-> A = B) /\ dAB = dBA /\ dAC <= dAB + dBC.
Proof.
  intros Hm0. rewrite !levenshtein_free by done.
  eexists _, _, _, _. do 4 (split; [reflexivity|]).
  pose proof (lev_triangle A B C) as Htri. pose proof (lev_zero A B) as Hz.
  rewrite (lev_sym B A). repeat split; try lia.
  - intros H0. apply Hz. lia.
  - intros HAB. apply Hz in HAB. lia.
Qed.

Lemma levenshtein_is_metric_witness :
  malloc_ok checked 0 = true /\
  exists dAB dBA dBC dAC : Z,
    levenshtein native checked (chars "kitten") (chars "sitten") (-1) = Value dAB /\
    levenshtein native checked (chars "sitten") (chars "kitten") (-1) = Value dBA /\
    levenshtein native checked (chars "sitten") (chars "sitting") (-1) = Value dBC /\
    levenshtein native checked (chars "kitten") (chars "sitting") (-1) = Value dAC /\
    0 <= dAB /\ (dAB = 0 <-> chars "kitten" = chars "sitten") /\ dAB = dBA /\
    dAC <= dAB + dBC.
Proof.
  split; [reflexivity|].
  apply (levenshtein_is_metric checked (chars "kitten") (chars "sitten")
           (chars "sitting")); reflexivity.
Defined.

(** X2: the uncapped distance lies between the difference of the two
    lengths and the longer length, and on sequences of equal length it
    never exceeds what [hamming] counts on them. *)
Theorem levenshtein_between_bounds {T} `{EqDecision T} (m : machine) (A B : list T) :
  malloc_ok m 0 = true ->
  exists d : Z,
    levenshtein native m A B (-1) = Value d /\
    Z.abs (len A - len B) <= d <= Z.max (len A) (len B) /\
    (length A = length B ->
     exists h, hamming native A B (len A) = Value h /\ d <= h <= len A).
Proof.
  intros Hm0. rewrite levenshtein_free by done. eexists. split; [reflexivity|].
  pose proof (lev_length_gap A B) as [Hg1 Hg2]. pose proof (lev_le_max A B) as Hmax.
  split; [unfold len; lia|]. intros Hlen. rewrite hamming_native by done.
  eexists. split; [reflexivity|].
  pose proof (lev_le_differing A B Hlen). pose proof (differing_le_length A B).
  unfold len. lia.
Qed.

Lemma levenshtein_between_bounds_witness :
  malloc_ok checked 0 = true /\
  exists d : Z,
    levenshtein native checked (chars "toned") (chars "roses") (-1) = Value d /\
    Z.abs (len (chars "toned") - len (chars "roses")) <= d
      <= Z.max (len (chars "toned")) (len (chars "roses")) /\
    (length (chars "toned") = length (chars "roses") ->
     exists h, hamming native (chars "toned") (chars "roses") (len (chars "toned"))
               = Value h /\ d <= h <= len (chars "toned")).
Proof.
  split; [reflexivity|].
  apply (levenshtein_between_bounds checked (chars "toned") (chars "roses")).
  reflexivity.
Defined.

(** X3: on sequences of one length and on the code-point and byte
    instances, [hamming] is a metric: it lies between [0] and the length,
    it is [0] exactly on equal sequences, it does not depend on the order
    of its operands, and it satisfies the triangle inequality. *)
Theorem hamming_is_metric {T} `{EqDecision T} (A B C : list T) :
  length A = length B -> length B = length C ->
  exists hAB hBA hBC hAC : Z,
    hamming_py native A B false = Ok (PyLong hAB) /\
    hamming_py native B A false = Ok (PyLong hBA) /\
    hamming_py native B C false = Ok (PyLong hBC) /\
    hamming_py native A C false = Ok (PyLong hAC) /\
    0 <= hAB <= len A /\ (hAB = 0 <-> A = B) /\ hAB = hBA /\ hAC <= hAB + hBC.
Proof.
  intros H1 H2. rewrite !hamming_py_native by congruence.
  eexists _, _, _, _. do 4 (split; [reflexivity|]).
  pose proof (differing_le_length A B). pose proof (differing_zero A B H1) as Hz.
  pose proof (differing_triangle A B C H1 H2). rewrite (differing_sym B A).
  unfold len. repeat split; try lia.
  - intros Hzero. apply Hz. lia.
  - intros HAB. apply Hz in HAB. lia.
Qed.

Lemma hamming_is_metric_witness :
  (length (chars "toned") = length (chars "roses") /\
   length (chars "roses") = length (chars "noses")) /\
  exists hAB hBA hBC hAC : Z,
    hamming_py native (chars "toned") (chars "roses") false = Ok (PyLong hAB) /\
    hamming_py native (chars "roses") (chars "toned") false = Ok (PyLong hBA) /\
    hamming_py native (chars "roses") (chars "noses") false = Ok (PyLong hBC) /\
    hamming_py native (chars "toned") (chars "noses") false = Ok (PyLong hAC) /\
    0 <= hAB <= len (chars "toned") /\
    (hAB = 0 <-> chars "toned" = chars "roses") /\ hAB = hBA /\ hAC <= hAB + hBC.
Proof.
  split; [split; reflexivity|].
  apply (hamming_is_metric (chars "toned") (chars "roses") (chars "noses"));
    reflexivity.
Defined.

(** X4: the normalized [hamming] of two sequences of one length is a
    number between [0] and [1]; it is [0] exactly when the sequences are
    equal, and on non-empty sequences it is [1] exactly when they differ
    at every position. *)
Theorem hamming_normalized_range {T} `{EqDecision T} (A B : list T) :
  length A = length B ->
  exists q : Q,
    hamming_py native A B true = Ok (PyFloat (Real q)) /\
    (0 <= q <= 1)%Q /\
    ((q == 0)%Q <-> A = B) /\
    (A <> [] ->
     (q == 1)%Q <-> forall i x y, A !! i = Some x -> B !! i = Some y -> x <> y).
Proof.
  intros Hlen. rewrite hamming_py_native by done. unfold len, fdiv.
  destruct A as [|x A].
  { destruct B; [|discriminate]. exists 0%Q. repeat split; done. }
  replace (Z.of_nat (length (x :: A)) =? 0) with false
    by (symmetry; apply Z.eqb_neq; simpl; lia).
  eexists. split; [reflexivity|].
  pose proof (differing_le_length (x :: A) B) as Hle.
  destruct (ratio_facts (Z.of_nat (differing (x :: A) B)) (Z.of_nat (length (x :: A))))
    as [Hb Hz]; [lia | simpl; lia |].
  split; [exact Hb|]. split.
  - rewrite Hz, <- (differing_zero (x :: A) B Hlen). lia.
  - intros _. rewrite ratio_one by (simpl; lia).
    rewrite <- (differing_all (x :: A) B Hlen). lia.
Qed.

Lemma hamming_normalized_range_witness :
  length (chars "toned") = length (chars "roses") /\
  exists q : Q,
    hamming_py native (chars "toned") (chars "roses") true = Ok (PyFloat (Real q)) /\
    (0 <= q <= 1)%Q /\
    ((q == 0)%Q <-> chars "toned" = chars "roses") /\
    (chars "toned" <> [] ->
     (q == 1)%Q <-> forall i x y,
       chars "toned" !! i = Some x -> chars "roses" !! i = Some y -> x <> y).
Proof.
  split; [reflexivity|].
  apply (hamming_normalized_range (chars "toned") (chars "roses")). reflexivity.
Defined.

(** ** Oracles that can fail *)

Section AnyOracleHamming.
Context {T : Type}.
Variable COMP : T -> T -> Z.

Lemma fails_aligned_snoc (a b : list T) (x y : T) :
  length a = length b ->
  fails_aligned COMP (a ++ [x]) (b ++ [y])
  = fails_aligned COMP a b || (COMP x y =? -1).
Proof.
  revert b. induction a as [|x' a IH]; intros [|y' b] Hlen; simplify_eq/=.
  - by rewrite orb_false_r.
  - rewrite IH by done. by rewrite orb_assoc.
Qed.

Lemma answered_different_snoc (a b : list T) (x y : T) :
  length a = length b ->
  answered_different COMP (a ++ [x]) (b ++ [y])
  = (answered_different COMP a b + (if (COMP x y =? 0)%Z then 1 else 0))%nat.
Proof.
  revert b. induction a as [|x' a IH]; intros [|y' b] Hlen; simplify_eq/=; [lia|].
  rewrite IH by done. lia.
Qed.

Lemma fails_aligned_prefix (a b : list T) (n : nat) :
  length a = length b ->
  fails_aligned COMP (take n a) (take n b) = true -> fails_aligned COMP a b = true.
Proof.
  revert b n. induction a as [|x a IH]; intros [|y b] [|n] Hlen; simplify_eq/=;
    try done.
  intros [->%Z.eqb_eq | Hrest]%orb_true_iff.
  - by rewrite Z.eqb_refl.
  - rewrite (IH b n) by done. apply orb_true_r.
Qed.

Lemma answered_different_le (a b : list T) :
  (answered_different COMP a b <= length a)%nat.
Proof.
  revert b. induction a as [|x a IH]; intros [|y b]; simpl; try lia.
  specialize (IH b). destruct (COMP x y =? 0); lia.
Qed.

(** The scan of [hamming] against any oracle. *)
Lemma hamming_any (a b : list T) :
  length a = length b ->
  hamming COMP a b (len a) =
  Value (if fails_aligned COMP a b then -1
         else Z.of_nat (answered_different COMP a b)).
Proof.
  intros Hlen. unfold hamming, len.
  loop_rule (fun n dist =>
               fails_aligned COMP (take n a) (take n b) = false /\
               dist = Z.of_nat (answered_different COMP (take n a) (take n b)))
            (fun r : Z => r = -1 /\ fails_aligned COMP a b = true)
            0 (length a) Hloop.
  lapply Hloop; [clear Hloop; intros Hloop | by rewrite !take_0].
  lapply Hloop; [clear Hloop; intros Hloop|].
  - destruct (for_each _ _ _) as [dist|r|f]; cbn [loop_post finish] in *;
      [|by destruct Hloop as [-> ->] | done].
    destruct Hloop as [Hno ->]. rewrite !take_ge in * by lia. by rewrite Hno.
  - intros n dist Hn [Hno ->]. cbn [Z.add].
    destruct (lookup_lt_is_Some_2 a n Hn) as [x Hx].
    destruct (lookup_lt_is_Some_2 b n) as [y Hy]; [lia|].
    rewrite (item_inside a n x Hx), (item_inside b n y Hy). cbn [bind].
    assert (Hpre : fails_aligned COMP (take (S n) a) (take (S n) b)
                   = (COMP x y =? -1)).
    { rewrite (take_S_r _ _ _ Hx), (take_S_r _ _ _ Hy).
      rewrite fails_aligned_snoc by (rewrite !length_take; lia). by rewrite Hno. }
    destruct (COMP x y =? -1) eqn:Hfail; cbn [return_if bind loop_post].
    + split; [done|]. by apply (fails_aligned_prefix a b (S n)).
    + split; [done|].
      rewrite (take_S_r _ _ _ Hx), (take_S_r _ _ _ Hy).
      rewrite answered_different_snoc by (rewrite !length_take; lia).
      destruct (COMP x y =? 0); lia.
Qed.

(** X5: [hamming] against an oracle that can raise. On sequences of one
    length the entry point raises the comparison error exactly when the
    oracle raises on the pair of elements at some position; otherwise it
    returns the number of positions at which the oracle answers [0], any
    other answer counting as equal. No partial count is handed back, and
    the scan never leaves the sequences. *)
Theorem hamming_failing_oracle (A B : list T) :
  length A = length B ->
  hamming_py COMP A B false =
    (if fails_aligned COMP A B then Raise ComparisonFailed
     else Ok (PyLong (Z.of_nat (answered_different COMP A B)))) /\
  (answered_different COMP A B <= length A)%nat /\
  (fails_aligned COMP A B = true <->
   exists i x y, A !! i = Some x /\ B !! i = Some y /\ COMP x y = -1).
Proof.
  intros Hlen. split; [|split; [apply answered_different_le|]].
  - unfold hamming_py.
    replace (len A =? len B) with true by (symmetry; apply Z.eqb_eq; unfold len; lia).
    cbn [negb]. rewrite hamming_any by done.
    destruct (fails_aligned COMP A B); [reflexivity|].
    by decide_test (Z.of_nat (answered_different COMP A B) =? -1).
  - clear Hlen. revert B. induction A as [|x A IH]; intros [|y B]; simpl.
    + split; [done|]. intros (i & x & y & Hx & _). by rewrite lookup_nil in Hx.
    + split; [done|]. intros (i & x & y' & Hx & _). by rewrite lookup_nil in Hx.
    + split; [done|]. intros (i & x' & y & _ & Hy & _). by rewrite lookup_nil in Hy.
    + rewrite orb_true_iff, IH, Z.eqb_eq. split.
      * intros [Hc | (i & x' & y' & Hx & Hy & Hc)].
        -- by exists 0%nat, x, y.
        -- by exists (S i), x', y'.
      * intros ([|i] & x' & y' & Hx & Hy & Hc); simplify_eq/=; [by left|].
        right. by exists i, x', y'.
Qed.
End AnyOracleHamming.

Lemma hamming_failing_oracle_witness :
  length [1; 2; 3] = length [1; 5; 7] /\
  hamming_py (refusing 3) [1; 2; 3] [1; 5; 7] false =
    (if fails_aligned (refusing 3) [1; 2; 3] [1; 5; 7]
     then Raise ComparisonFailed
     else Ok (PyLong (Z.of_nat (answered_different (refusing 3)
                                  [1; 2; 3] [1; 5; 7])))) /\
  (answered_different (refusing 3) [1; 2; 3]%Z [1; 5; 7]%Z <= length [1; 2; 3]%Z)%nat /\
  (fails_aligned (refusing 3) [1; 2; 3] [1; 5; 7] = true <->
   exists i x y, [1; 2; 3] !! i = Some x /\ [1; 5; 7] !! i = Some y /\
                 refusing 3 x y = -1).
Proof.
  split; [reflexivity|].
  apply (hamming_failing_oracle (refusing 3) [1; 2; 3] [1; 5; 7]).
  reflexivity.
Defined.

Section AnyOracle.
Context {T : Type}.
Variable COMP : T -> T -> Z.
Variable m : machine.
Variables seq1 seq2 : list T.
Local Abbreviation len2 := (length seq2).

Lemma existsb_elem_of {A} (f : A -> bool) (l : list A) :
  existsb f l = true <-> exists x, x ∈ l /\ f x = true.
Proof.
  induction l as [|a l IH]; simpl.
  - split; [done|]. intros (x & Hx & _). inv Hx.
  - rewrite orb_true_iff, IH. split.
    + intros [Ha | (x & Hx & Hf)]; [exists a | exists x]; split; try done.
      * apply list_elem_of_here.
      * by apply list_elem_of_further.
    + intros (x & Hx & Hf). apply elem_of_cons in Hx as [-> | Hx]; [by left|].
      right. by exists x.
Qed.

Lemma fails_anywhere_true (a b : list T) :
  fails_anywhere COMP a b = true <->
  exists x y, x ∈ a /\ y ∈ b /\ COMP x y = -1.
Proof.
  unfold fails_anywhere. rewrite existsb_elem_of. split.
  - intros (x & Hx & (y & Hy & Hc%Z.eqb_eq)%existsb_elem_of). by exists x, y.
  - intros (x & y & Hx & Hy & Hc). exists x. split; [done|].
    apply existsb_elem_of. exists y. split; [done|]. by apply Z.eqb_eq.
Qed.

Lemma fails_at (i j : nat) (x y : T) :
  seq1 !! i = Some x -> seq2 !! j = Some y -> COMP x y = -1 ->
  fails_anywhere COMP seq1 seq2 = true.
Proof.
  intros Hx Hy Hc. apply fails_anywhere_true. exists x, y.
  split; [by eapply list_elem_of_lookup_2|]. split; [by eapply list_elem_of_lookup_2|].
  done.
Qed.

Lemma quiet_never_fails :
  quiet_rows COMP seq1 seq2 (length seq1) -> fails_anywhere COMP seq1 seq2 = false.
Proof.
  intros Hq. destruct (fails_anywhere COMP seq1 seq2) eqn:Hf; [|done].
  apply fails_anywhere_true in Hf as (x & y & Hx & Hy & Hc).
  apply list_elem_of_lookup in Hx as [i Hx]. apply list_elem_of_lookup in Hy as [j Hy].
  destruct (Hq i j x y); [by eapply lookup_lt_Some | done..].
Qed.

Lemma quiet_cells_row i :
  quiet_cells COMP seq1 seq2 i len2 -> quiet_rows COMP seq1 seq2 (S i).
Proof.
  intros [Hrows Hcells] i' j x y Hi' Hx Hy.
  destruct (decide (i' = i)) as [->|Hne].
  - apply (Hcells j x y); [by eapply lookup_lt_Some | done..].
  - apply (Hrows i' j x y); [lia | done..].
Qed.

Lemma quiet_cells_next i n x y :
  seq1 !! i = Some x -> seq2 !! n = Some y -> COMP x y <> -1 ->
  quiet_cells COMP seq1 seq2 i n -> quiet_cells COMP seq1 seq2 i (S n).
Proof.
  intros Hx Hy Hc [Hrows Hcells]. split; [done|]. intros j x' y' Hj Hx' Hy'.
  destruct (decide (j = n)) as [->|Hne]; [by simplify_eq|].
  apply (Hcells j x' y'); [lia | done..].
Qed.

Lemma quiet_rows_start i :
  quiet_rows COMP seq1 seq2 i -> quiet_cells COMP seq1 seq2 i 0.
Proof. intros Hq. split; [done|]. intros j x y Hj. lia. Qed.

(** The first loop of [levenshtein], which numbers the cells. *)
Lemma numbered_row (column : list Z) :
  length column = S len2 ->
  exists column0,
    for_each (seqZ 1 (Z.of_nat len2)) (fun j c => store c j j) column
    = Next (R := Z) column0 /\
    length column0 = S len2 /\
    forall k, (0 < k <= len2)%nat -> column0 !! k = Some (Z.of_nat k).
Proof.
  intros Hlen.
  pose proof (for_each_rule
                (fun n c => length c = S len2 /\
                   forall k, (0 < k <= n)%nat -> c !! k = Some (Z.of_nat k))
                (fun _ : Z => False) 1 len2
                (fun j c => store c j j) column) as Hinit.
  apply loop_post_next in Hinit as (column0 & -> & Hlen0 & Hrow0); cycle 1.
  { split; [done | intros k Hk; lia]. }
  { intros n c Hn [Hl Hc].
    replace (1 + Z.of_nat n) with (Z.of_nat (S n)) by lia.
    rewrite store_inside by lia. cbn [loop_post]. split.
    - by rewrite length_insert.
    - intros k Hk. destruct (decide (k = S n)) as [->|Hne].
      + by rewrite list_lookup_insert_eq by lia.
      + rewrite list_lookup_insert_ne by lia. apply Hc. lia. }
  by exists column0.
Qed.

Lemma levenshtein_cell_bounded i n st :
  (i < length seq1)%nat -> (n < len2)%nat -> bounded_filling COMP seq1 seq2 i n st ->
  loop_post (bounded_filling COMP seq1 seq2 i (S n))
    (stopped_by_oracle COMP seq1 seq2 (-3))
    (levenshtein_cell COMP m seq1 seq2 (1 + Z.of_nat i) (1 + Z.of_nat n) st).
Proof.
  intros Hi Hn (Hlen & Hnew & Hold & Hlast & Hquiet). destruct st as [column last].
  cbn [fst snd] in *.
  destruct (lookup_lt_is_Some_2 seq1 i Hi) as [x Hx].
  destruct (lookup_lt_is_Some_2 seq2 n Hn) as [y Hy].
  destruct (Hold (S n) ltac:(lia)) as (up & Hup & Bup).
  destruct (Hnew n ltac:(lia)) as (lft & Hlft & Blft).
  unfold levenshtein_cell.
  replace (1 + Z.of_nat n) with (Z.of_nat (S n)) by lia.
  replace (1 + Z.of_nat i - 1) with (Z.of_nat i) by lia.
  replace (Z.of_nat (S n) - 1) with (Z.of_nat n) by lia.
  rewrite (load_inside m column (S n) _ Hup). cbn [bind].
  rewrite (item_inside seq1 i x Hx), (item_inside seq2 n y Hy). cbn [bind].
  destruct (COMP x y =? -1) eqn:Hfail; cbn [return_if bind loop_post]; zbool.
  { split; [done|]. by apply (fails_at i n x y). }
  rewrite (load_inside m column n _ Hlft). cbn [bind].
  rewrite store_inside by lia. cbn [bind loop_post].
  split; [|split; [|split; [|split]]]; cbn [fst snd].
  - rewrite length_insert. exact Hlen.
  - intros k Hk. destruct (decide (k = S n)) as [->|Hne].
    + rewrite list_lookup_insert_eq by lia. eexists. split; [reflexivity|].
      rewrite MIN3_min. unfold within in *. destruct (COMP x y =? 0); lia.
    + rewrite list_lookup_insert_ne by lia. apply Hnew. lia.
  - intros k Hk. rewrite list_lookup_insert_ne by lia. apply Hold. lia.
  - exact Bup.
  - by apply (quiet_cells_next i n x y).
Qed.

Lemma levenshtein_row_bounded (max_dist : Z) i column :
  max_dist < 0 -> (i < length seq1)%nat -> bounded_filled COMP seq1 seq2 i column ->
  loop_post (bounded_filled COMP seq1 seq2 (S i))
    (stopped_by_oracle COMP seq1 seq2 (-3))
    (levenshtein_row COMP m seq1 seq2 (Z.of_nat len2) max_dist (1 + Z.of_nat i) column).
Proof.
  intros Hmd Hi (Hlen & Hrow & Hquiet). unfold levenshtein_row.
  rewrite (store_inside column 0) by lia. cbn [bind].
  replace (1 + Z.of_nat i - 1) with (Z.of_nat i) by lia.
  loop_rule (bounded_filling COMP seq1 seq2 i) (stopped_by_oracle COMP seq1 seq2 (-3))
            1 (length seq2) Hloop.
  lapply Hloop; [clear Hloop; intros Hloop|].
  2:{ split; [|split; [|split; [|split]]]; cbn [fst snd].
      - by rewrite length_insert.
      - intros k Hk. replace k with O by lia.
        rewrite list_lookup_insert_eq by lia. eexists. split; [reflexivity|].
        unfold within. lia.
      - intros k Hk. rewrite list_lookup_insert_ne by lia. apply Hrow. lia.
      - unfold within. lia.
      - by apply quiet_rows_start. }
  lapply Hloop; [clear Hloop; intros Hloop|].
  2:{ intros n st Hn Hst. by apply levenshtein_cell_bounded. }
  destruct (for_each _ _ _) as [[column' last']|r|f]; cbn [loop_post bind] in *;
    [|done|done].
  replace (max_dist >=? 0) with false
    by (symmetry; rewrite Z.geb_leb; apply Z.leb_gt; lia).
  cbn [bind loop_post fst].
  destruct Hloop as (Hlen' & Hnew & _ & _ & Hq). cbn [fst snd] in *.
  split; [done|]. split; [|by apply quiet_cells_row].
  intros k Hk. apply Hnew. lia.
Qed.

(** The uncapped call on ordered operands, against any oracle. *)
Lemma levenshtein_ordered_bounded (max_dist : Z) :
  max_dist < 0 -> malloc_ok m 0 = true -> (len2 <= length seq1)%nat ->
  exists d,
    finish (levenshtein_ordered COMP m seq1 seq2 (len seq1) (len seq2) max_dist)
    = Value d /\
    (if fails_anywhere COMP seq1 seq2 then d = -3
     else len seq1 - len seq2 <= d <= len seq1).
Proof.
  intros Hmd Hm0 Hle. unfold levenshtein_ordered, len.
  replace (max_dist >=? 0) with false
    by (symmetry; rewrite Z.geb_leb; apply Z.leb_gt; lia).
  cbn [andb return_if bind].
  destruct (Z.of_nat (length seq1) =? 0) eqn:H1; cbn [return_if bind finish]; zbool.
  { destruct seq1; [|discriminate]. destruct seq2; [|simpl in Hle; lia].
    exists 0. split; [reflexivity|]. simpl. lia. }
  destruct (Z.of_nat len2 =? 0) eqn:H2; cbn [return_if bind finish]; zbool.
  { destruct seq2; [|discriminate]. eexists. split; [reflexivity|].
    replace (fails_anywhere COMP seq1 []) with false; [simpl; lia|].
    symmetry. apply not_true_is_false. intros Hf.
    apply fails_anywhere_true in Hf as (x & y & _ & Hy & _). inv Hy. }
  unfold malloc. rewrite Hm0.
  destruct (numbered_row (junk m <$> seqZ 0 (Z.of_nat len2 + 1)))
    as (column0 & -> & Hlen0 & Hrow0).
  { rewrite length_fmap, length_seqZ. lia. }
  cbn [bind].
  loop_rule (bounded_filled COMP seq1 seq2) (stopped_by_oracle COMP seq1 seq2 (-3))
            1 (length seq1) Hrows.
  lapply Hrows; [clear Hrows; intros Hrows|].
  2:{ split; [done|]. split.
      - intros k Hk. exists (Z.of_nat k). split; [by apply Hrow0|]. unfold within. lia.
      - intros i' j x y Hi'. lia. }
  lapply Hrows; [clear Hrows; intros Hrows|].
  2:{ intros n st Hn Hst. by apply levenshtein_row_bounded. }
  destruct (for_each (seqZ 1 (Z.of_nat (length seq1))) _ column0) as [column|r|f];
    cbn [loop_post bind finish] in *; [| |contradiction].
  - destruct Hrows as (Hlen & Hrow & Hq).
    destruct (Hrow len2 ltac:(lia)) as (v & Hv & Bv).
    rewrite (load_inside m column len2 v Hv). cbn [bind finish].
    exists v. split; [reflexivity|]. rewrite quiet_never_fails by done.
    unfold within in Bv. lia.
  - destruct Hrows as [-> ->]. by exists (-3).
Qed.
End AnyOracle.

(** X6: the uncapped [levenshtein] against an oracle that can raise.
    When the allocation succeeds the call returns, for every oracle: it
    never reads or writes outside its row. The entry point raises the
    comparison error exactly when the oracle raises on some element of
    the longer operand paired with some element of the shorter one;
    otherwise the value lies between the difference of the lengths and
    the longer length, whatever the oracle answers. *)
Theorem levenshtein_failing_oracle {T} (COMP : T -> T -> Z) (m : machine)
    (A B : list T) :
  malloc_ok m 0 = true ->
  exists d : Z,
    levenshtein COMP m A B (-1) = Value d /\
    levenshtein_py COMP m A B false (-1)
      = (if d =? -3 then Raise ComparisonFailed else Ok (PyLong d)) /\
    (if fails_anywhere COMP (ordered A B).1 (ordered A B).2
     then d = -3
     else Z.abs (len A - len B) <= d <= Z.max (len A) (len B)).
Proof.
  intros Hm0.
  assert (Hcall : exists d, levenshtein COMP m A B (-1) = Value d /\
            (if fails_anywhere COMP (ordered A B).1 (ordered A B).2
             then d = -3
             else Z.abs (len A - len B) <= d <= Z.max (len A) (len B))).
  { unfold levenshtein, ordered.
    destruct (len A <? len B) eqn:Hswap; zbool; unfold len in Hswap; cbn [fst snd].
    - destruct (levenshtein_ordered_bounded COMP m B A (-1) ltac:(lia) Hm0 ltac:(lia)) as (d & -> & Hd).
      exists d. split; [done|]. destruct (fails_anywhere COMP B A); [done|].
      unfold len in *. lia.
    - destruct (levenshtein_ordered_bounded COMP m A B (-1) ltac:(lia) Hm0 ltac:(lia)) as (d & -> & Hd).
      exists d. split; [done|]. destruct (fails_anywhere COMP A B); [done|].
      unfold len in *. lia. }
  destruct Hcall as (d & Hcall & Hd). exists d. split; [done|]. split; [|done].
  unfold levenshtein_py. rewrite Hcall.
  destruct (fails_anywhere COMP _ _).
  - by subst d.
  - decide_test (d =? -3). decide_test (d <? -1). done.
Qed.

Lemma levenshtein_failing_oracle_witness :
  malloc_ok checked 0 = true /\
  exists d : Z,
    levenshtein (refusing 3) checked [1; 2] [4; 3; 2] (-1) = Value d /\
    levenshtein_py (refusing 3) checked [1; 2] [4; 3; 2] false (-1)
      = (if d =? -3 then Raise ComparisonFailed else Ok (PyLong d)) /\
    (if fails_anywhere (refusing 3) (ordered [1; 2] [4; 3; 2]).1
          (ordered [1; 2] [4; 3; 2]).2
     then d = -3
     else Z.abs (len [1; 2] - len [4; 3; 2]) <= d
          <= Z.max (len [1; 2]) (len [4; 3; 2])).
Proof.
  split; [reflexivity|].
  apply (levenshtein_failing_oracle (refusing 3) checked [1; 2] [4; 3; 2]).
  reflexivity.
Defined.

Section AnyOracleLcs.
Context {T : Type}.
Variable COMP : T -> T -> Z.
Variable m : machine.
Variables seq1 seq2 : list T.


End AnyOracleLcs.



Section AnyOracleWalk.
Context {T : Type}.
Variable COMP : T -> T -> Z.
Variables seq1 seq2 : list T.
Variable transpositions : bool.
Variable ldiff : Z.
Variables m0 m1 : ascii.
Local Abbreviation model := [m0; m1; zero].
Local Abbreviation inside w :=
  (exists i' j' c' : nat, w = (Z.of_nat i', Z.of_nat j', Z.of_nat c') /\
     (i' <= length seq1)%nat /\ (j' <= length seq2)%nat /\ (c' <= 3)%nat).



End AnyOracleWalk.

Section AnyOracleComparator.
Context {T : Type}.
Variable COMP : T -> T -> Z.
Variable transpositions : bool.


End AnyOracleComparator.

(** ** One call of [next] *)

Section NextCall.
Context {T : Type}.
Variable COMP : T -> T -> Z.
Variable m : machine.
Variable ref : list T.
Variable tr : bool.
Variable k : Z.
Local Abbreviation state cands :=
  {| itor := cands; seq1 := ref; transpos := tr; max_dist := k |}.

(** X9: one call of [next] on the [ilevenshtein] iterator, against any
    oracle and on any machine. The call consumes the leading candidates
    for which [levenshtein] answers [-1] and the first candidate for
    which it answers anything else, and leaves the others for the calls
    to come. It yields that candidate with its distance, or raises the
    error its code stands for; and when every candidate left is answered
    with [-1] it ends the iteration. After an error the iterator stands
    behind the candidate that failed. *)
Theorem ilevenshtein_next_consumes (skipped rest : list (list T)) (c : list T) (d : Z) :
  (forall s, s ∈ skipped -> levenshtein COMP m ref s k = Value (-1)) ->
  levenshtein COMP m ref c k = Value d -> d <> -1 ->
  ilevenshtein_next COMP m (state (skipped ++ c :: rest))
  = (if d <? -1
     then Raised (if d =? -2 then OutOfMemory else ComparisonFailed)
     else Yield (d, c),
     state rest) /\
  ilevenshtein_next COMP m (state skipped) = (StopIteration, state []).
Proof.
  intros Hskipped Hc Hd. unfold ilevenshtein_next. cbn [itor seq1 max_dist transpos].
  induction skipped as [|s skipped IH]; cbn [app ilevenshtein_pull].
  - rewrite Hc. split; [|done].
    destruct (d <? -1) eqn:Hneg; [by destruct (d =? -2)|].
    by decide_test (d =? -1).
  - rewrite (Hskipped s) by apply list_elem_of_here.
    change (-1 <? -1) with false. change (negb (-1 =? -1)) with false. cbv iota.
    apply IH. intros s' Hs'. apply Hskipped. by apply list_elem_of_further.
Qed.

(** X10: one call of [next] on the [ifast_comp] iterator, against any
    oracle. The call consumes the leading candidates for which
    [fastcomp] answers [-1] and the first candidate for which it answers
    anything else; it yields that candidate with the answer, or raises
    the comparison error when the answer is [-2], and leaves the other
    candidates for the calls to come. When every candidate left is
    answered with [-1] it ends the iteration. *)
Theorem ifastcomp_next_consumes (skipped rest : list (list T)) (c : list T) (d : Z) :
  (forall s, s ∈ skipped -> fastcomp COMP ref s tr = Value (-1)) ->
  fastcomp COMP ref c tr = Value d -> d <> -1 ->
  ifastcomp_next COMP (state (skipped ++ c :: rest))
  = (if d =? -2 then Raised ComparisonFailed else Yield (d, c), state rest) /\
  ifastcomp_next COMP (state skipped) = (StopIteration, state []).
Proof.
  intros Hskipped Hc Hd. unfold ifastcomp_next. cbn [itor seq1 max_dist transpos].
  induction skipped as [|s skipped IH]; cbn [app ifastcomp_pull].
  - rewrite Hc. split; [|done].
    destruct (d =? -2) eqn:Hfail; [done|]. by decide_test (d =? -1).
  - rewrite (Hskipped s) by apply list_elem_of_here.
    change (-1 =? -2) with false. change (negb (-1 =? -1)) with false. cbv iota.
    apply IH. intros s' Hs'. apply Hskipped. by apply list_elem_of_further.
Qed.
End NextCall.

Lemma ilevenshtein_next_consumes_witness :
  ((forall s, s ∈ [chars "fo"; chars "f"] ->
      levenshtein native (lenient 33) (chars "foobar") s 2 = Value (-1)) /\
   levenshtein native (lenient 33) (chars "foobar") (chars "foobaz") 2 = Value 1 /\
   1 <> -1) /\
  ilevenshtein_next native (lenient 33)
    {| itor := [chars "fo"; chars "f"] ++ chars "foobaz" :: [chars "bar"];
       seq1 := chars "foobar"; transpos := false; max_dist := 2 |}
  = (if 1 <? -1
     then Raised (if 1 =? -2 then OutOfMemory else ComparisonFailed)
     else Yield (1, chars "foobaz"),
     {| itor := [chars "bar"]; seq1 := chars "foobar"; transpos := false;
        max_dist := 2 |}) /\
  ilevenshtein_next native (lenient 33)
    {| itor := [chars "fo"; chars "f"]; seq1 := chars "foobar"; transpos := false;
       max_dist := 2 |}
  = (StopIteration,
     {| itor := []; seq1 := chars "foobar"; transpos := false; max_dist := 2 |}).
Proof.
  assert (Hskipped : forall s, s ∈ [chars "fo"; chars "f"] ->
            levenshtein native (lenient 33) (chars "foobar") s 2 = Value (-1)).
  { intros s Hs. apply elem_of_cons in Hs as [-> | Hs]; [reflexivity|].
    apply elem_of_cons in Hs as [-> | Hs]; [reflexivity | inv Hs]. }
  split; [split; [exact Hskipped | split; [reflexivity | lia]] |].
  apply (ilevenshtein_next_consumes native (lenient 33) (chars "foobar") false 2
           [chars "fo"; chars "f"] [chars "bar"] (chars "foobaz") 1);
    [exact Hskipped | reflexivity | lia].
Defined.

Lemma ifastcomp_next_consumes_witness :
  ((forall s, s ∈ [chars "bar"] ->
      fastcomp native (chars "foo") s false = Value (-1)) /\
   fastcomp native (chars "foo") (chars "foob") false = Value 1 /\
   1 <> -1) /\
  ifastcomp_next native
    {| itor := [chars "bar"] ++ chars "foob" :: [chars "foo"];
       seq1 := chars "foo"; transpos := false; max_dist := 0 |}
  = (if 1 =? -2 then Raised ComparisonFailed else Yield (1, chars "foob"),
     {| itor := [chars "foo"]; seq1 := chars "foo"; transpos := false;
        max_dist := 0 |}) /\
  ifastcomp_next native
    {| itor := [chars "bar"]; seq1 := chars "foo"; transpos := false; max_dist := 0 |}
  = (StopIteration,
     {| itor := []; seq1 := chars "foo"; transpos := false; max_dist := 0 |}).
Proof.
  assert (Hskipped : forall s, s ∈ [chars "bar"] ->
            fastcomp native (chars "foo") s false = Value (-1)).
  { intros s Hs. apply elem_of_cons in Hs as [-> | Hs]; [reflexivity | inv Hs]. }
  split; [split; [exact Hskipped | split; [reflexivity | lia]] |].
  apply (ifastcomp_next_consumes native (chars "foo") false 0
           [chars "bar"] [chars "foo"] (chars "foob") 1);
    [exact Hskipped | reflexivity | lia].
Defined.

(** ** The substrings put into the set *)

Section SetPath.
Context {T : Type} `{EqDecision T}.
Variable m : machine.

Lemma common_sym (a b : list T) (p q n : nat) : common a b p q n <-> common b a q p n.
Proof. unfold common. split; intros (H1 & H2 & H3); by repeat split. Qed.

(** The slices cut from the shorter operand at the positions of the
    stack are the common substrings of the greatest length. *)
Lemma make_set_longest (arg1 L S : list T) :
  let cells := scan (length S) (length L) 0 in
  let mlen := best L S cells in
  mlen <> 0%nat ->
  forall s,
    s ∈ lcsubstrings_py_make_set arg1 S (ties L S cells) (Z.of_nat mlen) <->
    exists p q, common L S p q mlen /\ s = take mlen (drop q S).
Proof.
  intros cells mlen Hne s. unfold lcsubstrings_py_make_set.
  rewrite list_elem_of_fmap. split.
  - intros ([i j] & -> & Hin). cbn [fst snd].
    unfold ties in Hin. apply list_elem_of_fmap in Hin as ([i' j'] & Heq & Hin).
    cbn [fst snd] in Heq. simplify_eq.
    apply list_elem_of_filter in Hin as [Hr Hin]. cbn [fst snd] in Hr.
    apply elem_of_scan in Hin as [Hi Hj].
    pose proof (run_bound L S i' j') as [Hb1 Hb2]. fold cells in Hr. fold mlen in Hr.
    exists (Datatypes.S i' - mlen)%nat, (Datatypes.S j' - mlen)%nat. split.
    + rewrite <- Hr. by apply run_common.
    + unfold slice. f_equal; [lia|]. f_equal. lia.
  - intros (p & q & Hc & ->).
    destruct mlen as [|n] eqn:Hm; [done|].
    pose proof (common_run L S p q n Hc) as Hrun.
    pose proof Hc as (H1 & H2 & _).
    assert (Hin : ((p + n)%nat, (q + n)%nat) ∈ cells) by (apply elem_of_scan; lia).
    pose proof (best_ge L S _ _ Hin) as Hge. cbn [fst snd] in Hge.
    fold mlen in Hge. rewrite Hm in Hge.
    exists (Z.of_nat (p + n), Z.of_nat (q + n)). split.
    + cbn [fst snd]. unfold slice. f_equal; [lia|]. f_equal. lia.
    + apply elem_of_ties; [fold cells; fold mlen; lia|].
      split; [lia|]. split; [lia|]. fold cells. fold mlen. lia.
Qed.

(** X11: without [positions], [lcsubstrings] on two sequences that share
    an element hands back exactly the common substrings of the greatest
    length: every slice put into the set occurs in both sequences and
    has that length, every common substring of that length is among
    them, and no common substring is longer. This holds in either order
    of the operands; the slices are cut from the shorter one. *)
Theorem lcsubstrings_py_substrings (A B : list T) :
  malloc_ok m 0 = true -> (exists x, x ∈ A /\ x ∈ B) ->
  exists (mlen : nat) (found : list (list T)),
    lcsubstrings_py native m A B false = Ok (Substrings found) /\
    (0 < mlen)%nat /\
    (forall p q n, common A B p q n -> (n <= mlen)%nat) /\
    (forall s, s ∈ found <->
       exists p q, common A B p q mlen /\ s = take mlen (drop p A)).
Proof.
  intros Hm0 Hcommon. unfold lcsubstrings_py.
  destruct (len A <? len B) eqn:Hswap; zbool; unfold len in Hswap.
  - assert (Hshared : exists x, x ∈ B /\ x ∈ A)
      by (destruct Hcommon as (x & H1 & H2); by exists x).
    pose proof (best_positive B A Hshared) as Hne.
    rewrite lcsubstrings_longest by (done || lia).
    exists (best B A (scan (length A) (length B) 0)). eexists.
    split; [reflexivity|]. split; [lia|]. split.
    + intros p q n Hc%common_sym.
      by apply (proj2 (best_longest_common B A Hne) q p n).
    + intros s. rewrite (make_set_longest B B A Hne). split.
      * intros (p & q & Hc & ->). exists q, p. split; [by apply common_sym | done].
      * intros (p & q & Hc & ->). exists q, p. split; [by apply common_sym | done].
  - pose proof (best_positive A B Hcommon) as Hne.
    rewrite lcsubstrings_longest by (done || lia).
    exists (best A B (scan (length B) (length A) 0)). eexists.
    split; [reflexivity|]. split; [lia|]. split.
    + apply (best_longest_common A B Hne).
    + intros s. rewrite (make_set_longest A A B Hne). split.
      * intros (p & q & Hc & ->). exists p, q. split; [done|].
        by destruct Hc as (_ & _ & ->).
      * intros (p & q & Hc & ->). exists p, q. split; [done|].
        by destruct Hc as (_ & _ & ->).
Qed.
End SetPath.

Lemma lcsubstrings_py_substrings_witness :
  (malloc_ok checked 0 = true /\
   exists x, x ∈ chars "dentist" /\ x ∈ chars "sedentar") /\
  exists (mlen : nat) (found : list (list ascii)),
    lcsubstrings_py native checked (chars "dentist") (chars "sedentar") false
      = Ok (Substrings found) /\
    (0 < mlen)%nat /\
    (forall p q n, common (chars "dentist") (chars "sedentar") p q n -> (n <= mlen)%nat) /\
    (forall s, s ∈ found <->
       exists p q, common (chars "dentist") (chars "sedentar") p q mlen
                   /\ s = take mlen (drop p (chars "dentist"))).
Proof.
  assert (Hc : exists x, x ∈ chars "dentist" /\ x ∈ chars "sedentar").
  { exists "d"%char. split; [apply list_elem_of_here|].
    do 2 apply list_elem_of_further. apply list_elem_of_here. }
  split; [split; [reflexivity | exact Hc] |].
  apply (lcsubstrings_py_substrings checked (chars "dentist") (chars "sedentar"));
    [reflexivity | exact Hc].
Defined.



(** ** The row minimum where the word before the row can be read *)

Lemma least_bounds (g : Z) (l : list Z) :
  least g l <= g /\ (forall e, e ∈ l -> least g l <= e) /\
  (least g l = g \/ least g l ∈ l).
Proof.
  induction l as [|a l (IH1 & IH2 & IH3)]; cbn [least foldr].
  - split; [lia|]. split; [intros e He; inv He | by left].
  - fold (least g l). split; [lia|]. split.
    + intros e [-> | He]%elem_of_cons; [lia|]. specialize (IH2 e He). lia.
    + destruct (Z.min_spec a (least g l)) as [[_ ->] | [_ ->]].
      * right. apply list_elem_of_here.
      * destruct IH3 as [-> | Hin]; [by left|]. right. by apply list_elem_of_further.
Qed.

(** X13: on a machine on which the word in front of the row can be read
    and holds [g], [minimum] on a whole non-empty row returns the least
    of [g] and the entries of the row. So the value is at most every
    entry, and it is an entry of the row unless [g] is smaller than all
    of them. *)
Theorem minimum_least_with_guard (m : machine) (g : Z) (column : list Z) :
  stray m (-1) = Some g -> column <> [] ->
  exists v : Z,
    minimum m column (len column) = Value v /\
    v <= g /\ (forall e, e ∈ column -> v <= e) /\ (v = g \/ v ∈ column) /\
    ((forall e, e ∈ column -> e <= g) -> v ∈ column).
Proof.
  intros Hg Hne. rewrite minimum_spec, Hg by done.
  exists (least g column). split; [done|].
  destruct (least_bounds g column) as (H1 & H2 & H3).
  split; [done|]. split; [done|]. split; [done|].
  intros Hall. destruct H3 as [Heq | Hin]; [|done].
  destruct column as [|a column]; [done|].
  assert (Ha : a ∈ a :: column) by apply list_elem_of_here.
  specialize (H2 a Ha). specialize (Hall a Ha).
  assert (a = least g (a :: column)) as <- by lia. done.
Qed.

Lemma minimum_least_with_guard_witness :
  (stray (lenient 2) (-1) = Some 2 /\ [5; 3; 4] <> []) /\
  exists v : Z,
    minimum (lenient 2) [5; 3; 4] (len [5; 3; 4]) = Value v /\
    v <= 2 /\ (forall e, e ∈ [5; 3; 4] -> v <= e) /\ (v = 2 \/ v ∈ [5; 3; 4]) /\
    ((forall e, e ∈ [5; 3; 4] -> e <= 2) -> v ∈ [5; 3; 4]).
Proof.
  split; [split; [reflexivity | discriminate] |].
  apply (minimum_least_with_guard (lenient 2) 2 [5; 3; 4]);
    [reflexivity | discriminate].
Defined.

(** ** The stream without a cap *)

(** X14: without a cap ([max_dist] negative) the [ilevenshtein] iterator
    needs nothing of the machine but its allocations: iterated to
    exhaustion over a finite stream it yields every candidate, in order,
    with its edit distance to the reference sequence, and then ends the
    iteration. *)
Theorem ilevenshtein_uncapped_stream {T} `{EqDecision T} (m : machine)
    (ref : list T) (cands : list (list T)) (k : Z) (tr : bool) :
  malloc_ok m 0 = true -> k < 0 ->
  drain (S (length cands)) (ilevenshtein_next native m)
    {| itor := cands; seq1 := ref; transpos := tr; max_dist := k |}
  = ((fun c => (Z.of_nat (lev ref c), c)) <$> cands, Some StopIteration).
Proof.
  intros Hm0 Hk. induction cands as [|c cands IH]; [reflexivity|].
  cbn [length]. remember (S (length cands)) as fuel eqn:Hfuel.
  cbn [drain]. unfold ilevenshtein_next at 1.
  cbn [itor seq1 max_dist transpos ilevenshtein_pull].
  rewrite levenshtein_native by (done || (left; lia)).
  rewrite capped_free by done.
  replace (Z.of_nat (lev ref c) <? -1) with false by (symmetry; apply Z.ltb_ge; lia).
  replace (Z.of_nat (lev ref c) =? -1) with false by (symmetry; apply Z.eqb_neq; lia).
  cbn [negb fst snd]. rewrite IH. reflexivity.
Qed.

Lemma ilevenshtein_uncapped_stream_witness :
  (malloc_ok checked 0 = true /\ -1 < 0) /\
  drain (S (length [chars "fo"; chars "bar"; chars "foobaz"]))
    (ilevenshtein_next native checked)
    {| itor := [chars "fo"; chars "bar"; chars "foobaz"]; seq1 := chars "foo";
       transpos := false; max_dist := -1 |}
  = ((fun c => (Z.of_nat (lev (chars "foo") c), c))
       <$> [chars "fo"; chars "bar"; chars "foobaz"], Some StopIteration).
Proof.
  split; [split; [reflexivity | lia] |].
  apply (ilevenshtein_uncapped_stream checked (chars "foo")
           [chars "fo"; chars "bar"; chars "foobaz"] (-1) false); [reflexivity | lia].
Defined.

(** ** The alignment that method 2 measures *)

Section AlignmentFacts.
Context {T : Type} `{EqDecision T}.
Implicit Types a b : list T.

Lemma aligned_edits a b n l : aligned a b n l -> edits a b n.
Proof. induction 1; by constructor. Qed.

Lemma aligned_cost a b n l : aligned a b n l -> (lev a b <= n)%nat.
Proof. intros Ha. by apply lev_le_edits, (aligned_edits a b n l). Qed.

Lemma aligned_columns a b n l :
  aligned a b n l ->
  (Nat.max (length a) (length b) <= l <= length a + length b)%nat /\ (n <= l)%nat.
Proof. induction 1; simpl; lia. Qed.

Lemma aligned_insert_all b : aligned [] b (length b) (length b).
Proof. induction b; simpl; [constructor | by apply aligned_insert]. Qed.

Lemma aligned_delete_all a : aligned a [] (length a) (length a).
Proof. induction a; simpl; [constructor | by apply aligned_delete]. Qed.

Lemma aligned_sym a b n l : aligned a b n l -> aligned b a n l.
Proof. induction 1; by constructor. Qed.

Lemma aligned_app a b n l c d k l' :
  aligned a b n l -> aligned c d k l' -> aligned (a ++ c) (b ++ d) (n + k) (l + l').
Proof. induction 1; intros Hcd; simpl; [done | by constructor; auto ..]. Qed.

Lemma aligned_rev a b n l : aligned a b n l -> aligned (rev a) (rev b) n l.
Proof.
  induction 1 as [|x a b n l _ IH|x y a b n l Hne _ IH|x a b n l _ IH|y a b n l _ IH];
    simpl.
  - constructor.
  - replace n with (n + 0)%nat by lia. replace (S l) with (l + 1)%nat by lia.
    apply aligned_app; [done|]. apply aligned_keep, aligned_nil.
  - replace (S n) with (n + 1)%nat by lia. replace (S l) with (l + 1)%nat by lia.
    apply aligned_app; [done|]. by apply aligned_subst, aligned_nil.
  - replace (S n) with (n + 1)%nat by lia. replace (S l) with (l + 1)%nat by lia.
    rewrite <- (app_nil_r (rev b)). apply aligned_app; [done|].
    apply aligned_delete, aligned_nil.
  - replace (S n) with (n + 1)%nat by lia. replace (S l) with (l + 1)%nat by lia.
    rewrite <- (app_nil_r (rev a)). apply aligned_app; [done|].
    apply aligned_insert, aligned_nil.
Qed.

Lemma longest_nil_l b : longest_alignment [] b (length b).
Proof.
  split; [rewrite lev_nil_l; apply aligned_insert_all|].
  intros l' Hl'. apply aligned_columns in Hl'. simpl in Hl'. lia.
Qed.

Lemma longest_nil_r a : longest_alignment a [] (length a).
Proof.
  split; [rewrite lev_nil_r; apply aligned_delete_all|].
  intros l' Hl'. apply aligned_columns in Hl'. simpl in Hl'. lia.
Qed.

Lemma longest_sym a b l : longest_alignment a b l -> longest_alignment b a l.
Proof.
  intros [H1 H2]. split.
  - rewrite (lev_sym b a). by apply aligned_sym.
  - intros l' Hl'. apply H2. rewrite (lev_sym a b). by apply aligned_sym.
Qed.

Lemma longest_rev a b l :
  longest_alignment (rev a) (rev b) l -> longest_alignment a b l.
Proof.
  intros [H1 H2]. rewrite lev_rev in H1, H2. split.
  - pose proof (aligned_rev _ _ _ _ H1) as H. by rewrite !rev_involutive in H.
  - intros l' Hl'. apply H2. by apply aligned_rev.
Qed.

Lemma aligned_uncons x y a b d l :
  aligned (x :: a) (y :: b) d l ->
  (x = y /\ exists l0, l = S l0 /\ aligned a b d l0) \/
  (x <> y /\ exists n l0, d = S n /\ l = S l0 /\ aligned a b n l0) \/
  (exists n l0, d = S n /\ l = S l0 /\ aligned a (y :: b) n l0) \/
  (exists n l0, d = S n /\ l = S l0 /\ aligned (x :: a) b n l0).
Proof. inversion 1; subst; eauto 10. Qed.

(** The recurrence of the length row: among the three neighbours, those
    whose operation reaches the distance of the cell extend their
    longest alignment by one column, and the longest of these is the
    longest alignment of the cell. *)
Lemma longest_step x y a b l1 l2 l3 :
  longest_alignment (x :: a) b l1 -> longest_alignment a (y :: b) l2 ->
  longest_alignment a b l3 ->
  longest_alignment (x :: a) (y :: b)
    (Nat.max (Nat.max (if decide (S (lev (x :: a) b) = lev (x :: a) (y :: b))
                       then S l1 else 0)
                      (if decide (S (lev a (y :: b)) = lev (x :: a) (y :: b))
                       then S l2 else 0))
             (if decide (lev a b + mismatch x y = lev (x :: a) (y :: b))%nat
              then S l3 else 0)).
Proof.
  intros [A1 M1] [A2 M2] [A3 M3].
  pose proof (lev_cons x y a b) as Hd.
  set (d := lev (x :: a) (y :: b)) in *.
  assert (Hins : S (lev (x :: a) b) = d -> aligned (x :: a) (y :: b) d (S l1)).
  { intros <-. by apply aligned_insert. }
  assert (Hdel : S (lev a (y :: b)) = d -> aligned (x :: a) (y :: b) d (S l2)).
  { intros <-. by apply aligned_delete. }
  assert (Hrep : (lev a b + mismatch x y)%nat = d -> aligned (x :: a) (y :: b) d (S l3)).
  { intros <-. unfold mismatch. destruct (decide (x = y)) as [->|Hne].
    - rewrite Nat.add_0_r. by apply aligned_keep.
    - rewrite Nat.add_1_r. by apply aligned_subst. }
  assert (Hle : (d <= S (lev (x :: a) b) /\ d <= S (lev a (y :: b))
                 /\ d <= lev a b + mismatch x y)%nat) by lia.
  assert (Hsome : S (lev (x :: a) b) = d \/ S (lev a (y :: b)) = d
                  \/ (lev a b + mismatch x y)%nat = d) by lia.
  unfold longest_alignment. fold d. clearbody d. clear Hd. split.
  - destruct (decide (S (lev (x :: a) b) = d)) as [E1|N1],
             (decide (S (lev a (y :: b)) = d)) as [E2|N2],
             (decide ((lev a b + mismatch x y)%nat = d)) as [E3|N3];
      repeat match goal with
             | |- context [Nat.max ?p ?q] =>
                 destruct (Nat.max_spec p q) as [[? ->] | [? ->]]
             end; auto; exfalso; lia.
  - intros l' Hl'.
    destruct (aligned_uncons _ _ _ _ _ _ Hl')
      as [(Hxy & l0 & -> & H0) | [(Hxy & n & l0 & -> & -> & H0)
          | [(n & l0 & -> & -> & H0) | (n & l0 & -> & -> & H0)]]];
      pose proof (aligned_cost _ _ _ _ H0) as Hc.
    + assert (Hm : mismatch x y = 0%nat) by (unfold mismatch; by rewrite decide_True).
      rewrite Hm in *. assert (d = lev a b) as -> by lia.
      specialize (M3 _ H0). repeat case_decide; lia.
    + assert (Hm : mismatch x y = 1%nat) by (unfold mismatch; by rewrite decide_False).
      rewrite Hm in *. assert (n = lev a b) as -> by lia.
      specialize (M3 _ H0). repeat case_decide; lia.
    + assert (n = lev a (y :: b)) as -> by lia.
      specialize (M2 _ H0). repeat case_decide; lia.
    + assert (n = lev (x :: a) b) as -> by lia.
      specialize (M1 _ H0). repeat case_decide; lia.
Qed.
End AlignmentFacts.

Section NormalizedExact.
Context {T : Type} `{EqDecision T}.
Variable m : machine.
Variables seq1 seq2 : list T.
Local Abbreviation D := (table seq1 seq2).
Local Abbreviation len2 := (length seq2).
Local Abbreviation prefix1 i := (rev (take i seq1)).
Local Abbreviation prefix2 k := (rev (take k seq2)).

(** The length cell as the code computes it, from the three candidate
    costs and the three neighbouring lengths. *)
Lemma length_cell (dI dD dR d lI lD lR : nat) :
  (d <= dI)%nat -> (d <= dD)%nat -> (d <= dR)%nat ->
  let cur := Z.of_nat d in
  MAX3 (if Z.of_nat dI =? cur then Z.of_nat lI + 1 else 0)
       (if Z.of_nat dD =? cur then Z.of_nat lD + 1 else 0)
       (if Z.of_nat dR =? cur then Z.of_nat lR + 1 else 0)
  = Z.of_nat (Nat.max (Nat.max (if decide (dI = d) then S lI else 0)
                                (if decide (dD = d) then S lD else 0))
                      (if decide (dR = d) then S lR else 0)).
Proof.
  intros H1 H2 H3 cur. subst cur. rewrite MAX3_max.
  repeat case_decide;
    decide_test (Z.of_nat dI =? Z.of_nat d);
    decide_test (Z.of_nat dD =? Z.of_nat d);
    decide_test (Z.of_nat dR =? Z.of_nat d).
Qed.

Lemma nlevenshtein_cell_exact i n st :
  (i < length seq1)%nat -> (n < len2)%nat -> filling_exact seq1 seq2 i n st ->
  loop_post (filling_exact seq1 seq2 i (S n)) (fun _ => False)
    (nlevenshtein_cell native m seq1 seq2 (1 + Z.of_nat i) (1 + Z.of_nat n) st).
Proof.
  intros Hi Hn (Hlen & Hlen' & Hnew & Hold & Hlast & lR & Hllast & HlR).
  destruct st as [[[column lgt] last] llast]. cbn [fst snd] in *. subst last llast.
  destruct (lookup_lt_is_Some_2 seq1 i Hi) as [x Hx].
  destruct (lookup_lt_is_Some_2 seq2 n Hn) as [y Hy].
  destruct (Hold (S n) ltac:(lia)) as (Hup & lD & HlD & HAD).
  destruct (Hnew n ltac:(lia)) as (Hleft & lI & HlI & HAI).
  unfold nlevenshtein_cell.
  replace (1 + Z.of_nat n) with (Z.of_nat (S n)) by lia.
  replace (1 + Z.of_nat i - 1) with (Z.of_nat i) by lia.
  replace (Z.of_nat (S n) - 1) with (Z.of_nat n) by lia.
  rewrite (load_inside m column (S n) _ Hup). cbn [bind].
  rewrite (load_inside m column n _ Hleft). cbn [bind].
  rewrite (item_inside seq1 i x Hx), (item_inside seq2 n y Hy). cbn [bind].
  rewrite native_never_fails, native_cost. cbn [return_if bind].
  rewrite store_inside by lia. cbn [bind].
  rewrite (load_inside m lgt (S n) _ HlD). cbn [bind].
  rewrite (load_inside m _ (S n) _ (list_lookup_insert_eq column (S n) _ ltac:(lia))).
  cbn [bind].
  rewrite (load_inside m lgt n _ HlI). cbn [bind].
  set (ic := Z.of_nat (D (S i) n) + 1).
  set (dc := Z.of_nat (D i (S n)) + 1).
  set (rc := Z.of_nat (D i n) + Z.of_nat (mismatch x y)).
  rewrite !(if_next (R := double)). cbn [bind].
  rewrite store_inside by lia. cbn [bind loop_post].
  pose proof (table_S seq1 seq2 i n x y Hx Hy) as HS.
  assert (Hcell : MIN3 ic dc rc = Z.of_nat (D (S i) (S n))).
  { rewrite HS, MIN3_min. subst ic dc rc. lia. }
  rewrite Hcell.
  assert (Hlong : exists l : nat,
            MAX3 (if ic =? Z.of_nat (D (S i) (S n)) then Z.of_nat lI + 1 else 0)
                 (if dc =? Z.of_nat (D (S i) (S n)) then Z.of_nat lD + 1 else 0)
                 (if rc =? Z.of_nat (D (S i) (S n)) then Z.of_nat lR + 1 else 0)
            = Z.of_nat l /\
            longest_alignment (prefix1 (S i)) (prefix2 (S n)) l).
  { eexists. split.
    - subst ic dc rc.
      replace (Z.of_nat (D (S i) n) + 1) with (Z.of_nat (S (D (S i) n))) by lia.
      replace (Z.of_nat (D i (S n)) + 1) with (Z.of_nat (S (D i (S n)))) by lia.
      replace (Z.of_nat (D i n) + Z.of_nat (mismatch x y))
        with (Z.of_nat (D i n + mismatch x y)) by lia.
      apply length_cell; lia.
    - unfold table in *.
      rewrite (take_S_r _ _ _ Hx), (take_S_r _ _ _ Hy), !rev_unit in *.
      by apply longest_step. }
  destruct Hlong as (l & -> & Hl).
  unfold filling_exact. cbn [fst snd]. rewrite !length_insert.
  split; [done|]. split; [done|]. split; [|split; [|split]].
  - intros k Hk. destruct (decide (k = S n)) as [->|Hne].
    + split; [by rewrite list_lookup_insert_eq by lia|].
      exists l. split; [by rewrite list_lookup_insert_eq by lia | done].
    + destruct (Hnew k ltac:(lia)) as (Hc & l' & Hl' & HA').
      split; [by rewrite list_lookup_insert_ne by lia|].
      exists l'. split; [by rewrite list_lookup_insert_ne by lia | done].
  - intros k Hk. destruct (Hold k ltac:(lia)) as (Hc & l' & Hl' & HA').
    split; [by rewrite list_lookup_insert_ne by lia|].
    exists l'. split; [by rewrite list_lookup_insert_ne by lia | done].
  - reflexivity.
  - by exists lD.
Qed.

Lemma length_prefix1 i : (i <= length seq1)%nat -> length (prefix1 i) = i.
Proof. intros Hi. rewrite length_rev, length_take. lia. Qed.

Lemma length_prefix2 k : (k <= len2)%nat -> length (prefix2 k) = k.
Proof. intros Hk. rewrite length_rev, length_take. lia. Qed.

Lemma longest_first_column i :
  (i <= length seq1)%nat -> longest_alignment (prefix1 i) (prefix2 0) i.
Proof.
  intros Hi. rewrite take_0. cbn [rev].
  rewrite <- (length_prefix1 i Hi) at 2. apply longest_nil_r.
Qed.

Lemma longest_first_row k :
  (k <= len2)%nat -> longest_alignment (prefix1 0) (prefix2 k) k.
Proof.
  intros Hk. rewrite take_0. cbn [rev].
  rewrite <- (length_prefix2 k Hk) at 2. apply longest_nil_l.
Qed.

Lemma nlevenshtein_row_exact i st :
  (i < length seq1)%nat -> filled_exact seq1 seq2 i st ->
  loop_post (filled_exact seq1 seq2 (S i)) (fun _ => False)
    (nlevenshtein_row native m seq1 seq2 (Z.of_nat len2) (1 + Z.of_nat i) st).
Proof.
  intros Hi (Hlen & Hlen' & Hrow). destruct st as [column lgt]. cbn [fst snd] in *.
  unfold nlevenshtein_row.
  rewrite (store_inside lgt 0) by lia. cbn [bind].
  rewrite (store_inside column 0) by lia. cbn [bind].
  replace (1 + Z.of_nat i - 1) with (Z.of_nat i) by lia.
  loop_rule (filling_exact seq1 seq2 i) (fun _ : double => False) 1 (length seq2) Hloop.
  apply loop_post_next in Hloop as ([[[column' lgt'] last'] llast'] & -> & Hfill).
  - destruct Hfill as (Hl1 & Hl2 & Hnew & _). cbn [fst snd bind loop_post] in *.
    split; [done|]. split; [done|]. intros k Hk. apply Hnew. lia.
  - unfold filling_exact. cbn [fst snd]. rewrite !length_insert.
    split; [done|]. split; [done|]. split; [|split; [|split]].
    + intros k Hk. replace k with O by lia. split.
      * rewrite list_lookup_insert_eq by lia. rewrite table_0_r by lia. f_equal. lia.
      * exists (S i). split.
        -- rewrite list_lookup_insert_eq by lia. f_equal. lia.
        -- apply longest_first_column. lia.
    + intros k Hk. destruct (Hrow k ltac:(lia)) as (Hc & l & Hl & HA).
      split; [by rewrite list_lookup_insert_ne by lia|].
      exists l. split; [by rewrite list_lookup_insert_ne by lia | done].
    + rewrite table_0_r by lia. reflexivity.
    + exists i. split; [done|]. apply longest_first_column. lia.
  - intros n st Hn Hst. by apply nlevenshtein_cell_exact.
Qed.

(** Method 2 on ordered, non-empty operands: the distance over the
    number of columns of the longest alignment that costs the
    distance. *)
Lemma nlevenshtein_method2_exact :
  malloc_ok m 0 = true -> malloc_ok m 1 = true ->
  (0 < len2 <= length seq1)%nat ->
  exists L : nat,
    longest_alignment seq1 seq2 L /\
    nlevenshtein native m seq1 seq2 2
    = Value (Real (inject_Z (Z.of_nat (lev seq1 seq2)) / inject_Z (Z.of_nat L))).
Proof.
  intros Hm0 Hm1 Hlen. unfold nlevenshtein, len.
  replace (Z.of_nat (length seq1) >=? Z.of_nat len2) with true
    by (symmetry; apply Z.geb_le; lia).
  replace (Z.of_nat (length seq1) =? 0) with false by (symmetry; apply Z.eqb_neq; lia).
  replace (Z.of_nat len2 =? 0) with false by (symmetry; apply Z.eqb_neq; lia).
  cbn [assert return_if bind Z.eqb]. unfold malloc. rewrite Hm0, Hm1.
  loop_rule (fun n (st : list Z * list Z) =>
               length st.1 = S len2 /\ length st.2 = S len2 /\
               forall k, (0 < k <= n)%nat ->
                 st.1 !! k = Some (Z.of_nat k) /\ st.2 !! k = Some (Z.of_nat k))
            (fun _ : double => False) 1 (length seq2) Hinit.
  apply loop_post_next in Hinit as (st0 & -> & Hl1 & Hl2 & Hrow0); cycle 1.
  { cbn [fst snd]. rewrite length_fmap, length_seqZ.
    split; [lia|]. split; [lia|]. intros k Hk. lia. }
  { intros n [c l] Hn (H1 & H2 & Hc). cbn [fst snd] in *.
    replace (1 + Z.of_nat n) with (Z.of_nat (S n)) by lia.
    rewrite !store_inside by lia. cbn [bind loop_post fst snd].
    rewrite !length_insert. split; [done|]. split; [done|].
    intros k Hk. destruct (decide (k = S n)) as [->|Hne].
    - by rewrite !list_lookup_insert_eq by lia.
    - rewrite !list_lookup_insert_ne by lia. apply Hc. lia. }
  cbn [bind].
  loop_rule (filled_exact seq1 seq2) (fun _ : double => False) 1 (length seq1) Hrows.
  apply loop_post_next in Hrows as ([column lgt] & -> & Hc & Hl & Hrow); cycle 1.
  { split; [done|]. split; [done|]. intros k Hk.
    destruct (Hrow0 k Hk) as [Hck Hlk]. split.
    - rewrite table_0_l by lia. exact Hck.
    - exists k. split; [exact Hlk|]. apply longest_first_row. lia. }
  { intros n st Hn Hst. by apply nlevenshtein_row_exact. }
  cbn [bind fst snd] in *.
  destruct (Hrow len2 ltac:(lia)) as (Hd & L & HL & HA).
  rewrite (load_inside m column len2 _ Hd). cbn [bind].
  rewrite (load_inside m lgt len2 _ HL). cbn [bind finish].
  rewrite !take_ge in HA by lia. apply longest_rev in HA.
  exists L. split; [done|]. unfold fdiv.
  destruct HA as [HA _]. apply aligned_columns in HA as [HA _].
  replace (Z.of_nat L =? 0) with false by (symmetry; apply Z.eqb_neq; lia).
  by rewrite table_full.
Qed.
End NormalizedExact.

Lemma ratio_order (d n n' : Z) :
  0 <= d -> 0 < n -> n <= n' -> n' <= 2 * n ->
  (inject_Z d / inject_Z n' <= inject_Z d / inject_Z n)%Q /\
  (inject_Z d / inject_Z n <= 2 * (inject_Z d / inject_Z n'))%Q.
Proof.
  intros Hd Hn Hle Hhalf. destruct n as [|p|p]; try lia. destruct n' as [|p'|p']; try lia.
  unfold Qdiv, Qmult, Qinv, Qle, inject_Z. cbn. split; nia.
Qed.

Section NormalizedMethods.
Context {T : Type} `{EqDecision T}.
Variable m : machine.
Hypothesis Hm0 : malloc_ok m 0 = true.
Hypothesis Hm1 : malloc_ok m 1 = true.

Lemma nlevenshtein_py_ordered (A B : list T) (method : Z) :
  method = 1 \/ method = 2 ->
  nlevenshtein_py native m A B method =
  match nlevenshtein native m (ordered A B).1 (ordered A B).2 method with
  | Fault f => Halt f
  | Value dist =>
      if fnegative dist then
        if fequal dist (-1) then Raise OutOfMemory else Raise ComparisonFailed
      else Ok (PyFloat dist)
  end.
Proof.
  intros Hmethod. unfold nlevenshtein_py, ordered.
  replace (negb (method =? 1) && negb (method =? 2)) with false
    by (destruct Hmethod as [-> | ->]; reflexivity).
  by destruct (len A <? len B).
Qed.

Lemma ordered_facts (A B : list T) :
  (length (ordered A B).2 <= length (ordered A B).1)%nat /\
  length (ordered A B).1 = Nat.max (length A) (length B) /\
  lev (ordered A B).1 (ordered A B).2 = lev A B /\
  (forall L, longest_alignment (ordered A B).1 (ordered A B).2 L <->
             longest_alignment A B L) /\
  ((ordered A B).2 = [] <-> A = [] \/ B = []).
Proof using Type*.
  unfold ordered. destruct (len A <? len B) eqn:Hswap; zbool; unfold len in Hswap;
    cbn [fst snd].
  - split; [lia|]. split; [lia|]. split; [apply lev_sym|]. split.
    + intros L. split; apply longest_sym.
    + split; [by left|]. intros [-> | ->]; [done|]. simpl in Hswap. lia.
  - split; [lia|]. split; [lia|]. split; [done|]. split; [done|].
    split; [by right|]. intros [-> | ->]; [|done].
    destruct B; [done | simpl in Hswap; lia].
Qed.

(** X15: method 2 of [nlevenshtein] on two non-empty sequences divides
    the edit distance by the number of columns of the longest alignment
    of the two sequences that costs the edit distance: an alignment with
    that many columns and that cost exists, and none at that cost has
    more. The divisor lies between the longer length and the sum of the
    two lengths. This holds in either order of the operands. *)
Theorem nlevenshtein_longest_alignment (A B : list T) :
  A <> [] -> B <> [] ->
  exists L : nat,
    nlevenshtein_py native m A B 2
    = Ok (PyFloat (Real (inject_Z (Z.of_nat (lev A B)) / inject_Z (Z.of_nat L)))) /\
    aligned A B (lev A B) L /\
    (forall l, aligned A B (lev A B) l -> (l <= L)%nat) /\
    (Nat.max (length A) (length B) <= L <= length A + length B)%nat.
Proof using Hm0 Hm1.
  intros HA HB. rewrite nlevenshtein_py_ordered by (by right).
  destruct (ordered_facts A B) as (Hle & Hlen & Hlev & Hlong & Hnil).
  assert (Hpos : (0 < length (ordered A B).2)%nat).
  { destruct (ordered A B).2 eqn:E; [|simpl; lia]. destruct Hnil as [[?|?] _]; done. }
  destruct (nlevenshtein_method2_exact m (ordered A B).1 (ordered A B).2 Hm0 Hm1)
    as (L & HL & ->); [lia|].
  rewrite Hlev. apply Hlong in HL. destruct HL as [Hal Hmax].
  pose proof (aligned_columns _ _ _ _ Hal) as [Hcols Hcost].
  exists L.
  destruct (ratio_facts (Z.of_nat (lev A B)) (Z.of_nat L)) as [Hb _]; [lia | lia |].
  replace (fnegative _) with false
    by (symmetry; apply negb_false_iff, Qle_bool_iff, Hb).
  done.
Qed.

(** X16: the two methods of [nlevenshtein] compared. Method 2 never
    gives more than method 1, and never less than half of it. *)
Theorem nlevenshtein_methods_ordered (A B : list T) :
  exists q1 q2 : Q,
    nlevenshtein_py native m A B 1 = Ok (PyFloat (Real q1)) /\
    nlevenshtein_py native m A B 2 = Ok (PyFloat (Real q2)) /\
    (q2 <= q1)%Q /\ (q1 <= 2 * q2)%Q.
Proof using Hm0 Hm1.
  rewrite !nlevenshtein_py_ordered by auto.
  destruct (ordered_facts A B) as (Hle & _).
  destruct (ordered A B) as [[|x1 s1] [|x2 s2]]; cbn [fst snd] in *;
    [by exists 0%Q, 0%Q | simpl in Hle; lia | by exists 1%Q, 1%Q |].
  rewrite nlevenshtein_method1 by (done || (simpl in *; lia)).
  destruct (nlevenshtein_method2_exact m (x1 :: s1) (x2 :: s2) Hm0 Hm1)
    as (L & [Hal _] & ->); [simpl in *; lia|].
  pose proof (aligned_columns _ _ _ _ Hal) as [Hcols Hcost].
  pose proof (lev_le_max (x1 :: s1) (x2 :: s2)) as Hmax.
  set (n1 := length (x1 :: s1)) in *.
  assert (Hn1 : (0 < n1)%nat) by (subst n1; simpl; lia).
  assert (Hn2 : (length (x2 :: s2) <= n1)%nat) by done.
  destruct (ratio_facts (Z.of_nat (lev (x1 :: s1) (x2 :: s2)))
              (Z.of_nat n1)) as [Hb1 _]; [lia | lia |].
  destruct (ratio_facts (Z.of_nat (lev (x1 :: s1) (x2 :: s2))) (Z.of_nat L))
    as [Hb2 _]; [lia | lia |].
  destruct (ratio_order (Z.of_nat (lev (x1 :: s1) (x2 :: s2)))
              (Z.of_nat n1) (Z.of_nat L)) as [Ho1 Ho2]; [lia | lia | lia | lia |].
  eexists _, _.
  replace (fnegative _) with false
    by (symmetry; apply negb_false_iff, Qle_bool_iff, Hb1).
  replace (fnegative _) with false
    by (symmetry; apply negb_false_iff, Qle_bool_iff, Hb2).
  done.
Qed.
End NormalizedMethods.

Lemma nlevenshtein_longest_alignment_witness :
  (malloc_ok checked 0 = true /\ malloc_ok checked 1 = true /\
   chars "abc" <> [] /\ chars "acd" <> []) /\
  exists L : nat,
    nlevenshtein_py native checked (chars "abc") (chars "acd") 2
    = Ok (PyFloat (Real (inject_Z (Z.of_nat (lev (chars "abc") (chars "acd")))
                         / inject_Z (Z.of_nat L)))) /\
    aligned (chars "abc") (chars "acd") (lev (chars "abc") (chars "acd")) L /\
    (forall l, aligned (chars "abc") (chars "acd") (lev (chars "abc") (chars "acd")) l
               -> (l <= L)%nat) /\
    (Nat.max (length (chars "abc")) (length (chars "acd")) <= L
     <= length (chars "abc") + length (chars "acd"))%nat.
Proof.
  split; [split; [reflexivity | split; [reflexivity | split; discriminate]] |].
  apply (nlevenshtein_longest_alignment checked eq_refl eq_refl
           (chars "abc") (chars "acd")); discriminate.
Defined.

Lemma nlevenshtein_methods_ordered_witness :
  (malloc_ok checked 0 = true /\ malloc_ok checked 1 = true) /\
  exists q1 q2 : Q,
    nlevenshtein_py native checked (chars "abc") (chars "acd") 1
      = Ok (PyFloat (Real q1)) /\
    nlevenshtein_py native checked (chars "abc") (chars "acd") 2
      = Ok (PyFloat (Real q2)) /\
    (q2 <= q1)%Q /\ (q1 <= 2 * q2)%Q.
Proof.
  split; [split; reflexivity|].
  apply (nlevenshtein_methods_ordered checked eq_refl eq_refl
           (chars "abc") (chars "acd")).
Defined.

(** ** What the bounded comparator counts *)

Section ScriptsWithSwaps.
Context {T : Type} `{EqDecision T}.
Implicit Types a b : list T.

Lemma tedits_sym a b n : tedits a b n -> tedits b a n.
Proof. induction 1; by constructor. Qed.

Lemma tedits_zero a b : tedits a b 0 -> a = b.
Proof.
  remember 0%nat as n eqn:Hn. induction 1; try discriminate; [done|].
  f_equal. auto.
Qed.

Lemma tedits_delete_all a : tedits a [] (length a).
Proof. induction a; simpl; [constructor | by apply tedits_delete]. Qed.

Lemma tedits_insert_all b : tedits [] b (length b).
Proof. induction b; simpl; [constructor | by apply tedits_insert]. Qed.

(** A transposition is worth at most two plain edits. *)
Lemma tedits_edits a b n : tedits a b n -> exists k, (k <= 2 * n)%nat /\ edits a b k.
Proof.
  induction 1 as [|x a b n _ (k & Hk & He)|x y a b n _ (k & Hk & He)
                  |x a b n _ (k & Hk & He)|y a b n _ (k & Hk & He)
                  |x y a b n _ (k & Hk & He)].
  - exists 0%nat. split; [lia | constructor].
  - exists k. split; [lia | by constructor].
  - exists (S k). split; [lia | by constructor].
  - exists (S k). split; [lia | by constructor].
  - exists (S k). split; [lia | by constructor].
  - exists (S (S k)). split; [lia | by do 2 apply edits_subst].
Qed.

Lemma tedits_lev a b n : tedits a b n -> (lev a b <= 2 * n)%nat.
Proof.
  intros (k & Hk & He%lev_le_edits)%tedits_edits. lia.
Qed.
End ScriptsWithSwaps.

Section WalkSound.
Context {T : Type} `{EqDecision T}.
Variables seq1 seq2 : list T.
Variable transpositions : bool.
Variable ldiff : Z.
Variable model : list ascii.

(** Every step of the walk is an operation of a script: whatever script
    turns what the walk has left of [seq1] into what it has left of
    [seq2], the walk puts its own operations in front of it. *)
Lemma walk_sound (fuel : nat) :
  forall (i j c : nat) (w : Z * Z * Z),
  fastcomp_walk native fuel seq1 seq2 (len seq1) (len seq2) transpositions ldiff
    model (Z.of_nat i) (Z.of_nat j) (Z.of_nat c) = Next w ->
  exists i1 j1 c1 : nat,
    w = (Z.of_nat i1, Z.of_nat j1, Z.of_nat c1) /\ (c <= c1)%nat /\
    ((c1 <= 2)%nat ->
     ((length seq1 <= i1)%nat \/ (length seq2 <= j1)%nat) /\
     forall n, tedits (drop i1 seq1) (drop j1 seq2) n ->
               tedits (drop i seq1) (drop j seq2) (c1 - c + n)).
Proof.
  induction fuel as [|fuel IH]; intros i j c w Hwalk; [discriminate|].
  cbn [fastcomp_walk] in Hwalk. unfold len in *.
  destruct (decide (i < length seq1 /\ j < length seq2)%nat) as [[Hi' Hj']|Hend].
  - replace ((Z.of_nat i <? Z.of_nat (length seq1)) && (Z.of_nat j <? Z.of_nat (length seq2)))
      with true in Hwalk by (symmetry; apply andb_true_iff; rewrite !Z.ltb_lt; lia).
    destruct (lookup_lt_is_Some_2 seq1 i Hi') as [x Hx].
    destruct (lookup_lt_is_Some_2 seq2 j Hj') as [y Hy].
    rewrite (item_inside seq1 i x Hx), (item_inside seq2 j y Hy) in Hwalk.
    cbn [bind] in Hwalk. rewrite native_never_fails in Hwalk.
    cbn [return_if bind] in Hwalk.
    replace (Z.of_nat i + 1) with (Z.of_nat (S i)) in Hwalk by lia.
    replace (Z.of_nat j + 1) with (Z.of_nat (S j)) in Hwalk by lia.
    replace (Z.of_nat i + 2) with (Z.of_nat (S (S i))) in Hwalk by lia.
    replace (Z.of_nat j + 2) with (Z.of_nat (S (S j))) in Hwalk by lia.
    rewrite (drop_S _ _ _ Hx), (drop_S _ _ _ Hy).
    unfold native in Hwalk at 1. destruct (decide (x = y)) as [<-|Hxy].
    { change (1 =? 0) with false in Hwalk. cbv iota in Hwalk.
      apply IH in Hwalk as (i1 & j1 & c1 & -> & Hc & Hk). exists i1, j1, c1.
      split; [done|]. split; [done|]. intros Hc1.
      destruct (Hk Hc1) as [Hended Hscript]. split; [done|].
      intros n Hn. by apply tedits_keep, Hscript. }
    change (0 =? 0) with true in Hwalk. cbv iota in Hwalk.
    replace (Z.of_nat c + 1) with (Z.of_nat (S c)) in Hwalk by lia.
    destruct (Z.of_nat (S c) >? 2) eqn:Hbig; zbool.
    { injection Hwalk as <-. exists i, j, (S c). split; [done|]. split; [lia|]. lia. }
    replace (Z.of_nat (S c) - 1) with (Z.of_nat c) in Hwalk by lia.
    (* what an operation of the model leads to *)
    assert (Hrest : forall w',
      (let* op := item model (Z.of_nat c) in
       if bool_decide (op = "d"%char)
       then fastcomp_walk native fuel seq1 seq2 (Z.of_nat (length seq1))
              (Z.of_nat (length seq2)) transpositions ldiff model
              (Z.of_nat (S i)) (Z.of_nat j) (Z.of_nat (S c))
       else if bool_decide (op = "i"%char)
       then fastcomp_walk native fuel seq1 seq2 (Z.of_nat (length seq1))
              (Z.of_nat (length seq2)) transpositions ldiff model
              (Z.of_nat i) (Z.of_nat (S j)) (Z.of_nat (S c))
       else fastcomp_walk native fuel seq1 seq2 (Z.of_nat (length seq1))
              (Z.of_nat (length seq2)) transpositions ldiff model
              (Z.of_nat (S i)) (Z.of_nat (S j)) (Z.of_nat (S c))) = Next w' ->
      exists i1 j1 c1 : nat,
        w' = (Z.of_nat i1, Z.of_nat j1, Z.of_nat c1) /\ (c <= c1)%nat /\
        ((c1 <= 2)%nat ->
         ((length seq1 <= i1)%nat \/ (length seq2 <= j1)%nat) /\
         forall n, tedits (drop i1 seq1) (drop j1 seq2) n ->
                   tedits (x :: drop (S i) seq1) (y :: drop (S j) seq2) (c1 - c + n))).
    { intros w' Hw'. destruct (item model (Z.of_nat c)) as [op| |]; [|done..].
      cbn [bind] in Hw'.
      destruct (bool_decide (op = "d"%char));
        [|destruct (bool_decide (op = "i"%char))];
        apply IH in Hw' as (i1 & j1 & c1 & -> & Hc & Hk); exists i1, j1, c1;
        (split; [done|]); (split; [lia|]); intros Hc1;
        destruct (Hk Hc1) as [Hended Hscript]; (split; [done|]); intros n Hn;
        replace (c1 - c + n)%nat with (S (c1 - S c + n)) by lia.
      - rewrite (drop_S _ _ _ Hy) in Hscript. by apply tedits_delete, Hscript.
      - rewrite (drop_S _ _ _ Hx) in Hscript. by apply tedits_insert, Hscript.
      - by apply tedits_subst, Hscript. }
    destruct (transpositions && negb (ldiff =? 2)
              && (Z.of_nat i <? Z.of_nat (length seq1) - 1)
              && (Z.of_nat j <? Z.of_nat (length seq2) - 1)) eqn:Hlook;
      [|by apply Hrest].
    zbool.
    destruct (lookup_lt_is_Some_2 seq1 (S i)) as [x1 Hx1]; [lia|].
    destruct (lookup_lt_is_Some_2 seq2 (S j)) as [y1 Hy1]; [lia|].
    rewrite (item_inside seq1 (S i) x1 Hx1) in Hwalk. cbn [bind] in Hwalk.
    rewrite native_never_fails in Hwalk. cbn [return_if bind] in Hwalk.
    unfold native in Hwalk at 1. destruct (decide (x1 = y)) as [->|Hx1y].
    2:{ change (0 =? 0) with true in Hwalk. cbn [negb bind] in Hwalk.
        by apply Hrest. }
    change (1 =? 0) with false in Hwalk. cbn [negb bind] in Hwalk.
    rewrite (item_inside seq2 (S j) y1 Hy1) in Hwalk. cbn [bind] in Hwalk.
    rewrite native_never_fails in Hwalk. cbn [return_if bind] in Hwalk.
    unfold native in Hwalk at 1. destruct (decide (x = y1)) as [<-|Hxy1].
    2:{ change (0 =? 0) with true in Hwalk. cbn [negb bind] in Hwalk.
        by apply Hrest. }
    change (1 =? 0) with false in Hwalk. cbn [negb bind] in Hwalk.
    apply IH in Hwalk as (i1 & j1 & c1 & -> & Hc & Hk). exists i1, j1, c1.
    split; [done|]. split; [lia|]. intros Hc1.
    destruct (Hk Hc1) as [Hended Hscript]. split; [done|]. intros n Hn.
    rewrite (drop_S _ _ _ Hx1), (drop_S _ _ _ Hy1).
    replace (c1 - c + n)%nat with (S (c1 - S c + n)) by lia.
    by apply tedits_swap, Hscript.
  - replace ((Z.of_nat i <? Z.of_nat (length seq1)) && (Z.of_nat j <? Z.of_nat (length seq2)))
      with false in Hwalk by (symmetry; apply andb_false_iff; rewrite !Z.ltb_ge; lia).
    injection Hwalk as <-. exists i, j, c. split; [done|]. split; [lia|].
    intros _. split; [lia|]. intros n Hn. by replace (c - c + n)%nat with n by lia.
Qed.
End WalkSound.

Section ComparatorSound.
Context {T : Type} `{EqDecision T}.
Variable transpositions : bool.

(** A count that a model contributes is the cost of a script. *)
Lemma fastcomp_tail_sound (seq1 seq2 : list T) (model : list ascii)
    (i1 j1 c1 : nat) (t : Z) :
  fastcomp_tail (len seq1) (len seq2) model (Z.of_nat i1, Z.of_nat j1, Z.of_nat c1)
  = Next (Some t) ->
  ((length seq1 <= i1)%nat \/ (length seq2 <= j1)%nat) ->
  (c1 <= 2)%nat /\
  exists r : nat, t = Z.of_nat (c1 + r) /\ tedits (drop i1 seq1) (drop j1 seq2) r.
Proof.
  unfold fastcomp_tail, len. intros Htail Hended.
  destruct (Z.of_nat c1 >? 2) eqn:Hbig; [done|]. zbool. split; [lia|].
  destruct (Z.of_nat i1 <? Z.of_nat (length seq1)) eqn:Hi; zbool.
  - destruct (let* cnt := _ in _) as [oc| |] eqn:Hcnt; [|done..].
    assert (Hoc : oc = Some (Z.of_nat c1 + (Z.of_nat (length seq1) - Z.of_nat i1))
                  \/ oc = None).
    { destruct (Z.of_nat c1 =? 1);
        repeat (match type of Hcnt with
                | context [item ?s ?k] => destruct (item (R := Z) s k); [|done..]
                end; cbn [bind] in Hcnt);
        destruct (_ <=? _); injection Hcnt as <-; auto. }
    injection Htail as ->. destruct Hoc as [[= ->]|]; [|done].
    exists (length seq1 - i1)%nat. split; [lia|].
    rewrite (drop_ge seq2) by lia. rewrite <- (length_drop seq1 i1).
    apply tedits_delete_all.
  - destruct (Z.of_nat j1 <? Z.of_nat (length seq2)) eqn:Hj; zbool.
    + destruct (item model (Z.of_nat c1)) as [mc| |]; [|done..]. cbn [bind] in Htail.
      destruct (_ <=? _); [|done]. injection Htail as <-.
      exists (length seq2 - j1)%nat. split; [lia|].
      rewrite (drop_ge seq1) by lia. rewrite <- (length_drop seq2 j1).
      apply tedits_insert_all.
    + injection Htail as <-. exists 0%nat. split; [lia|].
      rewrite (drop_ge seq1), (drop_ge seq2) by lia. constructor.
Qed.

(** What [res] holds between two models: [3], or the cost of a
    script. *)
Local Abbreviation scripted seq1 seq2 res :=
  (res = 3 \/ exists n : nat, res = Z.of_nat n /\ (n <= 2)%nat /\ tedits seq1 seq2 n).

Lemma fastcomp_model_sound (seq1 seq2 : list T) (ldiff : Z)
    (models : list (list ascii)) (mi res res' : Z) :
  fastcomp_model native seq1 seq2 (len seq1) (len seq2) transpositions ldiff
    models mi res = Next res' ->
  scripted seq1 seq2 res -> scripted seq1 seq2 res'.
Proof.
  unfold fastcomp_model. intros Hmodel Hres.
  destruct (item models mi) as [model| |]; [|done..]. cbn [bind] in Hmodel.
  destruct (fastcomp_walk _ _ _ _ _ _ _ _ _ _ _ _) as [w| |] eqn:Hwalk; [|done..].
  cbn [bind] in Hmodel.
  change 0 with (Z.of_nat 0) in Hwalk.
  apply walk_sound in Hwalk as (i1 & j1 & c1 & -> & _ & Hk).
  destruct (fastcomp_tail _ _ _ _) as [[t|]| |] eqn:Htail; cbn [bind] in Hmodel;
    [| |done..].
  2:{ by injection Hmodel as <-. }
  injection Hmodel as <-.
  destruct (t <? res) eqn:Hlt; [|done]. zbool.
  assert (Hc1 : (c1 <= 2)%nat).
  { unfold fastcomp_tail in Htail. destruct (Z.of_nat c1 >? 2) eqn:Hbig; [done|].
    zbool. lia. }
  destruct (Hk Hc1) as [Hended Hscript].
  destruct (fastcomp_tail_sound _ _ _ _ _ _ _ Htail Hended) as (_ & r & -> & Hr).
  right. exists (c1 + r)%nat. split; [done|]. split.
  - destruct Hres as [-> | (n & -> & Hn & _)]; lia.
  - specialize (Hscript r Hr). rewrite !drop_0 in Hscript.
    by replace (c1 - 0 + r)%nat with (c1 + r)%nat in Hscript by lia.
Qed.

(** The comparator answers [-1] or the cost of a script. *)
Lemma fastcomp_ordered_sound (seq1 seq2 : list T) :
  exists d,
    finish (fastcomp_ordered native seq1 seq2 (len seq1) (len seq2) transpositions)
    = Value d /\
    (d = -1 \/ exists n : nat, d = Z.of_nat n /\ (n <= 2)%nat /\ tedits seq1 seq2 n).
Proof.
  assert (Hstart : scripted seq1 seq2 3) by by left.
  assert (Hend : forall res, 0 <= res <= 3 -> scripted seq1 seq2 res ->
            exists d, Value (if res =? 3 then -1 else res) = Value d /\
              (d = -1 \/ exists n : nat, d = Z.of_nat n /\ (n <= 2)%nat
                                         /\ tedits seq1 seq2 n)).
  { intros res Hres Hs. eexists. split; [reflexivity|].
    destruct (res =? 3) eqn:H3; zbool; [by left|]. right.
    destruct Hs as [-> | Hs]; done. }
  unfold fastcomp_ordered.
  destruct (len seq1 - len seq2 =? 0); [|destruct (len seq1 - len seq2 =? 1);
    [|destruct (len seq1 - len seq2 =? 2); [|exists (-1); split; [done | by left]]]];
    cbn [bind].
  - change (rev (seqZ 0 (2 + 1))) with [Z.of_nat 2; Z.of_nat 1; Z.of_nat 0].
    cbn [for_each].
    destruct (fastcomp_model_safe seq1 seq2 transpositions (len seq1 - len seq2)
      "i" "d" [cstr "rr"; cstr "di"; cstr "id"] 2 3) as (r1 & Hr1 & H1); [done | lia |].
    pose proof (fastcomp_model_sound _ _ _ _ _ _ _ Hr1 Hstart) as S1.
    rewrite Hr1. cbn [bind].
    destruct (fastcomp_model_safe seq1 seq2 transpositions (len seq1 - len seq2)
      "d" "i" [cstr "rr"; cstr "di"; cstr "id"] 1 r1) as (r2 & Hr2 & H2); [done | lia |].
    pose proof (fastcomp_model_sound _ _ _ _ _ _ _ Hr2 S1) as S2.
    rewrite Hr2. cbn [bind].
    destruct (fastcomp_model_safe seq1 seq2 transpositions (len seq1 - len seq2)
      "r" "r" [cstr "rr"; cstr "di"; cstr "id"] 0 r2) as (r3 & Hr3 & H3); [done | lia |].
    pose proof (fastcomp_model_sound _ _ _ _ _ _ _ Hr3 S2) as S3.
    rewrite Hr3. cbn [bind finish]. by apply Hend.
  - change (rev (seqZ 0 (1 + 1))) with [Z.of_nat 1; Z.of_nat 0].
    cbn [for_each].
    destruct (fastcomp_model_safe seq1 seq2 transpositions (len seq1 - len seq2)
      "d" "r" [cstr "rd"; cstr "dr"] 1 3) as (r1 & Hr1 & H1); [done | lia |].
    pose proof (fastcomp_model_sound _ _ _ _ _ _ _ Hr1 Hstart) as S1.
    rewrite Hr1. cbn [bind].
    destruct (fastcomp_model_safe seq1 seq2 transpositions (len seq1 - len seq2)
      "r" "d" [cstr "rd"; cstr "dr"] 0 r1) as (r2 & Hr2 & H2); [done | lia |].
    pose proof (fastcomp_model_sound _ _ _ _ _ _ _ Hr2 S1) as S2.
    rewrite Hr2. cbn [bind finish]. by apply Hend.
  - change (rev (seqZ 0 (0 + 1))) with [Z.of_nat 0].
    cbn [for_each].
    destruct (fastcomp_model_safe seq1 seq2 transpositions (len seq1 - len seq2)
      "d" "d" [cstr "dd"] 0 3) as (r1 & Hr1 & H1); [done | lia |].
    pose proof (fastcomp_model_sound _ _ _ _ _ _ _ Hr1 Hstart) as S1.
    rewrite Hr1. cbn [bind finish]. by apply Hend.
Qed.

Lemma fastcomp_sound (A B : list T) :
  exists d,
    fastcomp native A B transpositions = Value d /\
    (d = -1 \/ exists n : nat, d = Z.of_nat n /\ (n <= 2)%nat /\ tedits A B n).
Proof.
  unfold fastcomp. destruct (len A <? len B).
  - destruct (fastcomp_ordered_sound B A) as (d & -> & Hd). exists d. split; [done|].
    destruct Hd as [-> | (n & -> & Hn & Hs)]; [by left | right].
    exists n. split; [done|]. split; [done|]. by apply tedits_sym.
  - apply fastcomp_ordered_sound.
Qed.
End ComparatorSound.

Section ComparatorIdentity.
Context {T : Type} `{EqDecision T}.
Variable A : list T.
Variable transpositions : bool.

Lemma walk_same (ldiff : Z) (model : list ascii) (fuel : nat) :
  forall i : nat,
  (i <= length A)%nat -> (length A - i < fuel)%nat ->
  fastcomp_walk native fuel A A (len A) (len A) transpositions ldiff model
    (Z.of_nat i) (Z.of_nat i) 0
  = Next (len A, len A, 0).
Proof.
  induction fuel as [|fuel IH]; intros i Hi Hfuel; [lia|].
  cbn [fastcomp_walk]. unfold len in *.
  destruct (decide (i < length A)%nat) as [Hlt|Hge].
  - replace (Z.of_nat i <? Z.of_nat (length A)) with true
      by (symmetry; apply Z.ltb_lt; lia).
    destruct (lookup_lt_is_Some_2 A i Hlt) as [x Hx].
    rewrite (item_inside A i x Hx). cbn [andb bind].
    unfold native. rewrite decide_True by done.
    change (1 =? -1) with false. change (1 =? 0) with false. cbn [return_if bind].
    replace (Z.of_nat i + 1) with (Z.of_nat (S i)) by lia.
    apply IH; lia.
  - replace (Z.of_nat i <? Z.of_nat (length A)) with false
      by (symmetry; apply Z.ltb_ge; lia).
    cbn [andb]. by replace i with (length A) by lia.
Qed.

Lemma fastcomp_model_same (ldiff : Z) (models : list (list ascii)) (mi : nat)
    (model : list ascii) (res : Z) :
  models !! mi = Some model ->
  fastcomp_model native A A (len A) (len A) transpositions ldiff models
    (Z.of_nat mi) res
  = Next (if 0 <? res then 0 else res).
Proof.
  intros Hmodel. unfold fastcomp_model.
  rewrite (item_inside models mi _ Hmodel). cbn [bind].
  rewrite (walk_same ldiff model _ 0) by (unfold len; lia). cbn [bind].
  unfold fastcomp_tail. change (0 >? 2) with false. rewrite Z.ltb_irrefl.
  reflexivity.
Qed.

(** A sequence compared with itself is at distance [0]. *)
Lemma fastcomp_same : fastcomp native A A transpositions = Value 0.
Proof.
  unfold fastcomp. rewrite Z.ltb_irrefl. unfold fastcomp_ordered.
  rewrite Z.sub_diag. change (0 =? 0) with true. cbn [bind].
  change (rev (seqZ 0 (2 + 1))) with [Z.of_nat 2; Z.of_nat 1; Z.of_nat 0].
  cbn [for_each].
  rewrite (fastcomp_model_same 0 _ 2 (cstr "id")) by done. cbn [bind].
  rewrite (fastcomp_model_same 0 _ 1 (cstr "di")) by done. cbn [bind].
  rewrite (fastcomp_model_same 0 _ 0 (cstr "rr")) by done. reflexivity.
Qed.
End ComparatorIdentity.

(** X17: what [fastcomp] counts, with either setting of
    [transpositions], on the code-point and byte instances. An answer
    other than [-1] is the cost of a script of insertions, deletions,
    substitutions and exchanges of two adjacent elements that turns one
    sequence into the other: the comparator never answers less than the
    edits needed. So it answers [0] exactly on equal sequences, and the
    plain edit distance is at most twice its answer. *)
Theorem fastcomp_counts_a_script {T} `{EqDecision T} (A B : list T)
    (transpositions : bool) :
  exists d : Z,
    fastcomp native A B transpositions = Value d /\
    (d = -1 \/
     exists n : nat, d = Z.of_nat n /\ (n <= 2)%nat /\ tedits A B n /\
                     (lev A B <= 2 * n)%nat) /\
    (d = 0 <-> A = B).
Proof.
  destruct (fastcomp_sound transpositions A B) as (d & Hd & Hs).
  exists d. split; [done|]. split.
  - destruct Hs as [-> | (n & -> & Hn & Hs)]; [by left | right].
    exists n. split; [done|]. split; [done|]. split; [done|]. by apply tedits_lev.
  - split.
    + intros ->. destruct Hs as [|(n & Hn & _ & Hs)]; [done|].
      apply tedits_zero. by replace n with 0%nat in Hs by lia.
    + intros <-. rewrite fastcomp_same in Hd. by injection Hd as <-.
Qed.

(** ** The cap on a bounds-checking machine *)

(** X18: the row-minimum scan reaches the entry points. On a machine on
    which a load in front of a block traps, a call of [levenshtein] on
    two non-empty sequences with a cap that the difference of the
    lengths does not exceed never returns a distance: the scan of the
    first row stops it on the load at index [-1]. The [ilevenshtein]
    iterator stops in the same way on the first such candidate. *)
Theorem capped_calls_halt {T} `{EqDecision T} (m : machine) (A B : list T) (k : Z)
    (tr : bool) (rest : list (list T)) :
  malloc_ok m 0 = true -> stray m (-1) = None ->
  A <> [] -> B <> [] -> Z.abs (len A - len B) <= k ->
  levenshtein_py native m A B false k = Halt (OutOfBounds (-1)) /\
  ilevenshtein_next native m
    {| itor := B :: rest; seq1 := A; transpos := tr; max_dist := k |}
  = (Halted (OutOfBounds (-1)),
     {| itor := rest; seq1 := A; transpos := tr; max_dist := k |}).
Proof.
  intros Hm0 Hstray HA HB Hk.
  pose proof (levenshtein_capped_traps m A B k Hm0 Hstray HA HB Hk) as Htrap.
  unfold levenshtein_py, ilevenshtein_next.
  cbn [itor seq1 max_dist transpos ilevenshtein_pull]. by rewrite Htrap.
Qed.

Lemma capped_calls_halt_witness :
  (malloc_ok checked 0 = true /\ stray checked (-1) = None /\
   chars "abc" <> [] /\ chars "abcd" <> [] /\
   Z.abs (len (chars "abc") - len (chars "abcd")) <= 1) /\
  levenshtein_py native checked (chars "abc") (chars "abcd") false 1
    = Halt (OutOfBounds (-1)) /\
  ilevenshtein_next native checked
    {| itor := chars "abcd" :: [chars "abc"]; seq1 := chars "abc"; transpos := false;
       max_dist := 1 |}
  = (Halted (OutOfBounds (-1)),
     {| itor := [chars "abc"]; seq1 := chars "abc"; transpos := false;
        max_dist := 1 |}).
Proof.
  split.
  { split; [reflexivity|]. split; [reflexivity|]. split; [discriminate|].
    split; [discriminate | by vm_compute]. }
  apply (capped_calls_halt checked (chars "abc") (chars "abcd") 1 false [chars "abc"]);
    [reflexivity | reflexivity | discriminate | discriminate | by vm_compute].
Defined.

(** ** Method 1 against any oracle *)

(** X19: method 1 of [nlevenshtein] against an oracle that can raise.
    When the allocation succeeds the entry point raises the comparison
    error exactly when the oracle raises on some element of the longer
    operand paired with some element of the shorter one; otherwise it
    returns a number between [0] and [1], whatever the oracle
    answers. *)
Theorem nlevenshtein_failing_oracle {T} (COMP : T -> T -> Z) (m : machine)
    (A B : list T) :
  malloc_ok m 0 = true ->
  if fails_anywhere COMP (ordered A B).1 (ordered A B).2
  then nlevenshtein_py COMP m A B 1 = Raise ComparisonFailed
  else exists q : Q,
         nlevenshtein_py COMP m A B 1 = Ok (PyFloat (Real q)) /\ (0 <= q <= 1)%Q.
Proof.
  intros Hm0.
  assert (Hord : forall seq1 seq2 : list T, (length seq2 <= length seq1)%nat ->
            let r := match nlevenshtein COMP m seq1 seq2 1 with
                     | Fault f => Halt f
                     | Value dist =>
                         if fnegative dist then
                           if fequal dist (-1) then Raise OutOfMemory
                           else Raise ComparisonFailed
                         else Ok (PyFloat dist)
                     end in
            if fails_anywhere COMP seq1 seq2 then r = Raise ComparisonFailed
            else exists q : Q, r = Ok (PyFloat (Real q)) /\ (0 <= q <= 1)%Q).
  { intros seq1 seq2 Hle. cbv zeta. unfold nlevenshtein, len.
    replace (Z.of_nat (length seq1) >=? Z.of_nat (length seq2)) with true
      by (symmetry; apply Z.geb_le; lia).
    cbn [assert bind].
    destruct (levenshtein_ordered_bounded COMP m seq1 seq2 (-1) ltac:(lia) Hm0 Hle) as (d & Hd & Hrange).
    unfold levenshtein_ordered, len in Hd.
    change (-1 >=? 0) with false in Hd. cbn [andb return_if bind] in Hd.
    destruct (Z.of_nat (length seq1) =? 0) eqn:H1; cbn [return_if bind finish] in *;
      zbool.
    { injection Hd as <-. destruct (fails_anywhere COMP seq1 seq2); [lia|].
      by exists 0%Q. }
    destruct (Z.of_nat (length seq2) =? 0) eqn:H2; cbn [return_if bind finish] in *;
      zbool.
    { injection Hd as <-. destruct (fails_anywhere COMP seq1 seq2); [lia|].
      by exists 1%Q. }
    change (1 =? 1) with true. cbv iota. unfold levenshtein.
    replace (len seq1 <? len seq2) with false
      by (symmetry; apply Z.ltb_ge; unfold len; lia).
    unfold levenshtein_ordered, len.
    change (-1 >=? 0) with false. cbn [andb return_if bind].
    replace (Z.of_nat (length seq1) =? 0) with false by (symmetry; apply Z.eqb_neq; lia).
    replace (Z.of_nat (length seq2) =? 0) with false by (symmetry; apply Z.eqb_neq; lia).
    cbn [return_if bind]. rewrite Hd. cbn [call bind].
    destruct (fails_anywhere COMP seq1 seq2).
    - subst d. reflexivity.
    - unfold len in Hrange.
      replace (d <? 0) with false by (symmetry; apply Z.ltb_ge; lia).
      cbn [return_if bind finish]. unfold fdiv.
      replace (Z.of_nat (length seq1) =? 0) with false by (symmetry; apply Z.eqb_neq; lia).
      destruct (ratio_facts d (Z.of_nat (length seq1))) as [Hb _];
        [unfold len in *; lia | lia |].
      eexists.
      replace (fnegative _) with false
        by (symmetry; apply negb_false_iff, Qle_bool_iff, Hb).
      done. }
  unfold nlevenshtein_py, ordered. cbn [Z.eqb negb andb].
  destruct (len A <? len B) eqn:Hswap; zbool; unfold len in Hswap; cbn [fst snd].
  - apply (Hord B A). lia.
  - apply (Hord A B). lia.
Qed.

Lemma nlevenshtein_failing_oracle_witness :
  malloc_ok checked 0 = true /\
  if fails_anywhere (refusing 3) (ordered [1; 2] [4; 3; 2]).1 (ordered [1; 2] [4; 3; 2]).2
  then nlevenshtein_py (refusing 3) checked [1; 2] [4; 3; 2] 1 = Raise ComparisonFailed
  else exists q : Q,
         nlevenshtein_py (refusing 3) checked [1; 2] [4; 3; 2] 1
           = Ok (PyFloat (Real q)) /\ (0 <= q <= 1)%Q.
Proof.
  split; [reflexivity|].
  apply (nlevenshtein_failing_oracle (refusing 3) checked [1; 2] [4; 3; 2]).
  reflexivity.
Defined.

(** ** The order of the positions *)

Section PositionsOrder.
Context {T : Type} `{EqDecision T}.
Variable m : machine.



End PositionsOrder.


(** ** Method 2 against any oracle *)

Section AnyOracleNormalized.
Context {T : Type}.
Variable COMP : T -> T -> Z.
Variable m : machine.
Variables seq1 seq2 : list T.
Local Abbreviation len2 := (length seq2).
Local Abbreviation stopped := (stopped_by_oracle COMP seq1 seq2 (Real (-2))).

Lemma nlevenshtein_cell_bounded i n st :
  (i < length seq1)%nat -> (n < len2)%nat -> bounded_filling2 COMP seq1 seq2 i n st ->
  loop_post (bounded_filling2 COMP seq1 seq2 i (S n)) stopped
    (nlevenshtein_cell COMP m seq1 seq2 (1 + Z.of_nat i) (1 + Z.of_nat n) st).
Proof.
  intros Hi Hn (Hlen & Hlen' & Hnew & Hold & Hlast & Hllast & Hquiet).
  destruct st as [[[column lgt] last] llast]. cbn [fst snd] in *.
  destruct (lookup_lt_is_Some_2 seq1 i Hi) as [x Hx].
  destruct (lookup_lt_is_Some_2 seq2 n Hn) as [y Hy].
  destruct (Hold (S n) ltac:(lia)) as (up & lup & Hup & Hlup & Bup & Blup).
  destruct (Hnew n ltac:(lia)) as (lft & llft & Hlft & Hllft & Blft & Bllft).
  unfold nlevenshtein_cell.
  replace (1 + Z.of_nat n) with (Z.of_nat (S n)) by lia.
  replace (1 + Z.of_nat i - 1) with (Z.of_nat i) by lia.
  replace (Z.of_nat (S n) - 1) with (Z.of_nat n) by lia.
  rewrite (load_inside m column (S n) _ Hup). cbn [bind].
  rewrite (load_inside m column n _ Hlft). cbn [bind].
  rewrite (item_inside seq1 i x Hx), (item_inside seq2 n y Hy). cbn [bind].
  destruct (COMP x y =? -1) eqn:Hfail; cbn [return_if bind loop_post]; zbool.
  { split; [done|]. by apply (fails_at COMP seq1 seq2 i n x y). }
  rewrite store_inside by lia. cbn [bind].
  rewrite (load_inside m lgt (S n) _ Hlup). cbn [bind].
  rewrite (load_inside m _ (S n) _ (list_lookup_insert_eq column (S n) _ ltac:(lia))).
  cbn [bind].
  rewrite (load_inside m lgt n _ Hllft). cbn [bind].
  set (ic := lft + 1). set (dc := up + 1).
  set (rc := last + (if COMP x y =? 0 then 1 else 0)).
  rewrite !(if_next (R := double)). cbn [bind].
  rewrite store_inside by lia. cbn [bind loop_post].
  unfold bounded_filling2. cbn [fst snd]. rewrite !length_insert.
  split; [done|]. split; [done|].
  assert (Hcur : within (S i) (S n) (MIN3 ic dc rc)).
  { rewrite MIN3_min. subst ic dc rc. unfold within in *.
    destruct (COMP x y =? 0); lia. }
  split; [|split; [|split; [|split]]].
  - intros k Hk. destruct (decide (k = S n)) as [->|Hne].
    + eexists _, _. rewrite !list_lookup_insert_eq by lia.
      split; [reflexivity|]. split; [reflexivity|]. split; [exact Hcur|].
      rewrite MAX3_max. rewrite MIN3_min in *.
      decide_test (ic =? Z.min (Z.min ic dc) rc);
        decide_test (dc =? Z.min (Z.min ic dc) rc);
        decide_test (rc =? Z.min (Z.min ic dc) rc).
    + destruct (Hnew k ltac:(lia)) as (v & l & Hv & Hl & Bv & Bl).
      exists v, l. by rewrite !list_lookup_insert_ne by lia.
  - intros k Hk. destruct (Hold k ltac:(lia)) as (v & l & Hv & Hl & Bv & Bl).
    exists v, l. by rewrite !list_lookup_insert_ne by lia.
  - exact Bup.
  - exact Blup.
  - by apply (quiet_cells_next COMP seq1 seq2 i n x y).
Qed.

Lemma nlevenshtein_row_bounded i st :
  (i < length seq1)%nat -> bounded_filled2 COMP seq1 seq2 i st ->
  loop_post (bounded_filled2 COMP seq1 seq2 (S i)) stopped
    (nlevenshtein_row COMP m seq1 seq2 (Z.of_nat len2) (1 + Z.of_nat i) st).
Proof.
  intros Hi (Hlen & Hlen' & Hrow & Hquiet). destruct st as [column lgt].
  cbn [fst snd] in *. unfold nlevenshtein_row.
  rewrite (store_inside lgt 0) by lia. cbn [bind].
  rewrite (store_inside column 0) by lia. cbn [bind].
  replace (1 + Z.of_nat i - 1) with (Z.of_nat i) by lia.
  loop_rule (bounded_filling2 COMP seq1 seq2 i)
            (stopped_by_oracle COMP seq1 seq2 (Real (-2))) 1 (length seq2) Hloop.
  lapply Hloop; [clear Hloop; intros Hloop|].
  2:{ unfold bounded_filling2. cbn [fst snd]. rewrite !length_insert.
      split; [done|]. split; [done|]. split; [|split; [|split; [|split]]].
      - intros k Hk. replace k with O by lia. eexists _, _.
        rewrite !list_lookup_insert_eq by lia.
        split; [reflexivity|]. split; [reflexivity|]. unfold within. lia.
      - intros k Hk. destruct (Hrow k ltac:(lia)) as (v & l & Hv & Hl & Bv & Bl).
        exists v, l. by rewrite !list_lookup_insert_ne by lia.
      - unfold within. lia.
      - lia.
      - by apply quiet_rows_start. }
  lapply Hloop; [clear Hloop; intros Hloop|].
  2:{ intros n st Hn Hst. by apply nlevenshtein_cell_bounded. }
  destruct (for_each _ _ _) as [[[[column' lgt'] last'] llast']|r|f];
    cbn [loop_post bind fst snd] in *; [|done..].
  destruct Hloop as (Hl1 & Hl2 & Hnew & _ & _ & _ & Hq). cbn [fst snd] in *.
  split; [done|]. split; [done|]. split; [|by apply quiet_cells_row].
  intros k Hk. apply Hnew. lia.
Qed.

(** Method 2 on ordered, non-empty operands, against any oracle. *)
Lemma nlevenshtein_method2_bounded :
  malloc_ok m 0 = true -> malloc_ok m 1 = true ->
  (0 < len2 <= length seq1)%nat ->
  if fails_anywhere COMP seq1 seq2
  then nlevenshtein COMP m seq1 seq2 2 = Value (Real (-2))
  else exists q : Q,
         nlevenshtein COMP m seq1 seq2 2 = Value (Real q) /\ (0 <= q <= 1)%Q.
Proof.
  intros Hm0 Hm1 Hlen. unfold nlevenshtein, len.
  replace (Z.of_nat (length seq1) >=? Z.of_nat len2) with true
    by (symmetry; apply Z.geb_le; lia).
  replace (Z.of_nat (length seq1) =? 0) with false by (symmetry; apply Z.eqb_neq; lia).
  replace (Z.of_nat len2 =? 0) with false by (symmetry; apply Z.eqb_neq; lia).
  cbn [assert return_if bind Z.eqb]. unfold malloc. rewrite Hm0, Hm1.
  loop_rule (fun n (st : list Z * list Z) =>
               length st.1 = S len2 /\ length st.2 = S len2 /\
               forall k, (0 < k <= n)%nat ->
                 st.1 !! k = Some (Z.of_nat k) /\ st.2 !! k = Some (Z.of_nat k))
            (fun _ : double => False) 1 (length seq2) Hinit.
  apply loop_post_next in Hinit as (st0 & -> & Hl1 & Hl2 & Hrow0); cycle 1.
  { cbn [fst snd]. rewrite length_fmap, length_seqZ.
    split; [lia|]. split; [lia|]. intros k Hk. lia. }
  { intros n [c l] Hn (H1 & H2 & Hc). cbn [fst snd] in *.
    replace (1 + Z.of_nat n) with (Z.of_nat (S n)) by lia.
    rewrite !store_inside by lia. cbn [bind loop_post fst snd].
    rewrite !length_insert. split; [done|]. split; [done|].
    intros k Hk. destruct (decide (k = S n)) as [->|Hne].
    - by rewrite !list_lookup_insert_eq by lia.
    - rewrite !list_lookup_insert_ne by lia. apply Hc. lia. }
  cbn [bind].
  loop_rule (bounded_filled2 COMP seq1 seq2)
            (stopped_by_oracle COMP seq1 seq2 (Real (-2))) 1 (length seq1) Hrows.
  lapply Hrows; [clear Hrows; intros Hrows|].
  2:{ split; [done|]. split; [done|]. split.
      - intros k Hk. destruct (Hrow0 k Hk) as [Hck Hlk].
        exists (Z.of_nat k), (Z.of_nat k). unfold within. repeat split; (done || lia).
      - intros i' j x y Hi'. lia. }
  lapply Hrows; [clear Hrows; intros Hrows|].
  2:{ intros n st Hn Hst. by apply nlevenshtein_row_bounded. }
  destruct (for_each (seqZ 1 (Z.of_nat (length seq1))) _ st0) as [[column lgt]|r|f];
    cbn [loop_post bind finish fst snd] in *; [| |contradiction].
  - destruct Hrows as (Hc & Hl & Hrow & Hq).
    destruct (Hrow len2 ltac:(lia)) as (v & l & Hv & Hlv & Bv & Bl).
    rewrite (load_inside m column len2 _ Hv). cbn [bind].
    rewrite (load_inside m lgt len2 _ Hlv). cbn [bind finish].
    rewrite (quiet_never_fails COMP seq1 seq2 Hq). unfold fdiv, within in *.
    replace (l =? 0) with false by (symmetry; apply Z.eqb_neq; lia).
    eexists. split; [reflexivity|].
    by destruct (ratio_facts v l) as [Hb _]; [lia | lia |].
  - by destruct Hrows as [-> ->].
Qed.
End AnyOracleNormalized.

(** X21: method 2 of [nlevenshtein] against an oracle that can raise.
    When both allocations succeed the two rows are never left, and on
    non-empty operands the entry point raises the comparison error
    exactly when the oracle raises on some element of the longer operand
    paired with some element of the shorter one; otherwise it returns a
    number between [0] and [1], whatever the oracle answers. *)
Theorem nlevenshtein_method2_failing_oracle {T} (COMP : T -> T -> Z) (m : machine)
    (A B : list T) :
  malloc_ok m 0 = true -> malloc_ok m 1 = true -> A <> [] -> B <> [] ->
  if fails_anywhere COMP (ordered A B).1 (ordered A B).2
  then nlevenshtein_py COMP m A B 2 = Raise ComparisonFailed
  else exists q : Q,
         nlevenshtein_py COMP m A B 2 = Ok (PyFloat (Real q)) /\ (0 <= q <= 1)%Q.
Proof.
  intros Hm0 Hm1 HA HB.
  assert (0 < length A)%nat by (destruct A; [done | simpl; lia]).
  assert (0 < length B)%nat by (destruct B; [done | simpl; lia]).
  assert (Hord : forall seq1 seq2 : list T, (0 < length seq2 <= length seq1)%nat ->
            let r := match nlevenshtein COMP m seq1 seq2 2 with
                     | Fault f => Halt f
                     | Value dist =>
                         if fnegative dist then
                           if fequal dist (-1) then Raise OutOfMemory
                           else Raise ComparisonFailed
                         else Ok (PyFloat dist)
                     end in
            if fails_anywhere COMP seq1 seq2 then r = Raise ComparisonFailed
            else exists q : Q, r = Ok (PyFloat (Real q)) /\ (0 <= q <= 1)%Q).
  { intros seq1 seq2 Hlen. cbv zeta.
    pose proof (nlevenshtein_method2_bounded COMP m seq1 seq2 Hm0 Hm1 Hlen) as Hcall.
    destruct (fails_anywhere COMP seq1 seq2).
    - by rewrite Hcall.
    - destruct Hcall as (q & -> & Hq). exists q.
      replace (fnegative _) with false
        by (symmetry; apply negb_false_iff, Qle_bool_iff, Hq).
      done. }
  unfold nlevenshtein_py, ordered. cbn [Z.eqb negb andb].
  destruct (len A <? len B) eqn:Hswap; zbool; unfold len in Hswap; cbn [fst snd].
  - apply (Hord B A). lia.
  - apply (Hord A B). lia.
Qed.

Lemma nlevenshtein_method2_failing_oracle_witness :
  (malloc_ok checked 0 = true /\ malloc_ok checked 1 = true /\
   [1; 2] <> [] /\ [4; 3; 2] <> []) /\
  if fails_anywhere (refusing 3) (ordered [1; 2] [4; 3; 2]).1 (ordered [1; 2] [4; 3; 2]).2
  then nlevenshtein_py (refusing 3) checked [1; 2] [4; 3; 2] 2 = Raise ComparisonFailed
  else exists q : Q,
         nlevenshtein_py (refusing 3) checked [1; 2] [4; 3; 2] 2
           = Ok (PyFloat (Real q)) /\ (0 <= q <= 1)%Q.
Proof.
  split; [split; [reflexivity | split; [reflexivity | split; discriminate]] |].
  apply (nlevenshtein_method2_failing_oracle (refusing 3) checked [1; 2] [4; 3; 2]);
    (reflexivity || discriminate).
Defined.

(** ** The comparator and the cap at two *)

Lemma fastcomp_native_plain {T} `{EqDecision T} (A B : list T) :
  fastcomp native A B false
  = Value (if decide (lev A B <= 2)%nat then Z.of_nat (lev A B) else -1).
Proof.
  unfold fastcomp.
  destruct (len A <? len B) eqn:Hswap; zbool; unfold len in Hswap.
  - rewrite (lev_sym A B).
    by destruct (fastcomp_ordered_native B A ltac:(lia)) as [-> | ->].
  - by destruct (fastcomp_ordered_native A B ltac:(lia)) as [-> | ->].
Qed.

Lemma kept_alike {T} `{EqDecision T} (m : machine) (g : Z) (ref c : list T) :
  malloc_ok m 0 = true -> stray m (-1) = Some g ->
  fastcomp_kept native ref false c = levenshtein_kept native m ref 2 c.
Proof.
  intros Hm0 Hg. unfold fastcomp_kept, levenshtein_kept.
  rewrite fastcomp_native_plain, levenshtein_native by eauto. unfold capped.
  change (0 <=? 2) with true. cbn [andb].
  destruct (decide (lev ref c <= 2)%nat) as [Hle|Hgt].
  - replace (2 <? Z.of_nat (lev ref c)) with false by (symmetry; apply Z.ltb_ge; lia).
    replace ((0 <=? Z.of_nat (lev ref c)) && (Z.of_nat (lev ref c) <=? 2)) with true
      by (symmetry; apply andb_true_iff; rewrite !Z.leb_le; lia).
    by replace (Z.of_nat (lev ref c) =? -1) with false
      by (symmetry; apply Z.eqb_neq; lia).
  - by replace (2 <? Z.of_nat (lev ref c)) with true by (symmetry; apply Z.ltb_lt; lia).
Qed.

(** X22: without transpositions the bounded comparator is the capped
    distance with the cap [2]. On the code-point and byte instances,
    and where the capped call returns, [fastcomp] answers what
    [levenshtein] answers under [max_dist = 2] on every pair, and the
    [ifast_comp] iterator yields what the [ilevenshtein] iterator yields
    under that cap: the same candidates with the same distances, in the
    same order. *)
Theorem fastcomp_is_levenshtein_capped_at_two {T} `{EqDecision T} (m : machine)
    (g : Z) (ref : list T) (cands : list (list T)) (tr : bool) (k : Z) :
  malloc_ok m 0 = true -> stray m (-1) = Some g ->
  (forall c, fastcomp native ref c false = levenshtein native m ref c 2) /\
  drain (S (length cands)) (ifastcomp_next native)
    {| itor := cands; seq1 := ref; transpos := false; max_dist := k |}
  = drain (S (length cands)) (ilevenshtein_next native m)
      {| itor := cands; seq1 := ref; transpos := tr; max_dist := 2 |}.
Proof.
  intros Hm0 Hg. split.
  - intros c. rewrite fastcomp_native_plain, levenshtein_native by eauto.
    unfold capped. change (0 <=? 2) with true. cbn [andb]. f_equal.
    destruct (decide (lev ref c <= 2)%nat);
      decide_test (2 <? Z.of_nat (lev ref c)); done.
  - rewrite (ilevenshtein_drain m ref tr 2 g) by (done || lia).
    rewrite ifastcomp_drain by lia. f_equal.
    induction cands as [|c cands IH]; [done|]. cbn [omap list_omap].
    by rewrite IH, (kept_alike m g).
Qed.

Lemma fastcomp_is_levenshtein_capped_at_two_witness :
  (malloc_ok (lenient 33) 0 = true /\ stray (lenient 33) (-1) = Some 33) /\
  (forall c, fastcomp native (chars "foo") c false
             = levenshtein native (lenient 33) (chars "foo") c 2) /\
  drain (S (length [chars "fo"; chars "bar"; chars "foobaz"])) (ifastcomp_next native)
    {| itor := [chars "fo"; chars "bar"; chars "foobaz"]; seq1 := chars "foo";
       transpos := false; max_dist := -1 |}
  = drain (S (length [chars "fo"; chars "bar"; chars "foobaz"]))
      (ilevenshtein_next native (lenient 33))
      {| itor := [chars "fo"; chars "bar"; chars "foobaz"]; seq1 := chars "foo";
         transpos := false; max_dist := 2 |}.
Proof.
  split; [split; reflexivity|].
  apply (fastcomp_is_levenshtein_capped_at_two (lenient 33) 33 (chars "foo")
           [chars "fo"; chars "bar"; chars "foobaz"] false (-1)); reflexivity.
Defined.

(** ** Fresh memory does not show *)

Lemma longest_unique {T} `{EqDecision T} (a b : list T) (l l' : nat) :
  longest_alignment a b l -> longest_alignment a b l' -> l = l'.
Proof.
  intros [H1 M1] [H2 M2]. specialize (M1 _ H2). specialize (M2 _ H1). lia.
Qed.

Lemma tally_unique {T} `{EqDecision T} (seq1 seq2 : list T) (cs : list (nat * nat))
    (mlen mlen' : Z) (stack stack' : list (Z * Z)) :
  tally seq1 seq2 cs mlen stack -> tally seq1 seq2 cs mlen' stack' ->
  mlen = mlen' /\ stack = stack'.
Proof.
  unfold tally. destruct (decide (best seq1 seq2 cs = 0%nat));
    intros [-> ->] [-> ->]; done.
Qed.

(** X23: what a fresh block holds before it is written never shows in a
    result. On the code-point and byte instances, two machines whose
    allocations succeed give the same answers from [levenshtein] without
    a cap, from both methods of [nlevenshtein] and from [lcsubstrings],
    whatever their fresh memory contains and whatever lies in front of
    their blocks. *)
Theorem results_ignore_fresh_memory {T} `{EqDecision T} (m m' : machine)
    (A B : list T) (method : Z) (positions : bool) :
  malloc_ok m 0 = true -> malloc_ok m 1 = true ->
  malloc_ok m' 0 = true -> malloc_ok m' 1 = true ->
  method = 1 \/ method = 2 ->
  levenshtein_py native m A B false (-1) = levenshtein_py native m' A B false (-1) /\
  nlevenshtein_py native m A B method = nlevenshtein_py native m' A B method /\
  lcsubstrings_py native m A B positions = lcsubstrings_py native m' A B positions.
Proof.
  intros Hm0 Hm1 Hm0' Hm1' Hmethod. split; [|split].
  - unfold levenshtein_py. by rewrite !levenshtein_free by done.
  - rewrite !nlevenshtein_py_ordered by done.
    destruct (ordered_facts A B) as (Hle & _).
    destruct (ordered A B) as [[|x1 s1] [|x2 s2]]; cbn [fst snd] in *;
      [done | simpl in Hle; lia | done |].
    destruct Hmethod as [-> | ->].
    + by rewrite !nlevenshtein_method1 by (done || (simpl in *; lia)).
    + destruct (nlevenshtein_method2_exact m (x1 :: s1) (x2 :: s2) Hm0 Hm1)
        as (L & HL & ->); [simpl in *; lia|].
      destruct (nlevenshtein_method2_exact m' (x1 :: s1) (x2 :: s2) Hm0' Hm1')
        as (L' & HL' & ->); [simpl in *; lia|].
      by rewrite (longest_unique _ _ _ _ HL HL').
  - assert (Hord : forall seq1 seq2 : list T, (length seq2 <= length seq1)%nat ->
              lcsubstrings native m seq1 seq2 (-1)
              = lcsubstrings native m' seq1 seq2 (-1)).
    { intros seq1 seq2 Hle. destruct seq2 as [|y seq2].
      - unfold lcsubstrings, len.
        replace (Z.of_nat (length seq1) >=? Z.of_nat (length (@nil T))) with true
          by (symmetry; apply Z.geb_le; simpl; lia).
        reflexivity.
      - destruct (lcsubstrings_native m seq1 (y :: seq2) (-1) Hm0)
          as (mlen & stack & -> & Ht); [simpl in *; lia|].
        destruct (lcsubstrings_native m' seq1 (y :: seq2) (-1) Hm0')
          as (mlen' & stack' & -> & Ht'); [simpl in *; lia|].
        by destruct (tally_unique _ _ _ _ _ _ _ Ht Ht') as [-> ->]. }
    unfold lcsubstrings_py.
    destruct (len A <? len B) eqn:Hswap; zbool; unfold len in Hswap.
    + by rewrite (Hord B A) by lia.
    + by rewrite (Hord A B) by lia.
Qed.

Lemma results_ignore_fresh_memory_witness :
  (malloc_ok checked 0 = true /\ malloc_ok checked 1 = true /\
   malloc_ok (Machine (fun _ => true) (fun k => 7 * k + 1) (fun _ => Some 9)) 0 = true /\
   malloc_ok (Machine (fun _ => true) (fun k => 7 * k + 1) (fun _ => Some 9)) 1 = true /\
   (2 = 1 \/ 2 = 2)) /\
  levenshtein_py native checked (chars "kitten") (chars "sitting") false (-1)
  = levenshtein_py native
      (Machine (fun _ => true) (fun k => 7 * k + 1) (fun _ => Some 9))
      (chars "kitten") (chars "sitting") false (-1) /\
  nlevenshtein_py native checked (chars "kitten") (chars "sitting") 2
  = nlevenshtein_py native
      (Machine (fun _ => true) (fun k => 7 * k + 1) (fun _ => Some 9))
      (chars "kitten") (chars "sitting") 2 /\
  lcsubstrings_py native checked (chars "kitten") (chars "sitting") true
  = lcsubstrings_py native
      (Machine (fun _ => true) (fun k => 7 * k + 1) (fun _ => Some 9))
      (chars "kitten") (chars "sitting") true.
Proof.
  split.
  { split; [reflexivity|]. split; [reflexivity|]. split; [reflexivity|].
    split; [reflexivity | by right]. }
  apply (results_ignore_fresh_memory checked
           (Machine (fun _ => true) (fun k => 7 * k + 1) (fun _ => Some 9))
           (chars "kitten") (chars "sitting") 2 true);
    (reflexivity || by right).
Defined.

(** ** The entry points always return *)

Section AlwaysReturns.
Context {T : Type}.
Variable COMP : T -> T -> Z.
Variable m : machine.





End AlwaysReturns.

(** ** The capped call against any oracle *)

Lemma loop_post_weaken {R St} (P : St -> Prop) (Q Q' : R -> Prop) (c : outcome R St) :
  (forall r, Q r -> Q' r) -> loop_post P Q c -> loop_post P Q' c.
Proof. intros HQ. destruct c; simpl; auto. Qed.

Section AnyOracleCapped.
Context {T : Type}.
Variable COMP : T -> T -> Z.
Variable m : machine.
Variable g : Z.
Hypothesis Hg : stray m (-1) = Some g.
Variables seq1 seq2 : list T.
Variable max_dist : Z.

Lemma levenshtein_row_capped i column :
  (i < length seq1)%nat -> bounded_filled COMP seq1 seq2 i column ->
  loop_post (bounded_filled COMP seq1 seq2 (S i))
    (fun r => r = -1 \/ stopped_by_oracle COMP seq1 seq2 (-3) r)
    (levenshtein_row COMP m seq1 seq2 (Z.of_nat (length seq2)) max_dist
       (1 + Z.of_nat i) column).
Proof using Hg.
  intros Hi (Hlen & Hrow & Hquiet). unfold levenshtein_row.
  rewrite (store_inside column 0) by lia. cbn [bind].
  replace (1 + Z.of_nat i - 1) with (Z.of_nat i) by lia.
  loop_rule (bounded_filling COMP seq1 seq2 i) (stopped_by_oracle COMP seq1 seq2 (-3))
            1 (length seq2) Hloop.
  lapply Hloop; [clear Hloop; intros Hloop|].
  2:{ split; [|split; [|split; [|split]]]; cbn [fst snd].
      - by rewrite length_insert.
      - intros k Hk. replace k with O by lia.
        rewrite list_lookup_insert_eq by lia. eexists. split; [reflexivity|].
        unfold within. lia.
      - intros k Hk. rewrite list_lookup_insert_ne by lia. apply Hrow. lia.
      - unfold within. lia.
      - by apply quiet_rows_start. }
  lapply Hloop; [clear Hloop; intros Hloop|].
  2:{ intros n st Hn Hst. by apply levenshtein_cell_bounded. }
  destruct (for_each _ _ _) as [[column' last']|r|f]; cbn [loop_post bind] in *;
    [|by right|done].
  destruct Hloop as (Hlen' & Hnew & _ & _ & Hq). cbn [fst snd] in *.
  assert (Hfilled : bounded_filled COMP seq1 seq2 (S i) column').
  { split; [done|]. split; [|by apply quiet_cells_row]. intros k Hk. apply Hnew. lia. }
  destruct (max_dist >=? 0); cbn [bind loop_post]; [|done].
  replace (Z.of_nat (length seq2) + 1) with (len column') by (unfold len; lia).
  rewrite minimum_spec, Hg by (intros ->; done). cbn [call bind].
  destruct (least g column' >? max_dist); cbn [return_if bind loop_post]; [by left | done].
Qed.

(** The call on ordered operands, with or without a cap, where the word
    in front of the row can be read. *)
Lemma levenshtein_ordered_capped :
  malloc_ok m 0 = true -> (length seq2 <= length seq1)%nat ->
  exists d,
    finish (levenshtein_ordered COMP m seq1 seq2 (len seq1) (len seq2) max_dist)
    = Value d /\
    (d = -1 \/ (d = -3 /\ fails_anywhere COMP seq1 seq2 = true) \/
     (len seq1 - len seq2 <= d <= len seq1 /\ (0 <= max_dist -> d <= max_dist))).
Proof using Hg.
  intros Hm0 Hle. unfold levenshtein_ordered, len.
  destruct ((max_dist >=? 0)
            && (Z.of_nat (length seq1) - Z.of_nat (length seq2) >? max_dist)) eqn:Hfar;
    cbn [return_if bind finish]; [by exists (-1); split; [|left]|].
  assert (Hnear : 0 <= max_dist ->
            Z.of_nat (length seq1) - Z.of_nat (length seq2) <= max_dist).
  { intros Hk. apply andb_false_iff in Hfar as [H1|H2]; zbool; lia. }
  destruct (Z.of_nat (length seq1) =? 0) eqn:H1; cbn [return_if bind finish]; zbool.
  { eexists. split; [reflexivity|]. right. right. lia. }
  destruct (Z.of_nat (length seq2) =? 0) eqn:H2; cbn [return_if bind finish]; zbool.
  { eexists. split; [reflexivity|]. right. right. lia. }
  unfold malloc. rewrite Hm0.
  destruct (numbered_row seq2 (junk m <$> seqZ 0 (Z.of_nat (length seq2) + 1)))
    as (column0 & -> & Hlen0 & Hrow0).
  { rewrite length_fmap, length_seqZ. lia. }
  cbn [bind].
  loop_rule (bounded_filled COMP seq1 seq2)
            (fun r => r = -1 \/ stopped_by_oracle COMP seq1 seq2 (-3) r)
            1 (length seq1) Hrows.
  lapply Hrows; [clear Hrows; intros Hrows|].
  2:{ split; [done|]. split.
      - intros k Hk. exists (Z.of_nat k). split; [by apply Hrow0|]. unfold within. lia.
      - intros i' j x y Hi'. lia. }
  lapply Hrows; [clear Hrows; intros Hrows|].
  2:{ intros n st Hn Hst. by apply levenshtein_row_capped. }
  destruct (for_each (seqZ 1 (Z.of_nat (length seq1))) _ column0) as [column|r|f];
    cbn [loop_post bind finish] in *; [| |contradiction].
  - destruct Hrows as (Hlen & Hrow & Hq).
    destruct (Hrow (length seq2) ltac:(lia)) as (v & Hv & Bv).
    rewrite (load_inside m column (length seq2) v Hv). cbn [bind].
    destruct ((max_dist >=? 0) && (v >? max_dist)) eqn:Hover;
      cbn [return_if bind finish]; [by exists (-1); split; [|left]|].
    exists v. split; [reflexivity|]. right. right. unfold within in Bv.
    split; [lia|]. intros Hk. apply andb_false_iff in Hover as [H3|H3]; zbool; lia.
  - exists r. split; [reflexivity|]. destruct Hrows as [-> | [-> Hf]]; auto.
Qed.
End AnyOracleCapped.

(** X25: the capped [levenshtein] against an oracle that can raise, on a
    machine whose allocation succeeds and on which the word in front of
    the row can be read. The call always returns, whatever the cap, the
    oracle and that word are. It answers [-3], which the entry point
    turns into the comparison error, only if the oracle raises on some
    pair of elements; otherwise it answers [-1] or a value between the
    difference of the lengths and the longer length, and under a cap
    [k >= 0] never a value above [k]. *)
Theorem levenshtein_capped_failing_oracle {T} (COMP : T -> T -> Z) (m : machine)
    (g : Z) (A B : list T) (k : Z) :
  malloc_ok m 0 = true -> stray m (-1) = Some g ->
  exists d : Z,
    levenshtein COMP m A B k = Value d /\
    levenshtein_py COMP m A B false k
      = (if d =? -3 then Raise ComparisonFailed else Ok (PyLong d)) /\
    (d = -1 \/
     (d = -3 /\ fails_anywhere COMP (ordered A B).1 (ordered A B).2 = true) \/
     (Z.abs (len A - len B) <= d <= Z.max (len A) (len B) /\ (0 <= k -> d <= k))).
Proof.
  intros Hm0 Hg.
  assert (Hcall : exists d, levenshtein COMP m A B k = Value d /\
            (d = -1 \/
             (d = -3 /\ fails_anywhere COMP (ordered A B).1 (ordered A B).2 = true) \/
             (Z.abs (len A - len B) <= d <= Z.max (len A) (len B)
              /\ (0 <= k -> d <= k)))).
  { unfold levenshtein, ordered.
    destruct (len A <? len B) eqn:Hswap; zbool; unfold len in Hswap; cbn [fst snd].
    - destruct (levenshtein_ordered_capped COMP m g Hg B A k Hm0 ltac:(lia))
        as (d & -> & Hd).
      exists d. split; [done|]. unfold len in *.
      destruct Hd as [Hd | [Hd | Hd]]; [by left | by right; left | right; right; lia].
    - destruct (levenshtein_ordered_capped COMP m g Hg A B k Hm0 ltac:(lia))
        as (d & -> & Hd).
      exists d. split; [done|]. unfold len in *.
      destruct Hd as [Hd | [Hd | Hd]]; [by left | by right; left | right; right; lia]. }
  destruct Hcall as (d & Hcall & Hd). exists d. split; [done|]. split; [|done].
  unfold levenshtein_py. rewrite Hcall.
  destruct Hd as [-> | [[-> _] | [Hd _]]]; [done | done |].
  decide_test (d =? -3). decide_test (d <? -1). done.
Qed.

Lemma levenshtein_capped_failing_oracle_witness :
  (malloc_ok (lenient 33) 0 = true /\ stray (lenient 33) (-1) = Some 33) /\
  exists d : Z,
    levenshtein (refusing 3) (lenient 33) [1; 2] [4; 3; 2] 1 = Value d /\
    levenshtein_py (refusing 3) (lenient 33) [1; 2] [4; 3; 2] false 1
      = (if d =? -3 then Raise ComparisonFailed else Ok (PyLong d)) /\
    (d = -1 \/
     (d = -3 /\ fails_anywhere (refusing 3) (ordered [1; 2] [4; 3; 2]).1
                  (ordered [1; 2] [4; 3; 2]).2 = true) \/
     (Z.abs (len [1; 2] - len [4; 3; 2]) <= d <= Z.max (len [1; 2]) (len [4; 3; 2])
      /\ (0 <= 1 -> d <= 1))).
Proof.
  split; [split; reflexivity|].
  apply (levenshtein_capped_failing_oracle (refusing 3) (lenient 33) 33
           [1; 2] [4; 3; 2] 1); reflexivity.
Defined.

(** ** The normalized flag of [levenshtein] *)


